(** * In-place line rewriting: the buffered line reader and its driver

    A shallow embedding of [rewriteFiles.js]: the class [ReadFileAsync]
    (methods [processLine], [_refill], [_find_eol], [_emit_line], [next],
    [close]) and the driver [rewriteFiles].

    JavaScript numbers that index strings and buffers are integers of [Z];
    a JavaScript string is the list of its UTF-16 code units; the bytes of
    a [Buffer] and of a file are integers of [Z]. *)

From stdpp Require Import base relations list strings.
From Stdlib Require Import ZArith Lia.

Local Open Scope Z_scope.

(** [x.length] of a string or array, as a JavaScript number. *)
Definition len {A : Type} (l : list A) : Z := Z.of_nat (length l).

(** The code units the source names in literals. *)
Definition DQUOTE : Z := 34.   (* the double quote *)
Definition LF : Z := 10.       (* '\n', 0xA *)
Definition CR : Z := 13.       (* '\r', 0xD *)

(** The code units of an ASCII literal. *)
Definition units (s : string) : list Z :=
  map (fun a => Z.of_N (Ascii.N_of_ascii a)) (String.list_ascii_of_string s).

(** ** JavaScript string primitives used by [processLine] *)
Module JsString.

Abbreviation t := (list Z) (only parsing).

(** Scan of [String.prototype.indexOf]: the first position of [c] in
    [s], positions counted from [i]; [-1] when there is none. *)
Fixpoint index_from (c : Z) (s : t) (i : Z) : Z :=
  match s with
  | [] => -1
  | x :: r => if x =? c then i else index_from c r (i + 1)
  end.

(** [s.indexOf(c, from)]: [from] is clamped to [0 .. s.length]. *)
Definition indexOf (s : t) (c : Z) (from : Z) : Z :=
  let k := Z.min (Z.max from 0) (len s) in
  index_from c (drop (Z.to_nat k) s) k.

(** A relative index as [slice] and [substr] read it: negative counts
    from the end, and the result is clamped to [0 .. n]. *)
Definition rel_index (n i : Z) : Z :=
  if i <? 0 then Z.max (n + i) 0 else Z.min i n.

(** [s.slice(a, b)] *)
Definition slice (s : t) (a b : Z) : t :=
  let from := rel_index (len s) a in
  let to := rel_index (len s) b in
  take (Z.to_nat (to - from)) (drop (Z.to_nat from) s).

(** [s.substr(start, length)] *)
Definition substr (s : t) (start length : Z) : t :=
  let from := rel_index (len s) start in
  let l := Z.min (Z.max length 0) (len s - from) in
  take (Z.to_nat l) (drop (Z.to_nat from) s).

(** [s.split(empty).reverse().join(empty)]: the code units in reverse. *)
Definition reverse_units (s : t) : t := rev s.

End JsString.

(** ** [processLine] *)

(** The right-hand side of both assignments to [end]:
    [((start > -1) && (start < line.length-1)) ? line.indexOf(DQUOTE, start+1) : -1] *)
Definition find_end (line : list Z) (start : Z) : Z :=
  if (-1 <? start) && (start <? len line - 1)
  then JsString.indexOf line DQUOTE (start + 1)
  else -1.

(** The [while] loop of [processLine]; [None] when [fuel] iterations do
    not reach the exit test. *)
Fixpoint processLine_loop (fuel : nat) (line : list Z) (start end_ : Z)
  : option (list Z) :=
  if (-1 <? start) && (start <? end_) then
    match fuel with
    | O => None
    | S fuel' =>
        let str := JsString.slice line (start + 1) end_ in
        let str := JsString.reverse_units str in
        let line :=
          JsString.substr line 0 (start + 1) ++ str ++
          JsString.substr line end_ (len line - end_) in
        let start := JsString.indexOf line DQUOTE (end_ + 1) in
        let end_ := find_end line start in
        processLine_loop fuel' line start end_
    end
  else Some line.

(** The body of [processLine] up to its [return]: the value of [line]
    when the loop exits.  This is what the specification calls the
    transform.  Every iteration consumes two quotes, so the length of the
    line bounds the number of iterations. *)
Definition transform (line : list Z) : option (list Z) :=
  let start := JsString.indexOf line DQUOTE 0 in
  let end_ := find_end line start in
  processLine_loop (length line) line start end_.

(** [processLine(line)]: the transform, then [return line+LF]. *)
Definition processLine (line : list Z) : option (list Z) :=
  match transform line with
  | Some line' => Some (line' ++ [LF])
  | None => None
  end.

(** The specification's transform, in its words: text outside quotes is
    kept, the text between an opening quote and the next quote is
    reversed, the quotes stay, and a quoted segment that is never closed
    is kept as it is.  [quoted seen l] has read [seen] (latest first)
    since the opening quote. *)
Fixpoint unquoted (l : list Z) : list Z :=
  match l with
  | [] => []
  | c :: r => if c =? DQUOTE then c :: quoted [] r else c :: unquoted r
  end
with quoted (seen : list Z) (l : list Z) : list Z :=
  match l with
  | [] => rev seen
  | c :: r => if c =? DQUOTE then seen ++ c :: unquoted r else quoted (c :: seen) r
  end.

Definition spec_transform (line : list Z) : list Z := unquoted line.

(** *** Facts on the string primitives *)
Section JsStringFacts.
Import JsString.

Lemma len_app {A} (a b : list A) : len (a ++ b) = len a + len b.
Proof. unfold len. rewrite length_app. lia. Qed.

Lemma len_nonneg {A} (a : list A) : 0 <= len a.
Proof. unfold len. lia. Qed.

Lemma len_cons {A} (x : A) (a : list A) : len (x :: a) = 1 + len a.
Proof. unfold len. simpl. lia. Qed.

Lemma to_nat_len {A} (a : list A) : Z.to_nat (len a) = length a.
Proof. unfold len. lia. Qed.

Lemma index_from_absent c s i : c ∉ s -> index_from c s i = -1.
Proof.
  revert i. induction s as [|x s IH]; intros i Hc; simpl; [reflexivity|].
  apply not_elem_of_cons in Hc as [Hx Hs].
  destruct (Z.eqb_spec x c); [congruence|]. now apply IH.
Qed.

Lemma index_from_first c a b i :
  c ∉ a -> index_from c (a ++ c :: b) i = i + len a.
Proof.
  revert i. induction a as [|x a IH]; intros i Hc; simpl.
  - rewrite Z.eqb_refl. unfold len. simpl. lia.
  - apply not_elem_of_cons in Hc as [Hx Ha].
    destruct (Z.eqb_spec x c); [congruence|].
    rewrite IH by assumption. rewrite len_cons. lia.
Qed.

(** A list either lacks [c] or splits at the first [c]. *)
Lemma first_occurrence (c : Z) (s : list Z) :
  c ∉ s \/ exists a b, s = a ++ c :: b /\ c ∉ a.
Proof.
  induction s as [|x s IH].
  - left. apply not_elem_of_nil.
  - destruct (Z.eq_dec x c) as [->|Hne].
    + right. exists [], s. split; [reflexivity | apply not_elem_of_nil].
    + destruct IH as [Hs | (a & b & -> & Ha)].
      * left. apply not_elem_of_cons. split; [congruence | assumption].
      * right. exists (x :: a), b. split; [reflexivity|].
        apply not_elem_of_cons. split; [congruence | assumption].
Qed.

Lemma indexOf_absent p r c : c ∉ r -> indexOf (p ++ r) c (len p) = -1.
Proof.
  intros Hc. unfold indexOf.
  rewrite len_app.
  replace (Z.min (Z.max (len p) 0) (len p + len r)) with (len p)
    by (pose proof (len_nonneg p); pose proof (len_nonneg r); lia).
  rewrite to_nat_len, drop_app_length. now apply index_from_absent.
Qed.

Lemma indexOf_first p a b c :
  c ∉ a -> indexOf (p ++ a ++ c :: b) c (len p) = len p + len a.
Proof.
  intros Hc. unfold indexOf.
  rewrite len_app.
  replace (Z.min (Z.max (len p) 0) (len p + len (a ++ c :: b))) with (len p)
    by (pose proof (len_nonneg p); pose proof (len_nonneg (a ++ c :: b)); lia).
  rewrite to_nat_len, drop_app_length. now apply index_from_first.
Qed.

Lemma slice_middle (x m y : list Z) :
  slice (x ++ m ++ y) (len x) (len x + len m) = m.
Proof.
  unfold slice, rel_index. rewrite !len_app.
  pose proof (len_nonneg x). pose proof (len_nonneg m). pose proof (len_nonneg y).
  destruct (Z.ltb_spec (len x) 0); [lia|].
  destruct (Z.ltb_spec (len x + len m) 0); [lia|].
  rewrite !Z.min_l by lia.
  replace (len x + len m - len x) with (len m) by lia.
  rewrite !to_nat_len, drop_app_length, take_app_length. reflexivity.
Qed.

Lemma substr_prefix (x y : list Z) : substr (x ++ y) 0 (len x) = x.
Proof.
  unfold substr, rel_index. rewrite !len_app.
  pose proof (len_nonneg x). pose proof (len_nonneg y).
  change (0 <? 0) with false. cbv iota.
  rewrite (Z.min_l 0) by lia.
  replace (Z.min (Z.max (len x) 0) (len x + len y - 0)) with (len x) by lia.
  change (Z.to_nat 0) with 0%nat. rewrite drop_0.
  rewrite to_nat_len, take_app_length. reflexivity.
Qed.

Lemma substr_suffix (x y : list Z) :
  substr (x ++ y) (len x) (len (x ++ y) - len x) = y.
Proof.
  unfold substr, rel_index. rewrite !len_app.
  pose proof (len_nonneg x). pose proof (len_nonneg y).
  destruct (Z.ltb_spec (len x) 0); [lia|].
  rewrite (Z.min_l (len x)) by lia.
  replace (Z.min (Z.max (len x + len y - len x) 0) (len x + len y - len x))
    with (len y) by lia.
  rewrite !to_nat_len, drop_app_length.
  apply take_ge. lia.
Qed.

End JsStringFacts.

(** *** Facts on the specification's transform *)

Lemma quoted_open seen m : DQUOTE ∉ m -> quoted seen m = rev seen ++ m.
Proof.
  revert seen. induction m as [|x m IH]; intros seen Hm; simpl.
  - now rewrite app_nil_r.
  - apply not_elem_of_cons in Hm as [Hx Hm].
    destruct (Z.eqb_spec x DQUOTE); [congruence|].
    rewrite IH by assumption. simpl. now rewrite <- app_assoc.
Qed.

Lemma quoted_closed seen m r :
  DQUOTE ∉ m -> quoted seen (m ++ DQUOTE :: r) = rev m ++ seen ++ DQUOTE :: unquoted r.
Proof.
  revert seen. induction m as [|x m IH]; intros seen Hm; simpl.
  - reflexivity.
  - apply not_elem_of_cons in Hm as [Hx Hm].
    destruct (Z.eqb_spec x DQUOTE); [congruence|].
    rewrite IH by assumption. now rewrite <- app_assoc.
Qed.

Lemma unquoted_plain a : DQUOTE ∉ a -> unquoted a = a.
Proof.
  induction a as [|x a IH]; intros Ha; simpl; [reflexivity|].
  apply not_elem_of_cons in Ha as [Hx Ha].
  destruct (Z.eqb_spec x DQUOTE); [congruence|]. now rewrite IH.
Qed.

Lemma unquoted_until a r :
  DQUOTE ∉ a -> unquoted (a ++ DQUOTE :: r) = a ++ DQUOTE :: quoted [] r.
Proof.
  induction a as [|x a IH]; intros Ha; simpl; [reflexivity|].
  apply not_elem_of_cons in Ha as [Hx Ha].
  destruct (Z.eqb_spec x DQUOTE); [congruence|]. now rewrite IH.
Qed.

(** *** The loop of [processLine] against the specification's transform *)

(** Loop invariant: [p] is the part of the line already rewritten, [r]
    the part still to scan; [start] is the first quote of [r]. *)
Lemma processLine_loop_spec (fuel : nat) :
  forall p r : list Z,
    (length r <= fuel)%nat ->
    processLine_loop fuel (p ++ r)
      (JsString.indexOf (p ++ r) DQUOTE (len p))
      (find_end (p ++ r) (JsString.indexOf (p ++ r) DQUOTE (len p)))
    = Some (p ++ unquoted r).
Proof.
  induction fuel as [|fuel IH]; intros p r Hfuel.
  - destruct r; [|simpl in Hfuel; lia].
    rewrite indexOf_absent by apply not_elem_of_nil. reflexivity.
  - destruct (first_occurrence DQUOTE r) as [Hr | (a & r1 & -> & Ha)].
    { rewrite indexOf_absent by assumption.
      rewrite unquoted_plain by assumption.
      destruct fuel; reflexivity. }
    rewrite indexOf_first by assumption.
    rewrite unquoted_until by assumption.
    pose proof (len_nonneg p) as Hp. pose proof (len_nonneg a) as Hla.
    assert (Hline : p ++ a ++ DQUOTE :: r1 = (p ++ a ++ [DQUOTE]) ++ r1)
      by now rewrite <- !app_assoc.
    assert (Hpre : len (p ++ a ++ [DQUOTE]) = len p + len a + 1)
      by (rewrite !len_app; unfold len; simpl; lia).
    destruct (first_occurrence DQUOTE r1) as [Hr1 | (m & r2 & -> & Hm)].
    { (* the opening quote is never closed *)
      assert (Hend : find_end (p ++ a ++ DQUOTE :: r1) (len p + len a) = -1).
      { unfold find_end.
        destruct ((-1 <? len p + len a) && (len p + len a <? len (p ++ a ++ DQUOTE :: r1) - 1));
          [|reflexivity].
        rewrite Hline, <- Hpre. now apply indexOf_absent. }
      rewrite Hend. rewrite quoted_open by assumption. simpl.
      replace ((-1 <? len p + len a) && (len p + len a <? -1)) with false
        by (symmetry; apply andb_false_iff; right; apply Z.ltb_ge; lia).
      reflexivity. }
    (* a closed pair of quotes around [m] *)
    pose proof (len_nonneg m) as Hlm. pose proof (len_nonneg r2) as Hlr2.
    assert (Hend : find_end (p ++ a ++ DQUOTE :: m ++ DQUOTE :: r2) (len p + len a)
                   = len p + len a + 1 + len m).
    { unfold find_end.
      replace ((-1 <? len p + len a) &&
               (len p + len a <? len (p ++ a ++ DQUOTE :: m ++ DQUOTE :: r2) - 1))
        with true.
      - rewrite Hline, <- Hpre. rewrite indexOf_first by assumption. lia.
      - symmetry. apply andb_true_iff. split; apply Z.ltb_lt; [lia|].
        rewrite !len_app, !len_cons, len_app, len_cons. lia. }
    rewrite Hend. cbn [processLine_loop].
    replace ((-1 <? len p + len a) && (len p + len a <? len p + len a + 1 + len m))
      with true
      by (symmetry; apply andb_true_iff; split; apply Z.ltb_lt; lia).
    (* the three pieces of the rebuilt line *)
    assert (Hmid : JsString.slice (p ++ a ++ DQUOTE :: m ++ DQUOTE :: r2)
                     (len p + len a + 1) (len p + len a + 1 + len m) = m).
    { rewrite Hline, <- Hpre. apply (slice_middle _ m (DQUOTE :: r2)). }
    assert (Hfront : JsString.substr (p ++ a ++ DQUOTE :: m ++ DQUOTE :: r2) 0
                       (len p + len a + 1) = p ++ a ++ [DQUOTE]).
    { rewrite Hline, <- Hpre. apply substr_prefix. }
    assert (Hback : JsString.substr (p ++ a ++ DQUOTE :: m ++ DQUOTE :: r2)
                      (len p + len a + 1 + len m)
                      (len (p ++ a ++ DQUOTE :: m ++ DQUOTE :: r2) - (len p + len a + 1 + len m))
                    = DQUOTE :: r2).
    { replace (p ++ a ++ DQUOTE :: m ++ DQUOTE :: r2)
        with ((p ++ a ++ [DQUOTE] ++ m) ++ DQUOTE :: r2)
        by now rewrite <- !app_assoc.
      replace (len p + len a + 1 + len m) with (len (p ++ a ++ [DQUOTE] ++ m))
        by (rewrite !len_app; unfold len; simpl; lia).
      apply substr_suffix. }
    rewrite Hmid, Hfront, Hback. unfold JsString.reverse_units.
    set (p' := p ++ a ++ [DQUOTE] ++ rev m ++ [DQUOTE]).
    replace ((p ++ a ++ [DQUOTE]) ++ rev m ++ DQUOTE :: r2) with (p' ++ r2)
      by (unfold p'; now rewrite <- !app_assoc).
    replace (len p + len a + 1 + len m + 1) with (len p').
    2:{ unfold p'. rewrite !len_app. unfold len. rewrite length_rev. simpl. lia. }
    rewrite IH.
    + rewrite quoted_closed by assumption. unfold p'.
      rewrite <- !app_assoc. reflexivity.
    + rewrite !length_app in Hfuel. simpl in Hfuel.
      rewrite length_app in Hfuel. simpl in Hfuel. lia.
Qed.

(** The transform returns, and returns what the specification says. *)
Lemma transform_spec (line : list Z) :
  transform line = Some (spec_transform line).
Proof.
  unfold transform, spec_transform.
  pose proof (processLine_loop_spec (length line) [] line (le_n _)) as H.
  simpl in H. change (len (@nil Z)) with 0 in H. exact H.
Qed.

Lemma processLine_spec (line : list Z) :
  processLine line = Some (spec_transform line ++ [LF]).
Proof. unfold processLine. rewrite transform_spec. reflexivity. Qed.

Lemma quoted_length seen l : length (quoted seen l) = (length seen + length l)%nat
with unquoted_length l : length (unquoted l) = length l.
Proof.
  - destruct l as [|c r]; simpl.
    + rewrite length_rev. lia.
    + destruct (c =? DQUOTE).
      * rewrite length_app. simpl. rewrite unquoted_length. lia.
      * rewrite quoted_length. simpl. lia.
  - destruct l as [|c r]; simpl; [reflexivity|].
    destruct (c =? DQUOTE); simpl.
    + rewrite quoted_length. reflexivity.
    + now rewrite unquoted_length.
Qed.

(** C2. The transform applied to each line reverses the characters
    between each successive pair of double quotes, keeps the text outside
    quotes and the quotes themselves, and keeps a quoted segment that is
    never closed.  In particular the line [say QabcQ and QxyQ] (Q the
    double quote) becomes [say QcbaQ and QyxQ], and [say Qabc] is
    returned unchanged.  [processLine] returns the transformed line
    followed by a line feed. *)
Theorem processLine_reverses_quoted_segments :
  (forall line : list Z,
     transform line = Some (spec_transform line) /\
     processLine line = Some (spec_transform line ++ [LF])) /\
  transform
    (units "say " ++ [DQUOTE] ++ units "abc" ++ [DQUOTE] ++
     units " and " ++ [DQUOTE] ++ units "xy" ++ [DQUOTE])
  = Some (units "say " ++ [DQUOTE] ++ units "cba" ++ [DQUOTE] ++
          units " and " ++ [DQUOTE] ++ units "yx" ++ [DQUOTE]) /\
  transform (units "say " ++ [DQUOTE] ++ units "abc")
  = Some (units "say " ++ [DQUOTE] ++ units "abc").
Proof.
  split; [intros line; split; [apply transform_spec | apply processLine_spec]|].
  split; vm_compute; reflexivity.
Qed.

(** C10. For every input string, [processLine] returns a string whose
    length is the length of the input plus one, the appended line feed:
    reversing the quoted segments never changes the length of the line. *)
Theorem processLine_length :
  forall line : list Z,
    exists out, processLine line = Some out /\ len out = len line + 1.
Proof.
  intros line. exists (spec_transform line ++ [LF]).
  split; [apply processLine_spec|].
  rewrite len_app. unfold spec_transform, len.
  rewrite unquoted_length. simpl. lia.
Qed.

(** *** More on the transform *)

(** A line either has at most one double quote, or starts with a closed
    pair of them. *)
Lemma quote_pairs (l : list Z) :
  (DQUOTE ∉ l \/
   exists a r, l = a ++ DQUOTE :: r /\ (DQUOTE ∉ a) /\ (DQUOTE ∉ r)) \/
  exists a m r, l = a ++ DQUOTE :: m ++ DQUOTE :: r /\ (DQUOTE ∉ a) /\ (DQUOTE ∉ m).
Proof.
  destruct (first_occurrence DQUOTE l) as [H | (a & r1 & -> & Ha)]; [auto|].
  destruct (first_occurrence DQUOTE r1) as [H | (m & r2 & -> & Hm)].
  - left. right. exists a, r1. auto.
  - right. exists a, m, r2. auto.
Qed.

Lemma unquoted_single (l : list Z) :
  DQUOTE ∉ l \/
  (exists a r, l = a ++ DQUOTE :: r /\ (DQUOTE ∉ a) /\ (DQUOTE ∉ r)) ->
  unquoted l = l.
Proof.
  intros [H | (a & r & -> & Ha & Hr)].
  - now apply unquoted_plain.
  - rewrite unquoted_until by assumption.
    rewrite quoted_open by assumption. reflexivity.
Qed.

Lemma unquoted_pair (a m r : list Z) :
  DQUOTE ∉ a -> DQUOTE ∉ m ->
  unquoted (a ++ DQUOTE :: m ++ DQUOTE :: r)
  = a ++ DQUOTE :: rev m ++ DQUOTE :: unquoted r.
Proof.
  intros Ha Hm. rewrite unquoted_until by assumption.
  rewrite quoted_closed by assumption. reflexivity.
Qed.

(** Induction along the pairs of quotes of a line: what holds of a line
    with at most one quote and its copy, and passes from the rest of a
    line to the line when a closed pair is put in front, holds of every
    line and its transform. *)
Lemma unquoted_pairs_ind (P : list Z -> list Z -> Prop) :
  (forall l,
     DQUOTE ∉ l \/
     (exists a r, l = a ++ DQUOTE :: r /\ (DQUOTE ∉ a) /\ (DQUOTE ∉ r)) ->
     P l l) ->
  (forall a m r out,
     DQUOTE ∉ a -> DQUOTE ∉ m -> P r out ->
     P (a ++ DQUOTE :: m ++ DQUOTE :: r) (a ++ DQUOTE :: rev m ++ DQUOTE :: out)) ->
  forall l, P l (unquoted l).
Proof.
  intros Hbase Hstep l.
  remember (length l) as n eqn:Hn. revert l Hn.
  induction n as [n IH] using lt_wf_ind. intros l ->.
  destruct (quote_pairs l) as [H | (a & m & r & -> & Ha & Hm)].
  - rewrite unquoted_single by assumption. now apply Hbase.
  - rewrite unquoted_pair by assumption.
    apply Hstep; [assumption | assumption |].
    apply (IH (length r)); [|reflexivity].
    rewrite !length_app. cbn [length]. rewrite length_app. cbn [length]. lia.
Qed.

Lemma not_elem_of_rev (c : Z) (m : list Z) : c ∉ m -> c ∉ rev m.
Proof. intros H Hin. apply H. apply list_elem_of_In, in_rev, list_elem_of_In, Hin. Qed.

Lemma unquoted_involutive (l : list Z) : unquoted (unquoted l) = l.
Proof.
  apply (unquoted_pairs_ind (fun l out => unquoted out = l)).
  - intros l0 H. now apply unquoted_single.
  - intros a m r out Ha Hm IH.
    rewrite unquoted_pair by (assumption || now apply not_elem_of_rev).
    rewrite rev_involutive, IH. reflexivity.
Qed.

(** X1. The transform applied twice gives the line back: rewriting a
    file a second time restores every line. *)
Theorem transform_twice (line : list Z) :
  exists out, transform line = Some out /\ transform out = Some line.
Proof.
  exists (spec_transform line). split; [apply transform_spec|].
  rewrite transform_spec. unfold spec_transform.
  now rewrite unquoted_involutive.
Qed.

(** X2. The transform neither adds nor drops a character: its result is
    a rearrangement of the line. *)
Theorem transform_permutes (line : list Z) :
  exists out, transform line = Some out /\ out ≡ₚ line.
Proof.
  exists (spec_transform line). split; [apply transform_spec|].
  unfold spec_transform.
  apply (unquoted_pairs_ind (fun l out => out ≡ₚ l)).
  - reflexivity.
  - intros a m r out Ha Hm IH.
    apply Permutation_app; [reflexivity|]. constructor.
    apply Permutation_app; [symmetry; apply Permutation_rev|].
    now constructor.
Qed.

Lemma quote_mask_plain (m : list Z) :
  DQUOTE ∉ m -> map (Z.eqb DQUOTE) m = replicate (length m) false.
Proof.
  induction m as [|x m IH]; intros Hm; [reflexivity|].
  apply not_elem_of_cons in Hm as [Hx Hm]. cbn [map length replicate].
  rewrite IH by assumption.
  destruct (Z.eqb_spec DQUOTE x); [congruence | reflexivity].
Qed.

(** X3. Every double quote of a line stays at its position, and no
    other position gets one. *)
Theorem transform_keeps_quotes (line : list Z) :
  exists out,
    transform line = Some out /\
    map (Z.eqb DQUOTE) out = map (Z.eqb DQUOTE) line.
Proof.
  exists (spec_transform line). split; [apply transform_spec|].
  unfold spec_transform.
  apply (unquoted_pairs_ind
           (fun l out => map (Z.eqb DQUOTE) out = map (Z.eqb DQUOTE) l)).
  - reflexivity.
  - intros a m r out Ha Hm IH.
    rewrite !map_app. cbn [map]. rewrite !map_app. cbn [map].
    rewrite IH.
    rewrite (quote_mask_plain m), (quote_mask_plain (rev m))
      by (assumption || now apply not_elem_of_rev).
    now rewrite length_rev.
Qed.

(** X4. A line with fewer than two double quotes is returned as it is. *)
Theorem transform_needs_a_pair (line : list Z) :
  (count_occ Z.eq_dec line DQUOTE < 2)%nat -> transform line = Some line.
Proof.
  intros Hcount. rewrite transform_spec. unfold spec_transform. f_equal.
  apply unquoted_single.
  destruct (quote_pairs line) as [H | (a & m & r & -> & _ & _)]; [exact H|].
  exfalso. rewrite count_occ_app in Hcount. cbn [count_occ] in Hcount.
  destruct (Z.eq_dec DQUOTE DQUOTE); [|congruence].
  rewrite count_occ_app in Hcount. cbn [count_occ] in Hcount.
  destruct (Z.eq_dec DQUOTE DQUOTE); [|congruence]. lia.
Qed.

(** ** The reader [ReadFileAsync] *)

(** [const BUF_SIZE = 8092] *)
Definition BUF_SIZE : Z := 8092.

(** The errors passed as first argument of a line event: the three the
    reader creates itself and the error of a file-system callback. *)
Inductive jserror :=
| AlreadyInCourse      (* ReadFileAsync read operation already in course *)
| FileIsClosed         (* ReadFileAsync file is closed *)
| LineTooLarge         (* The file has a line larger than the buffer, ... *)
| FsError (code : Z).

(** The arguments [(err, eof, line)] of one [emit] of the line event. *)
Record line_event := LineEvent {
  ev_err : option jserror;
  ev_eof : bool;
  ev_line : list Z
}.

(** The fields the constructor sets. [_buffer] is [None] for [null]. *)
Record ReadFileAsync := Reader {
  _fd : Z;
  _buffer : option (list Z);
  _end : Z;
  _pos : Z;
  _eof : bool;
  _reading : bool;
  _readPointer : Z
}.

Definition set_buffer (b : option (list Z)) (r : ReadFileAsync) : ReadFileAsync :=
  Reader (_fd r) b (_end r) (_pos r) (_eof r) (_reading r) (_readPointer r).
Definition set_end (e : Z) (r : ReadFileAsync) : ReadFileAsync :=
  Reader (_fd r) (_buffer r) e (_pos r) (_eof r) (_reading r) (_readPointer r).
Definition set_pos (p : Z) (r : ReadFileAsync) : ReadFileAsync :=
  Reader (_fd r) (_buffer r) (_end r) p (_eof r) (_reading r) (_readPointer r).
Definition set_eof (b : bool) (r : ReadFileAsync) : ReadFileAsync :=
  Reader (_fd r) (_buffer r) (_end r) (_pos r) b (_reading r) (_readPointer r).
Definition set_reading (b : bool) (r : ReadFileAsync) : ReadFileAsync :=
  Reader (_fd r) (_buffer r) (_end r) (_pos r) (_eof r) b (_readPointer r).
Definition set_readPointer (p : Z) (r : ReadFileAsync) : ReadFileAsync :=
  Reader (_fd r) (_buffer r) (_end r) (_pos r) (_eof r) (_reading r) p.

(** *** Buffer primitives *)

(** [buf[i]]: [None] is [undefined], read outside the buffer. *)
Definition byte_at (buf : list Z) (i : Z) : option Z :=
  if i <? 0 then None else buf !! Z.to_nat i.

(** [buf[i] = v]: a store outside the buffer is ignored. *)
Definition byte_store (buf : list Z) (i v : Z) : list Z :=
  if i <? 0 then buf else <[Z.to_nat i := v]> buf.

(** The bytes that [buf.toString(utf8, start, end)] decodes: the range is
    clamped to the buffer and empty when [end <= start]. *)
Definition byte_range (buf : list Z) (start end_ : Z) : list Z :=
  let s := Z.max 0 start in
  let e := Z.min end_ (len buf) in
  take (Z.to_nat (e - s)) (drop (Z.to_nat s) buf).

(** What [fs.read] leaves in the buffer: [data] from [offset] on. *)
Definition byte_blit (buf : list Z) (offset : Z) (data : list Z) : list Z :=
  take (length buf)
    (take (Z.to_nat offset) buf ++ data ++
     drop (Z.to_nat offset + length data) buf).

(** The bytes of the reader's buffer; a reader whose [_buffer] is [null]
    has none to index (the source indexes the buffer only after it has
    tested it, see [next] and the callback of [_refill]). *)
Definition buffer_bytes (r : ReadFileAsync) : list Z :=
  default [] (_buffer r).

(** *** The event loop around a reader *)

(** A callback queued with [process.nextTick]. *)
Inductive tick :=
| TickEmit (e : line_event)        (* self.emit(line, null, false, line) *)
| TickRemoveAllListeners.          (* self.removeAllListeners() *)

(** An [fs.read] that has not called back yet: where in the buffer the
    bytes go, how many at most, from which offset of the file. *)
Record read_request := ReadRequest {
  rq_offset : Z;
  rq_length : Z;
  rq_position : Z
}.

(** The arguments of the callback of [fs.read]: an error, or the bytes
    read (their number is [fetched]). *)
Inductive read_result :=
| ReadFailed (code : Z)
| ReadDone (data : list Z).

Section Reader.

(** [Buffer.toString] with the utf8 encoding belongs to the runtime: it
    is a parameter, applied to the byte range it decodes. *)
Variable toString : list Z -> list Z.

(** The listener registered for the line event belongs to the consumer:
    its state is [C], and a delivery changes that state.  It does not call
    back into the reader before [emit] returns (the driver's does not). *)
Variable C : Type.
Variable listener : line_event -> C -> C.

(** A reader object and what surrounds it in the process. *)
Record world := World {
  self : ReadFileAsync;
  listening : bool;               (* a listener is registered *)
  consumer : C;
  emitted : list line_event;      (* the calls of emit, oldest first *)
  nextTicks : list tick;          (* the process.nextTick queue *)
  fs_reads : list read_request;   (* reads in flight, oldest first *)
  fs_closes : list Z              (* the calls fs.close(fd) *)
}.

Definition with_self (f : ReadFileAsync -> ReadFileAsync) (w : world) : world :=
  World (f (self w)) (listening w) (consumer w) (emitted w) (nextTicks w)
        (fs_reads w) (fs_closes w).
Definition with_listening (b : bool) (w : world) : world :=
  World (self w) b (consumer w) (emitted w) (nextTicks w) (fs_reads w) (fs_closes w).
Definition with_nextTicks (q : list tick) (w : world) : world :=
  World (self w) (listening w) (consumer w) (emitted w) q (fs_reads w) (fs_closes w).
Definition with_fs_reads (q : list read_request) (w : world) : world :=
  World (self w) (listening w) (consumer w) (emitted w) (nextTicks w) q (fs_closes w).

(** [new ReadFileAsync(fd)]: the memory of [new Buffer(BUF_SIZE)] is not
    initialised, [mem] is what it holds. *)
Definition init (fd : Z) (mem : list Z) (c : C) : world :=
  World (Reader fd (Some mem) 0 0 false false 0) false c [] [] [] [].

(** [reader.on(line, listener)] *)
Definition on_line (w : world) : world := with_listening true w.

(** [this.emit(line, err, eof, line)]: synchronous delivery to the
    listener, if one is registered. *)
Definition emit (e : line_event) (w : world) : world :=
  World (self w) (listening w)
        (if listening w then listener e (consumer w) else consumer w)
        (emitted w ++ [e]) (nextTicks w) (fs_reads w) (fs_closes w).

(** [process.nextTick(callback)] *)
Definition nextTick (t : tick) (w : world) : world :=
  with_nextTicks (nextTicks w ++ [t]) w.

(** [fs.close(fd)] *)
Definition fs_close (fd : Z) (w : world) : world :=
  World (self w) (listening w) (consumer w) (emitted w) (nextTicks w)
        (fs_reads w) (fs_closes w ++ [fd]).

(** [fs.read(fd, buffer, offset, length, position, callback)] *)
Definition fs_read (offset length position : Z) (w : world) : world :=
  with_fs_reads (fs_reads w ++ [ReadRequest offset length position]) w.

(** *** The methods *)

(** [close()] *)
Definition close (w : world) : world :=
  match _buffer (self w) with
  | Some _ =>
      let w := fs_close (_fd (self w)) w in
      let w := with_self (set_buffer None) w in
      let w := with_self (set_reading false) w in
      nextTick TickRemoveAllListeners w
  | None => w
  end.

(** The [for] loop of [_find_eol], [n] the iterations left before
    [i = _end]. *)
Fixpoint find_eol_from (n : nat) (buf : list Z) (i : Z) : Z :=
  match n with
  | O => i
  | S n' =>
      match byte_at buf i with
      | Some b => if b =? 10 then i else find_eol_from n' buf (i + 1)
      | None => find_eol_from n' buf (i + 1)
      end
  end.

(** [_find_eol()] *)
Definition _find_eol (r : ReadFileAsync) : Z :=
  find_eol_from (Z.to_nat (_end r - _pos r)) (buffer_bytes r) (_pos r).

(** [_emit_line(eol)] *)
Definition _emit_line (eol : Z) (w : world) : world :=
  let begin := _pos (self w) in
  let w := with_self (set_reading false) w in
  if _eof (self w) && (begin =? eol) then
    let w := emit (LineEvent None true []) w in
    close w
  else
    let w := with_self (set_pos eol) w in
    let w := with_self (set_pos (_pos (self w) + 1)) w in
    let eol :=
      if negb (eol =? 0) &&
         match byte_at (buffer_bytes (self w)) (eol - 1) with
         | Some b => b =? 13
         | None => false
         end
      then eol - 1 else eol in
    let line := toString (byte_range (buffer_bytes (self w)) begin eol) in
    nextTick (TickEmit (LineEvent None false line)) w.

(** The [while] loop of [_refill], [n] the iterations left before
    [_pos = _end]: [this._buffer[i++] = this._buffer[this._pos++]]. *)
Fixpoint compact_from (n : nat) (buf : list Z) (i pos : Z) : list Z * Z :=
  match n with
  | O => (buf, i)
  | S n' =>
      compact_from n' (byte_store buf i (default 0 (byte_at buf pos)))
                   (i + 1) (pos + 1)
  end.

(** [_refill(callback)]; the callback is always the one [loop] passes,
    [refill_callback] below. *)
Definition _refill (w : world) : world :=
  let r := self w in
  let '(buf, i) :=
    compact_from (Z.to_nat (_end r - _pos r)) (buffer_bytes r) 0 (_pos r) in
  let w := with_self (set_buffer (option_map (fun _ => buf) (_buffer r))) w in
  let w := with_self (set_pos 0) w in
  let w := with_self (set_end i) w in
  fs_read (_end (self w)) (BUF_SIZE - _end (self w)) (_readPointer (self w)) w.

(** One run of the function [loop] of [next()], up to its return: it
    emits, or leaves a read in flight whose callback runs it again. *)
Definition loop (w : world) : world :=
  let eol := _find_eol (self w) in
  if eol =? _end (self w) then
    if (_pos (self w) =? 0) && (_end (self w) =? BUF_SIZE) then
      let w := emit (LineEvent (Some LineTooLarge) false []) w in
      close w
    else _refill w
  else _emit_line eol w.

(** [next()] *)
Definition next (w : world) : world :=
  if _reading (self w) then
    let w := emit (LineEvent (Some AlreadyInCourse) false []) w in
    close w
  else if _eof (self w) then
    let w := emit (LineEvent None true []) w in
    close w
  else
    match _buffer (self w) with
    | None => emit (LineEvent (Some FileIsClosed) false []) w
    | Some _ => loop (with_self (set_reading true) w)
    end.

(** The callback [function (err, fetched)] that [loop] passes to
    [_refill]. *)
Definition refill_callback (err : option jserror) (fetched : Z) (w : world) : world :=
  match err with
  | Some e =>
      let w := emit (LineEvent (Some e) false []) w in
      close w
  | None =>
      if _reading (self w) then
        if fetched =? 0 then
          let w := with_self (set_eof true) w in
          _emit_line (_end (self w)) w
        else
          let w := with_self (set_end (_end (self w) + fetched)) w in
          let w := with_self (set_readPointer (_readPointer (self w) + fetched)) w in
          loop w
      else w
  end.

(** *** The environment's moves *)

(** The oldest read in flight completes: the bytes are in the buffer the
    read was given (the reader's, unless the reader has dropped it), and
    the callback runs. *)
Definition fs_read_complete (res : read_result) (w : world) : world :=
  match fs_reads w with
  | [] => w
  | rq :: rest =>
      let w := with_fs_reads rest w in
      match res with
      | ReadFailed code => refill_callback (Some (FsError code)) 0 w
      | ReadDone data =>
          let store r :=
            set_buffer (option_map (fun b => byte_blit b (rq_offset rq) data)
                                   (_buffer r)) r in
          refill_callback None (len data) (with_self store w)
      end
  end.

(** A read returns at most the number of bytes asked for. *)
Definition read_fits (rq : read_request) (res : read_result) : bool :=
  match res with
  | ReadFailed _ => true
  | ReadDone data => len data <=? rq_length rq
  end.

(** The oldest callback of the [process.nextTick] queue runs. *)
Definition run_tick (w : world) : world :=
  match nextTicks w with
  | [] => w
  | t :: rest =>
      let w := with_nextTicks rest w in
      match t with
      | TickEmit e => emit e w
      | TickRemoveAllListeners => with_listening false w
      end
  end.

(** The moves of a reader's life: the consumer calls a public method or
    registers its listener, a queued tick runs, a read completes.  The
    runtime empties the [nextTick] queue before it runs a file-system
    callback. *)
Inductive step : world -> world -> Prop :=
| step_next w : step w (next w)
| step_close w : step w (close w)
| step_on w : step w (on_line w)
| step_tick w : nextTicks w <> [] -> step w (run_tick w)
| step_read w rq rest res :
    fs_reads w = rq :: rest -> nextTicks w = [] ->
    read_fits rq res = true ->
    step w (fs_read_complete res w).

(** The states a reader created on [fd] can be in. *)
Inductive reachable (fd : Z) (mem : list Z) (c : C) : world -> Prop :=
| reach_init : reachable fd mem c (init fd mem c)
| reach_step w w' : reachable fd mem c w -> step w w' -> reachable fd mem c w'.

(** *** Reading a file in the orderly way *)

(** The file answers a read of at most [rq_length] bytes at
    [rq_position]: end of file gives no byte, and otherwise the system
    may return fewer bytes than asked, [short position] of them, but at
    least one. *)
Definition file_read (file : list Z) (short : Z -> Z) (rq : read_request)
  : read_result :=
  let n := Z.min (Z.max 1 (short (rq_position rq))) (rq_length rq) in
  ReadDone (take (Z.to_nat n) (drop (Z.to_nat (rq_position rq)) file)).

Fixpoint run_ticks (n : nat) (w : world) : world :=
  match n with
  | O => w
  | S n' => run_ticks n' (run_tick w)
  end.

(** All queued ticks run. *)
Definition drain (w : world) : world := run_ticks (length (nextTicks w)) w.

(** The reads in flight are answered from the file, one after the other,
    until none is left ([fuel] bounds their number). *)
Fixpoint settle (fuel : nat) (file : list Z) (short : Z -> Z) (w : world) : world :=
  match fs_reads w with
  | [] => w
  | rq :: _ =>
      match fuel with
      | O => w
      | S fuel' =>
          settle fuel' file short (fs_read_complete (file_read file short rq) (drain w))
      end
  end.

(** One pull: the consumer calls [next()] and waits for the delivery.
    Every read but the last adds a byte to the buffer, so [BUF_SIZE + 1]
    reads are enough. *)
Definition pull (file : list Z) (short : Z -> Z) (w : world) : world :=
  drain (settle (Z.to_nat (BUF_SIZE + 1)) file short (next w)).

Fixpoint pulls (n : nat) (file : list Z) (short : Z -> Z) (w : world) : world :=
  match n with
  | O => w
  | S n' => pulls n' file short (pull file short w)
  end.

(** *** What an orderly read of a file should deliver *)

(** The bytes of a line without the carriage return that may end it. *)
Fixpoint strip_cr (l : list Z) : list Z :=
  match l with
  | [] => []
  | [b] => if b =? CR then [] else [b]
  | b :: r => b :: strip_cr r
  end.

(** The file cut at its line feeds: the lines that a line feed ends,
    without it, and the bytes after the last line feed. *)
Fixpoint cut_lines (file : list Z) : list (list Z) * list Z :=
  match file with
  | [] => ([], [])
  | b :: r =>
      let '(ls, tl) := cut_lines r in
      if b =? LF then ([] :: ls, tl)
      else match ls with
           | [] => ([], b :: tl)
           | l :: ls' => ((b :: l) :: ls', tl)
           end
  end.

(** The lines of a file, in the order of its bytes: those a line feed
    ends, then the trailing chunk if it is not empty. *)
Definition file_lines (file : list Z) : list (list Z) :=
  let '(ls, tl) := cut_lines file in
  ls ++ (if tl is [] then [] else [tl]).

Definition line_event_of (bytes : list Z) : line_event :=
  LineEvent None false (toString bytes).

Definition eof_event : line_event := LineEvent None true [].

Definition too_large_event : line_event := LineEvent (Some LineTooLarge) false [].

(** What the consumer should see of a file: its lines, stripped, then the
    end of file once. *)
Definition file_events (file : list Z) : list line_event :=
  map (fun l => line_event_of (strip_cr l)) (file_lines file) ++ [eof_event].

(** The events of the lines [ls] and of the trailing chunk [tl]. *)
Definition events_of (ls : list (list Z)) (tl : list Z) : list line_event :=
  map (fun l => line_event_of (strip_cr l))
      (ls ++ (if tl is [] then [] else [tl])) ++ [eof_event].

(** A reader in the middle of an orderly read, spelled out: the buffer is
    [pre ++ win ++ post], the window is [win]. *)
Definition reader_at (fd : Z) (pre win post : list Z) (rp : Z) (eo rd : bool)
  : ReadFileAsync :=
  Reader fd (Some (pre ++ win ++ post)) (len pre + len win) (len pre) eo rd rp.

(** The bytes of [file] that have not been delivered yet are [s]: the
    window, then the bytes not read yet.  The reader is open, has not
    seen the end of the file, and no read is in flight. *)
Definition in_file (file : list Z) (rd : bool) (q : list tick) (s : list Z)
                   (w : world) : Prop :=
  exists fd pre win post rp,
    self w = reader_at fd pre win post rp false rd /\
    len (pre ++ win ++ post) = BUF_SIZE /\
    0 <= rp /\
    fs_reads w = [] /\ nextTicks w = q /\
    s = win ++ drop (Z.to_nat rp) file.

(** Nothing of the reader's surroundings has changed. *)
Definition same_outside (w w' : world) : Prop :=
  listening w' = listening w /\ consumer w' = consumer w /\
  emitted w' = emitted w /\ fs_closes w' = fs_closes w /\
  _fd (self w') = _fd (self w).

(** The end of the file has been seen and the last line is queued. *)
Definition last_line_queued (line : list Z) (w : world) : Prop :=
  _eof (self w) = true /\ _reading (self w) = false /\
  _buffer (self w) <> None /\ fs_reads w = [] /\
  nextTicks w = [TickEmit (line_event_of line)].

(** The reader has emitted [e] on the spot and closed itself. *)
Definition ended (e : line_event) (w w' : world) : Prop :=
  listening w' = listening w /\
  consumer w' = (if listening w then listener e (consumer w) else consumer w) /\
  emitted w' = emitted w ++ [e] /\
  fs_closes w' = fs_closes w ++ [_fd (self w)] /\
  _buffer (self w') = None /\ _reading (self w') = false /\
  fs_reads w' = [] /\ nextTicks w' = [TickRemoveAllListeners].

(** What one pull does, from [w] to [w'], by the bytes [s] not yet
    delivered: a line that a line feed ends is queued; or the last line,
    that nothing ends; or the end of file is emitted; or the error of a
    line that does not fit the buffer. *)
Definition pull_outcome (file s : list Z) (w w' : world) : Prop :=
  (forall l rest, s = l ++ LF :: rest -> LF ∉ l -> len l < BUF_SIZE ->
     in_file file false [TickEmit (line_event_of (strip_cr l))] rest w' /\
     same_outside w w') /\
  (LF ∉ s -> s <> [] -> len s < BUF_SIZE ->
     last_line_queued (strip_cr s) w' /\ same_outside w w') /\
  (s = [] -> ended eof_event w w') /\
  (LF ∉ take (Z.to_nat BUF_SIZE) s -> BUF_SIZE <= len s ->
     ended too_large_event w w').

(** The listener's state after the deliveries [es]. *)
Definition deliver_all (es : list line_event) (c : C) : C :=
  fold_left (fun c e => listener e c) es c.

(** From [w] to [w'] the event [e] has been emitted, and delivered if a
    listener is registered; nothing else has changed around the reader. *)
Definition delivered (e : line_event) (w w' : world) : Prop :=
  listening w' = listening w /\
  consumer w' = (if listening w then listener e (consumer w) else consumer w) /\
  emitted w' = emitted w ++ [e] /\
  fs_closes w' = fs_closes w /\
  _fd (self w') = _fd (self w) /\
  fs_reads w' = [] /\ nextTicks w' = [].

(** The reader has seen the end of the file, delivered the last line and
    is still open. *)
Definition at_eof (w : world) : Prop :=
  _eof (self w) = true /\ _reading (self w) = false /\ _buffer (self w) <> None.

(** From [w] to [w'] the reader has emitted [e], closed itself and
    dropped its listeners. *)
Definition finished (e : line_event) (w w' : world) : Prop :=
  listening w' = false /\
  consumer w' = (if listening w then listener e (consumer w) else consumer w) /\
  emitted w' = emitted w ++ [e] /\
  fs_closes w' = fs_closes w ++ [_fd (self w)] /\
  _buffer (self w') = None /\ _reading (self w') = false /\
  fs_reads w' = [] /\ nextTicks w' = [].

(** *** Invariants of a reader *)

(** What holds of the indices, the flags and the reads in flight in
    every state of a reader created on [fd]. *)
Definition inv (fd : Z) (w : world) : Prop :=
  let r := self w in
  _fd r = fd /\
  0 <= _end r <= BUF_SIZE /\
  0 <= _pos r <= BUF_SIZE /\
  _pos r <= _end r + 1 /\
  (_eof r = false -> _pos r <= _end r) /\
  (_reading r = true ->
     _buffer r <> None /\ _eof r = false /\ _pos r = 0 /\ _end r < BUF_SIZE /\
     fs_reads w = [ReadRequest (_end r) (BUF_SIZE - _end r) (_readPointer r)]) /\
  (_reading r = false -> _buffer r <> None -> fs_reads w = []) /\
  fs_closes w = (if _buffer r is None then [fd] else []).

(** The state in which [loop] runs: the guard is held, the window is in
    range and no read is in flight. *)
Definition loop_ready (fd : Z) (w : world) : Prop :=
  let r := self w in
  _fd r = fd /\ 0 <= _pos r /\ _pos r <= _end r /\ _end r <= BUF_SIZE /\
  _reading r = true /\ _eof r = false /\ _buffer r <> None /\
  fs_reads w = [] /\ fs_closes w = [].

(** A reader closed before it saw the end of the file. *)
Definition shut (w : world) : Prop :=
  _buffer (self w) = None /\ _eof (self w) = false /\ _reading (self w) = false.

(** ** The reader: index bookkeeping *)

Lemma find_eol_from_range (n : nat) (buf : list Z) (i : Z) :
  i <= find_eol_from n buf i <= i + Z.of_nat n.
Proof.
  revert i. induction n as [|n IH]; intros i; simpl; [lia|].
  specialize (IH (i + 1)).
  destruct (byte_at buf i) as [b|]; [destruct (b =? 10)|]; lia.
Qed.

Lemma compact_from_index (n : nat) (buf : list Z) (i pos : Z) :
  snd (compact_from n buf i pos) = i + Z.of_nat n.
Proof.
  revert buf i pos. induction n as [|n IH]; intros buf i pos; simpl; [lia|].
  rewrite IH. lia.
Qed.

Lemma _find_eol_range (r : ReadFileAsync) :
  _pos r <= _end r -> _pos r <= _find_eol r <= _end r.
Proof.
  intros H. unfold _find_eol.
  pose proof (find_eol_from_range (Z.to_nat (_end r - _pos r)) (buffer_bytes r) (_pos r)).
  lia.
Qed.

(** Reduction of the record projections and setters, leaving integer
    arithmetic alone. *)
Ltac wsimpl :=
  cbn -[Z.eqb Z.leb Z.ltb Z.add Z.sub Z.to_nat Z.of_nat BUF_SIZE] in *.

Lemma inv_emit fd e w : inv fd w -> inv fd (emit e w).
Proof. intros H. exact H. Qed.

Lemma inv_close fd w : inv fd w -> inv fd (close w).
Proof.
  unfold inv, close. destruct w as [[f b e p eo rd rp] l c em tk rds cl].
  wsimpl. intros (Hfd & He & Hp & Hpe & Heo & Hrd & Hnr & Hcl).
  destruct b as [b|]; wsimpl.
  - subst. repeat split; try lia; try congruence; tauto.
  - repeat split; try lia; try congruence; tauto.
Qed.

Lemma loop_ready_close_emit fd e w : loop_ready fd w -> inv fd (close (emit e w)).
Proof.
  unfold loop_ready, inv, close, emit.
  destruct w as [[f b eN p eo rd rp] l c em tk rds cl].
  wsimpl. intros (Hfd & Hp & Hpe & He & Hrd & Heo & Hb & Hrds & Hcl).
  destruct b as [b|]; [|congruence]. wsimpl. subst.
  repeat split; try lia; try congruence.
Qed.

Lemma inv_loop fd w : loop_ready fd w -> inv fd (loop w).
Proof.
  intros Hw. unfold loop.
  destruct (_find_eol (self w) =? _end (self w)) eqn:Heol.
  - destruct ((_pos (self w) =? 0) && (_end (self w) =? BUF_SIZE)) eqn:Hfull.
    + now apply loop_ready_close_emit.
    + unfold _refill.
      pose proof (compact_from_index (Z.to_nat (_end (self w) - _pos (self w)))
                    (buffer_bytes (self w)) 0 (_pos (self w))) as Hi.
      destruct (compact_from _ _ _ _) as [buf i]. cbn [snd] in Hi. subst i.
      unfold loop_ready in Hw. unfold inv, fs_read.
      destruct w as [[f b eN p eo rd rp] l c em tk rds cl].
      wsimpl. destruct Hw as (Hfd & Hp & Hpe & He & Hrd & Heo & Hb & Hrds & Hcl).
      destruct b as [b|]; [|congruence]. wsimpl. subst.
      apply andb_false_iff in Hfull.
      assert (eN - p < BUF_SIZE) by (destruct Hfull as [H|H]; apply Z.eqb_neq in H; lia).
      repeat split; try lia; try congruence.
  - apply Z.eqb_neq in Heol.
    unfold loop_ready in Hw.
    assert (Hr : _pos (self w) <= _find_eol (self w) <= _end (self w))
      by (apply _find_eol_range; tauto).
    revert Heol Hr. generalize (_find_eol (self w)) as eol. intros eol Heol Hr.
    unfold _emit_line, inv, nextTick.
    destruct w as [[f b eN p eo rd rp] l c em tk rds cl].
    wsimpl. destruct Hw as (Hfd & Hp & Hpe & He & Hrd & Heo & Hb & Hrds & Hcl).
    subst. wsimpl.
    destruct b as [b|]; [|congruence].
    repeat split; try lia; try congruence.
Qed.

Lemma inv_next fd w : inv fd w -> inv fd (next w).
Proof.
  intros Hw. unfold next.
  destruct (_reading (self w)) eqn:Hrd.
  { apply inv_close. now apply inv_emit. }
  destruct (_eof (self w)) eqn:Heo.
  { apply inv_close. now apply inv_emit. }
  destruct (_buffer (self w)) as [b|] eqn:Hb.
  2:{ now apply inv_emit. }
  apply inv_loop. unfold inv in Hw. unfold loop_ready.
  destruct w as [[f b' eN p eo rd rp] l c em tk rds cl].
  wsimpl. destruct Hw as (Hfd & He & Hp & Hpe & Heof & _ & Hnr & Hcl).
  subst. specialize (Heof eq_refl).
  assert (rds = []) by (apply Hnr; congruence).
  repeat split; try lia; try congruence.
Qed.

Lemma inv_run_tick fd w : inv fd w -> inv fd (run_tick w).
Proof.
  intros Hw. unfold run_tick.
  destruct (nextTicks w) as [|t rest]; [assumption|].
  destruct t; exact Hw.
Qed.

Lemma inv_fs_read_complete fd w rq rest res :
  inv fd w -> fs_reads w = rq :: rest -> read_fits rq res = true ->
  inv fd (fs_read_complete res w).
Proof.
  intros Hw Hrds Hfit. unfold fs_read_complete. rewrite Hrds.
  destruct (_reading (self w)) eqn:Hrd.
  - (* the read is the one the reader waits for *)
    unfold inv in Hw.
    destruct w as [[f b eN p eo rd rp] l c em tk rds cl].
    wsimpl. destruct Hw as (Hfd & He & Hp & Hpe & Heof & Hlive & _ & Hcl).
    subst rd rds. destruct (Hlive eq_refl) as (Hb & Heo & Hp0 & HeN & Hq).
    injection Hq as -> ->. subst.
    destruct b as [b|]; [|congruence].
    destruct res as [code | data].
    + apply loop_ready_close_emit. unfold loop_ready. wsimpl.
      repeat split; try lia; congruence.
    + cbn [read_fits rq_length] in Hfit. apply Z.leb_le in Hfit. pose proof (len_nonneg data) as Hd.
      unfold refill_callback. wsimpl.
      destruct (len data =? 0) eqn:Hz.
      * unfold _emit_line. wsimpl.
        destruct (0 =? eN) eqn:He0.
        -- apply Z.eqb_eq in He0. unfold inv, close, emit. wsimpl.
           repeat split; try lia; congruence.
        -- apply Z.eqb_neq in He0. unfold inv, nextTick. wsimpl.
           repeat split; try lia; congruence.
      * apply inv_loop. unfold loop_ready. wsimpl.
        repeat split; try lia; congruence.
  - (* a read the reader has given up *)
    unfold inv in Hw.
    destruct w as [[f b eN p eo rd rp] l c em tk rds cl].
    wsimpl. destruct Hw as (Hfd & He & Hp & Hpe & Heof & Hlive & Hidle & Hcl).
    subst rd rds.
    destruct b as [b|]; [specialize (Hidle eq_refl); discriminate Hidle; congruence|].
    destruct res as [code | data].
    + unfold refill_callback, close, emit, inv. wsimpl.
      repeat split; try lia; try congruence; tauto.
    + unfold refill_callback, inv. wsimpl.
      repeat split; try lia; try congruence; tauto.
Qed.

Lemma inv_step fd w w' : inv fd w -> step w w' -> inv fd w'.
Proof.
  intros Hw Hs. destruct Hs.
  - now apply inv_next.
  - now apply inv_close.
  - exact Hw.
  - now apply inv_run_tick.
  - eapply inv_fs_read_complete; eassumption.
Qed.

Lemma inv_reachable fd mem c w : reachable fd mem c w -> inv fd w.
Proof.
  induction 1 as [|w w' _ IH Hs].
  - unfold inv. wsimpl. repeat split; try (unfold BUF_SIZE; lia); congruence.
  - eapply inv_step; eassumption.
Qed.

(** *** [close] *)

Lemma close_close w : close (close w) = close w.
Proof.
  unfold close. destruct w as [[f b eN p eo rd rp] l c em tk rds cl].
  destruct b as [b|]; reflexivity.
Qed.

(** C9. [close()] is idempotent: a second call on a closed reader has no
    effect, the state after two calls is the state after one, and the
    file handle has been released exactly once. *)
Theorem close_idempotent fd mem c w :
  reachable fd mem c w ->
  close (close w) = close w /\ fs_closes (close (close w)) = [fd].
Proof.
  intros Hw. split; [apply close_close|].
  rewrite close_close.
  pose proof (inv_close fd w (inv_reachable _ _ _ _ Hw)) as Hi.
  unfold inv in Hi. destruct Hi as (_ & _ & _ & _ & _ & _ & _ & Hcl).
  rewrite Hcl. unfold close.
  destruct (_buffer (self w)) eqn:E; wsimpl; [reflexivity|].
  rewrite E. reflexivity.
Qed.

(** *** The reentrancy guard *)

Lemma shut_step w w' : shut w -> step w w' -> shut w'.
Proof.
  unfold shut. intros (Hb & He & Hr) Hs.
  destruct Hs as [w | w | w | w Hq | w rq rest res Hq Ht Hfit].
  - unfold next. rewrite Hr, He, Hb. auto.
  - unfold close. rewrite Hb. auto.
  - auto.
  - unfold run_tick. destruct (nextTicks w) as [|[e|] q]; auto.
  - unfold fs_read_complete. rewrite Hq.
    destruct res as [code|data]; unfold refill_callback; wsimpl.
    + unfold close. wsimpl. rewrite Hb. auto.
    + rewrite Hr. wsimpl. rewrite Hb. auto.
Qed.

Lemma shut_steps w w' : shut w -> rtc step w w' -> shut w'.
Proof. intros Hw Hs. induction Hs; eauto using shut_step. Qed.

Lemma shut_next w :
  shut w -> next w = emit (LineEvent (Some FileIsClosed) false []) w.
Proof. unfold shut, next. intros (-> & -> & ->). reflexivity. Qed.

(** In a reachable state the guard [_reading] is up exactly when the
    reader is open and a read is in flight. *)
Lemma reading_iff_fetching fd mem c w :
  reachable fd mem c w ->
  (_reading (self w) = true <-> _buffer (self w) <> None /\ fs_reads w <> []).
Proof.
  intros Hw.
  pose proof (inv_reachable _ _ _ _ Hw) as Hi. unfold inv in Hi.
  destruct Hi as (_ & _ & _ & _ & _ & Hlive & Hidle & _).
  split.
  - intros Hrd. destruct (Hlive Hrd) as (Hb & _ & _ & _ & ->).
    split; [assumption | discriminate].
  - intros (Hb & Hq). destruct (_reading (self w)); [reflexivity|].
    exfalso. apply Hq. now apply Hidle.
Qed.

Lemma reachable_steps fd mem c w w' :
  reachable fd mem c w -> rtc step w w' -> reachable fd mem c w'.
Proof.
  intros Hw Hs. induction Hs as [|w0 w1 w2 Hstep _ IH]; [assumption|].
  apply IH. eapply reach_step; eassumption.
Qed.

(** C7. Calling [next()] on an open reader while a fetch is outstanding
    emits the error [read operation already in course], to the listener
    if one is registered, and closes the reader: the buffer is dropped,
    the guard released, the descriptor given to [fs.close], once, and the
    tick that removes the listeners queued; no read is started and no
    line is queued.  Whatever happens afterwards, every later [next()]
    emits the error [file is closed], to the listener if one is
    registered, and does nothing else: it queues no line, starts no
    read, closes nothing and leaves the reader as it was, closed. *)
Theorem next_while_reading fd mem c w :
  reachable fd mem c w -> _buffer (self w) <> None -> fs_reads w <> [] ->
  (emitted (next w) = emitted w ++ [LineEvent (Some AlreadyInCourse) false []] /\
   consumer (next w)
     = (if listening w
        then listener (LineEvent (Some AlreadyInCourse) false []) (consumer w)
        else consumer w) /\
   listening (next w) = listening w /\
   self (next w) = set_reading false (set_buffer None (self w)) /\
   _buffer (self (next w)) = None /\
   nextTicks (next w) = nextTicks w ++ [TickRemoveAllListeners] /\
   fs_reads (next w) = fs_reads w /\
   fs_closes w = [] /\ fs_closes (next w) = [fd]) /\
  forall w', rtc step (next w) w' ->
    emitted (next w') = emitted w' ++ [LineEvent (Some FileIsClosed) false []] /\
    consumer (next w')
      = (if listening w'
         then listener (LineEvent (Some FileIsClosed) false []) (consumer w')
         else consumer w') /\
    listening (next w') = listening w' /\
    self (next w') = self w' /\
    _buffer (self w') = None /\
    nextTicks (next w') = nextTicks w' /\
    fs_reads (next w') = fs_reads w' /\
    fs_closes (next w') = fs_closes w' /\ fs_closes w' = [fd].
Proof.
  intros Hw Hopen Hfetch.
  assert (Hrd : _reading (self w) = true)
    by (apply (reading_iff_fetching _ _ _ _ Hw); auto).
  pose proof (inv_reachable _ _ _ _ Hw) as Hi. unfold inv in Hi.
  destruct Hi as (Hfd & _ & _ & _ & _ & _ & _ & Hcl).
  assert (Hnext : next w
                  = close (emit (LineEvent (Some AlreadyInCourse) false []) w)).
  { unfold next. rewrite Hrd. reflexivity. }
  assert (Hshut : shut (next w)).
  { unfold shut, next. rewrite Hrd. unfold close. wsimpl.
    destruct (_buffer (self w)) eqn:Hb; [|congruence].
    pose proof (inv_reachable _ _ _ _ Hw) as Hi. unfold inv in Hi.
    destruct Hi as (_ & _ & _ & _ & _ & Hlive & _).
    destruct (Hlive Hrd) as (_ & Heo & _). wsimpl. auto. }
  split.
  - rewrite Hnext. unfold close.
    destruct w as [[f b eN p eo rd rp] l c0 em tk rds cl].
    cbn [self _buffer _fd fs_closes] in *.
    destruct b as [b|]; [|congruence]. subst f cl.
    cbn. repeat split; reflexivity.
  - intros w' Hs.
    pose proof (shut_steps _ _ Hshut Hs) as Hw'.
    assert (Hr' : reachable fd mem c w').
    { eapply reachable_steps; [|exact Hs]. eapply reach_step; [exact Hw | apply step_next]. }
    pose proof (inv_reachable _ _ _ _ Hr') as Hi'. unfold inv in Hi'.
    destruct Hi' as (_ & _ & _ & _ & _ & _ & _ & Hcl').
    destruct Hw' as (Hb' & He' & Hrd').
    rewrite Hb' in Hcl'.
    rewrite (shut_next w' (conj Hb' (conj He' Hrd'))).
    cbn [emit emitted consumer listening self nextTicks fs_reads fs_closes].
    repeat split; assumption || reflexivity.
Qed.

(** *** Reads that complete after the reader gave up *)

(** C6, as the code has it. When a read completes that the reader no
    longer waits for (its guard [_reading] is down), bytes or the end of
    file are dropped: nothing is emitted and nothing changes but the read
    leaving the queue.  An error is still passed to [emit], and nothing
    else changes; it reaches the listener only if one is registered (the
    tick queued by [close()] has removed those registered before). *)
Theorem stale_read_dropped fd mem c w rq rest res :
  reachable fd mem c w -> _reading (self w) = false ->
  fs_reads w = rq :: rest ->
  match res with
  | ReadDone data => fs_read_complete res w = with_fs_reads rest w
  | ReadFailed code =>
      fs_read_complete res w =
        emit (LineEvent (Some (FsError code)) false []) (with_fs_reads rest w) /\
      (listening w = false -> consumer (fs_read_complete res w) = consumer w)
  end.
Proof.
  intros Hw Hrd Hq.
  pose proof (inv_reachable _ _ _ _ Hw) as Hi. unfold inv in Hi.
  destruct Hi as (_ & _ & _ & _ & _ & _ & Hidle & _).
  assert (Hb : _buffer (self w) = None).
  { destruct (_buffer (self w)) eqn:E; [|reflexivity].
    rewrite Hidle in Hq; [discriminate | assumption | congruence]. }
  unfold fs_read_complete. rewrite Hq.
  destruct res as [code|data]; unfold refill_callback; wsimpl.
  - unfold close. wsimpl. rewrite Hb. split; [reflexivity|].
    intros Hl. unfold emit. wsimpl. rewrite Hl. reflexivity.
  - rewrite Hrd.
    destruct w as [[f b eN p eo rd rp] l c0 em tk rds cl]. wsimpl.
    subst. reflexivity.
Qed.

(** *** The window indices *)

(** C5, as the code has it. In every state of a reader both indices lie
    between [0] and [BUF_SIZE], and [_pos <= _end] unless the end of the
    file has been seen and the last, unterminated line emitted: then
    [_pos = _end + 1]. *)
Theorem window_indices fd mem c w :
  reachable fd mem c w ->
  0 <= _pos (self w) <= BUF_SIZE /\
  0 <= _end (self w) <= BUF_SIZE /\
  (_pos (self w) <= _end (self w) \/
   _eof (self w) = true /\ _pos (self w) = _end (self w) + 1).
Proof.
  intros Hw.
  pose proof (inv_reachable _ _ _ _ Hw) as Hi. unfold inv in Hi.
  destruct Hi as (_ & He & Hp & Hpe & Heo & _).
  repeat split; try lia.
  destruct (_eof (self w)); [|left; auto].
  destruct (Z.le_gt_cases (_pos (self w)) (_end (self w))); [left; lia|right].
  split; [reflexivity | lia].
Qed.

(** ** The reader: the bytes of the buffer *)

(** The buffer is read as [pre ++ win ++ post]: [pre] the bytes already
    delivered, [win] the window [_pos .. _end), [post] the free space. *)

Lemma byte_at_middle (pre post : list Z) (x : Z) :
  byte_at (pre ++ x :: post) (len pre) = Some x.
Proof.
  unfold byte_at. pose proof (len_nonneg pre).
  destruct (Z.ltb_spec (len pre) 0); [lia|].
  rewrite to_nat_len. now apply list_lookup_middle.
Qed.

Lemma byte_store_middle (pre post : list Z) (g x : Z) :
  byte_store (pre ++ g :: post) (len pre) x = pre ++ x :: post.
Proof.
  unfold byte_store. pose proof (len_nonneg pre).
  destruct (Z.ltb_spec (len pre) 0); [lia|].
  rewrite to_nat_len.
  replace (length pre) with (length pre + 0)%nat by lia.
  rewrite insert_app_r. reflexivity.
Qed.

Lemma len_snoc {A} (l : list A) (x : A) : len (l ++ [x]) = len l + 1.
Proof. rewrite len_app. unfold len. simpl. lia. Qed.

Lemma find_eol_from_absent (win : list Z) :
  forall pre post, LF ∉ win ->
    find_eol_from (length win) (pre ++ win ++ post) (len pre) = len pre + len win.
Proof.
  induction win as [|x win IH]; intros pre post Hwin.
  - cbn [length find_eol_from]. change (len (@nil Z)) with 0. lia.
  - apply not_elem_of_cons in Hwin as [Hx Hwin].
    cbn [find_eol_from length]. change ((x :: win) ++ post) with (x :: win ++ post).
    rewrite byte_at_middle.
    destruct (Z.eqb_spec x 10) as [->|_]; [now contradict Hx|].
    replace (pre ++ x :: win ++ post) with ((pre ++ [x]) ++ win ++ post)
      by now rewrite <- app_assoc.
    rewrite <- len_snoc with (x := x). rewrite IH by assumption.
    rewrite len_snoc, len_cons. lia.
Qed.

Lemma find_eol_from_first (a : list Z) :
  forall pre b post, LF ∉ a ->
    find_eol_from (length (a ++ LF :: b)) (pre ++ (a ++ LF :: b) ++ post) (len pre)
    = len pre + len a.
Proof.
  induction a as [|x a IH]; intros pre b post Ha.
  - cbn [app length find_eol_from].
    rewrite byte_at_middle. unfold LF. rewrite Z.eqb_refl.
    change (len (@nil Z)) with 0. lia.
  - apply not_elem_of_cons in Ha as [Hx Ha].
    cbn [app length find_eol_from].
    rewrite byte_at_middle.
    destruct (Z.eqb_spec x 10) as [->|_]; [now contradict Hx|].
    replace (pre ++ x :: (a ++ LF :: b) ++ post)
      with ((pre ++ [x]) ++ (a ++ LF :: b) ++ post)
      by now rewrite <- app_assoc.
    rewrite <- len_snoc with (x := x). rewrite IH by assumption.
    rewrite len_snoc, len_cons. lia.
Qed.

Lemma byte_range_window (pre win post : list Z) :
  byte_range (pre ++ win ++ post) (len pre) (len pre + len win) = win.
Proof.
  unfold byte_range. rewrite !len_app.
  pose proof (len_nonneg pre). pose proof (len_nonneg win). pose proof (len_nonneg post).
  rewrite Z.max_r, Z.min_l by lia.
  replace (len pre + len win - len pre) with (len win) by lia.
  rewrite !to_nat_len, drop_app_length, take_app_length. reflexivity.
Qed.

Lemma byte_range_empty (buf : list Z) (s e : Z) :
  0 <= s -> e <= s -> byte_range buf s e = [].
Proof.
  intros Hs He. unfold byte_range.
  replace (Z.to_nat (Z.min e (len buf) - Z.max 0 s)) with 0%nat by lia.
  apply take_0.
Qed.

(** The loop of [_refill] moves the window to the front of the buffer
    and keeps the length of the buffer. *)
Lemma compact_from_window (win : list Z) :
  forall done gap post,
    exists post',
      compact_from (length win) (done ++ gap ++ win ++ post)
                   (len done) (len (done ++ gap))
      = (done ++ win ++ post', len done + len win) /\
      length post' = (length gap + length post)%nat.
Proof.
  induction win as [|x win IH]; intros done gap post.
  - exists (gap ++ post). cbn [length compact_from app].
    split; [|apply length_app].
    f_equal. change (len (@nil Z)) with 0. lia.
  - cbn [length compact_from].
    replace (done ++ gap ++ (x :: win) ++ post)
      with ((done ++ gap) ++ x :: win ++ post)
      by now rewrite <- app_assoc.
    rewrite byte_at_middle. cbn [default from_option id].
    destruct gap as [|g gap].
    + rewrite app_nil_r. rewrite byte_store_middle.
      destruct (IH (done ++ [x]) [] post) as (post' & Heq & Hlen).
      exists post'. split; [|exact Hlen].
      rewrite app_nil_r in Heq. rewrite len_snoc in Heq.
      cbn [app] in Heq. rewrite <- !app_assoc in Heq. cbn [app] in Heq.
      rewrite Heq. f_equal. rewrite len_cons. lia.
    + rewrite <- app_assoc. cbn [app]. rewrite byte_store_middle.
      destruct (IH (done ++ [x]) (gap ++ [x]) post) as (post' & Heq & Hlen).
      exists post'. split.
      * replace (len (done ++ g :: gap) + 1) with (len ((done ++ [x]) ++ gap ++ [x]))
          by (rewrite !len_app, !len_cons; unfold len; simpl; lia).
        replace (done ++ x :: gap ++ x :: win ++ post)
          with ((done ++ [x]) ++ (gap ++ [x]) ++ win ++ post)
          by (rewrite <- !app_assoc; reflexivity).
        rewrite <- len_snoc with (x := x). rewrite Heq.
        rewrite <- !app_assoc. cbn [app]. f_equal.
        rewrite len_snoc, len_cons. lia.
      * rewrite Hlen, length_app. simpl. lia.
Qed.

Lemma byte_blit_free (win post data : list Z) :
  (length data <= length post)%nat ->
  byte_blit (win ++ post) (len win) data = win ++ data ++ drop (length data) post.
Proof.
  intros Hfit. unfold byte_blit.
  rewrite to_nat_len, take_app_length.
  rewrite drop_app_ge by lia.
  replace (length win + length data - length win)%nat with (length data) by lia.
  apply take_ge. rewrite !length_app, length_drop. lia.
Qed.

(** ** The reader: one run of [loop], case by case *)

Ltac wproj :=
  cbv beta iota zeta delta
      [emit nextTick fs_read fs_close with_self with_listening
       with_nextTicks with_fs_reads set_buffer set_end set_pos set_eof
       set_reading set_readPointer reader_at buffer_bytes
       self listening consumer emitted nextTicks fs_reads fs_closes
       _fd _buffer _end _pos _eof _reading _readPointer
       default from_option id option_map rq_offset rq_length rq_position] in *.

Lemma strip_cr_snoc (a : list Z) (x : Z) :
  strip_cr (a ++ [x]) = if x =? CR then a else a ++ [x].
Proof.
  induction a as [|y a IH]; [reflexivity|].
  change ((y :: a) ++ [x]) with (y :: (a ++ [x])).
  cbn [strip_cr]. rewrite IH.
  destruct (a ++ [x]) as [|z r] eqn:E.
  { destruct a; discriminate E. }
  destruct (x =? CR); [congruence|]. reflexivity.
Qed.

(** The range that [_emit_line] decodes is the line without the carriage
    return that may end it. *)
Lemma emit_line_bytes (pre a rest : list Z) :
  byte_range (pre ++ a ++ rest) (len pre)
    (if negb (len pre + len a =? 0) &&
        match byte_at (pre ++ a ++ rest) (len pre + len a - 1) with
        | Some b => b =? 13
        | None => false
        end
     then len pre + len a - 1 else len pre + len a)
  = strip_cr a.
Proof.
  pose proof (len_nonneg pre) as Hpre.
  destruct a as [|y a0] using rev_ind.
  - change (len (@nil Z)) with 0. cbn [strip_cr].
    destruct (_ && _); apply byte_range_empty; lia.
  - clear IHa0. rename a0 into a.
    rewrite strip_cr_snoc, len_snoc. pose proof (len_nonneg a) as Ha.
    replace (len pre + (len a + 1) - 1) with (len (pre ++ a))
      by (rewrite len_app; lia).
    replace (pre ++ (a ++ [y]) ++ rest) with ((pre ++ a) ++ y :: rest)
      by (rewrite <- !app_assoc; reflexivity).
    rewrite byte_at_middle.
    destruct (Z.eqb_spec (len pre + (len a + 1)) 0); [lia|].
    cbn [negb andb]. change 13 with CR.
    destruct (y =? CR).
    + rewrite len_app.
      replace ((pre ++ a) ++ y :: rest) with (pre ++ a ++ y :: rest)
        by (rewrite <- !app_assoc; reflexivity).
      apply byte_range_window.
    + replace ((pre ++ a) ++ y :: rest) with (pre ++ (a ++ [y]) ++ rest)
        by (rewrite <- !app_assoc; reflexivity).
      replace (len pre + (len a + 1)) with (len pre + len (a ++ [y]))
        by (rewrite len_snoc; lia).
      apply byte_range_window.
Qed.

Lemma _find_eol_absent fd pre win post rp eo rd :
  LF ∉ win ->
  _find_eol (reader_at fd pre win post rp eo rd) = len pre + len win.
Proof.
  intros Hwin. unfold _find_eol. wproj.
  replace (len pre + len win - len pre) with (len win) by lia.
  rewrite to_nat_len. now apply find_eol_from_absent.
Qed.

Lemma _find_eol_first fd pre a b post rp eo rd :
  LF ∉ a ->
  _find_eol (reader_at fd pre (a ++ LF :: b) post rp eo rd) = len pre + len a.
Proof.
  intros Ha. unfold _find_eol. wproj.
  replace (len pre + len (a ++ LF :: b) - len pre) with (len (a ++ LF :: b)) by lia.
  rewrite to_nat_len. now apply find_eol_from_first.
Qed.

(** A line feed is in the window: the line before it is queued for
    delivery and the window starts after the line feed. *)
Lemma loop_found fd pre a b post rp l c em q cl :
  LF ∉ a ->
  loop (World (reader_at fd pre (a ++ LF :: b) post rp false true) l c em q [] cl)
  = World (reader_at fd (pre ++ a ++ [LF]) b post rp false false) l c em
          (q ++ [TickEmit (line_event_of (strip_cr a))]) [] cl.
Proof.
  intros Ha. unfold loop. cbn [self].
  rewrite _find_eol_first by assumption.
  pose proof (len_nonneg pre). pose proof (len_nonneg a). pose proof (len_nonneg b).
  assert (Hlen : len (a ++ LF :: b) = len a + 1 + len b)
    by (rewrite len_app, len_cons; lia).
  cbn [reader_at _end]. rewrite Hlen.
  destruct (Z.eqb_spec (len pre + len a) (len pre + (len a + 1 + len b))); [lia|].
  unfold _emit_line. wproj. cbn [andb].
  replace (pre ++ (a ++ LF :: b) ++ post) with (pre ++ a ++ (LF :: b ++ post))
    by (rewrite <- !app_assoc; reflexivity).
  rewrite emit_line_bytes. unfold line_event_of. wproj. rewrite ?Hlen.
  replace ((pre ++ a ++ [LF]) ++ b ++ post) with (pre ++ a ++ LF :: b ++ post)
    by (rewrite <- !app_assoc; reflexivity).
  replace (len (pre ++ a ++ [LF])) with (len pre + len a + 1)
    by (rewrite len_app, len_snoc; lia).
  f_equal. f_equal; lia.
Qed.

(** No line feed in a window that fills the buffer: the error. *)
Lemma loop_full fd win rp l c em q cl :
  LF ∉ win -> len win = BUF_SIZE ->
  loop (World (reader_at fd [] win [] rp false true) l c em q [] cl)
  = close (emit too_large_event
             (World (reader_at fd [] win [] rp false true) l c em q [] cl)).
Proof.
  intros Hwin Hlen. unfold loop. cbn [self].
  rewrite _find_eol_absent by assumption.
  cbn [reader_at _end _pos]. change (len (@nil Z)) with 0.
  rewrite Z.eqb_refl. rewrite Hlen. cbn [Z.add].
  rewrite !Z.eqb_refl. reflexivity.
Qed.

(** No line feed in the window, and room left: the window moves to the
    front of the buffer and a read is asked for the room behind it. *)
Lemma loop_refill fd pre win post rp l c em q cl :
  LF ∉ win -> len (pre ++ win ++ post) = BUF_SIZE -> len win < BUF_SIZE ->
  exists post',
    len (win ++ post') = BUF_SIZE /\
    loop (World (reader_at fd pre win post rp false true) l c em q [] cl)
    = World (reader_at fd [] win post' rp false true) l c em q
            [ReadRequest (len win) (BUF_SIZE - len win) rp] cl.
Proof.
  intros Hwin Hbuf Hroom. unfold loop. cbn [self].
  rewrite _find_eol_absent by assumption.
  cbn [reader_at _end _pos]. rewrite Z.eqb_refl.
  pose proof (len_nonneg pre). pose proof (len_nonneg win). pose proof (len_nonneg post).
  rewrite !len_app in Hbuf.
  replace ((len pre =? 0) && (len pre + len win =? BUF_SIZE)) with false.
  2:{ symmetry. apply andb_false_iff.
      destruct (Z.eqb_spec (len pre) 0); [right|left; reflexivity].
      apply Z.eqb_neq. lia. }
  destruct (compact_from_window win [] pre post) as (post' & Heq & Hlen).
  exists post'. split.
  { rewrite len_app. unfold len in *. lia. }
  unfold _refill. wproj.
  replace (len pre + len win - len pre) with (len win) by lia.
  rewrite to_nat_len.
  change (len (@nil Z)) with 0 in Heq. cbn [app] in Heq. rewrite Heq.
  wproj. cbn [app]. change (len (@nil Z)) with 0.
  rewrite !Z.add_0_l. reflexivity.
Qed.

(** The read brings bytes: they extend the window and [loop] runs again. *)
Lemma read_data fd win post rp l c em q rds cl data len_rq pos_rq :
  data <> [] -> (length data <= length post)%nat ->
  fs_read_complete (ReadDone data)
    (World (reader_at fd [] win post rp false true) l c em q
           (ReadRequest (len win) len_rq pos_rq :: rds) cl)
  = loop (World (reader_at fd [] (win ++ data) (drop (length data) post)
                           (rp + len data) false true) l c em q rds cl).
Proof.
  intros Hdata Hfit. unfold fs_read_complete. wproj. cbn [app].
  rewrite byte_blit_free by assumption.
  unfold refill_callback. wproj.
  destruct (Z.eqb_spec (len data) 0) as [Hz|_].
  { destruct data; [congruence | rewrite len_cons in Hz].
    pose proof (len_nonneg data). lia. }
  f_equal. change (len (@nil Z)) with 0. rewrite len_app, <- app_assoc.
  rewrite !Z.add_0_l. reflexivity.
Qed.

(** The read brings nothing and the window is empty: the end of file is
    emitted and the reader closes itself. *)
Lemma read_eof_empty fd post rp l c em q rds cl len_rq pos_rq :
  fs_read_complete (ReadDone [])
    (World (reader_at fd [] [] post rp false true) l c em q
           (ReadRequest 0 len_rq pos_rq :: rds) cl)
  = close (emit eof_event
             (World (reader_at fd [] [] post rp true false) l c em q rds cl)).
Proof.
  unfold fs_read_complete. wproj. cbn [app].
  pose proof (byte_blit_free [] post [] ltac:(simpl; lia)) as Hblit.
  cbn [app length drop] in Hblit. change (len (@nil Z)) with 0 in Hblit.
  rewrite Hblit.
  unfold refill_callback. wproj. change (len (@nil Z)) with 0.
  cbn [Z.eqb Z.add]. unfold _emit_line. wproj. cbn [Z.eqb andb].
  unfold close. wproj. reflexivity.
Qed.

(** The read brings nothing and the window holds bytes: they are queued
    as the last line, without the carriage return that may end them, and
    [_pos] passes [_end]. *)
Lemma read_eof_last fd win post rp l c em q rds cl len_rq pos_rq :
  win <> [] ->
  fs_read_complete (ReadDone [])
    (World (reader_at fd [] win post rp false true) l c em q
           (ReadRequest (len win) len_rq pos_rq :: rds) cl)
  = World (Reader fd (Some (win ++ post)) (len win) (len win + 1) true false rp)
          l c em (q ++ [TickEmit (line_event_of (strip_cr win))]) rds cl.
Proof.
  intros Hwin. unfold fs_read_complete. wproj. cbn [app].
  rewrite byte_blit_free by (simpl; lia). cbn [app length]. rewrite drop_0.
  unfold refill_callback. wproj. change (len (@nil Z)) with 0.
  cbn [Z.eqb]. unfold _emit_line. wproj.
  assert (Hpos : 0 < len win).
  { destruct win; [congruence|]. rewrite len_cons. pose proof (len_nonneg win). lia. }
  destruct (Z.eqb_spec 0 (0 + len win)); [lia|]. cbn [andb].
  pose proof (emit_line_bytes [] win post) as Hbytes.
  change (len (@nil Z)) with 0 in Hbytes. cbn [app] in Hbytes.
  rewrite Hbytes. unfold line_event_of.
  rewrite !Z.add_0_l. reflexivity.
Qed.

(** ** The reader: one pull on a file *)

Lemma settle_idle fuel file short w :
  fs_reads w = [] -> settle fuel file short w = w.
Proof. intros H. destruct fuel; simpl; rewrite H; reflexivity. Qed.

Lemma first_occurrence_unique (c : Z) (a a' x x' : list Z) :
  c ∉ a -> c ∉ a' -> a ++ c :: x = a' ++ c :: x' -> a = a' /\ x = x'.
Proof.
  revert a'. induction a as [|y a IH]; intros a' Ha Ha' Heq.
  - destruct a' as [|y' a']; simpl in Heq.
    + injection Heq as ->. auto.
    + injection Heq as <- _. exfalso. apply Ha'. left.
  - apply not_elem_of_cons in Ha as [Hy Ha].
    destruct a' as [|y' a']; simpl in Heq.
    + injection Heq as -> _. congruence.
    + injection Heq as -> Heq.
      apply not_elem_of_cons in Ha' as [_ Ha'].
      destruct (IH a' Ha Ha' Heq) as [-> ->]. auto.
Qed.

(** A stretch without [c] at the head of a list ends before the first
    [c] of the list. *)
Lemma absent_prefix_short (c : Z) (win x l rest : list Z) :
  c ∉ win -> win ++ x = l ++ c :: rest -> len win <= len l.
Proof.
  revert l. induction win as [|y win IH]; intros l Hwin Heq.
  - change (len (@nil Z)) with 0. apply len_nonneg.
  - apply not_elem_of_cons in Hwin as [Hy Hwin].
    destruct l as [|z l]; simpl in Heq.
    + injection Heq as -> _. congruence.
    + injection Heq as _ Heq. rewrite !len_cons.
      specialize (IH l Hwin Heq). lia.
Qed.

Lemma take_whole_prefix (n : nat) (l data : list Z) :
  data = take n l -> l = data ++ drop (length data) l.
Proof.
  intros ->. rewrite length_take.
  destruct (Nat.le_gt_cases n (length l)).
  - rewrite Nat.min_l by assumption. symmetry. apply take_drop.
  - rewrite Nat.min_r by lia. rewrite take_ge, drop_ge by lia.
    now rewrite app_nil_r.
Qed.

Lemma len_zero_nil {A} (l : list A) : len l = 0 -> l = [].
Proof. destruct l; [reflexivity|]. rewrite len_cons. pose proof (len_nonneg l). lia. Qed.

Lemma elem_of_take_past (c : Z) (n : nat) (a x : list Z) :
  (length a < n)%nat -> c ∈ take n (a ++ c :: x).
Proof.
  intros Hn. rewrite take_app_ge by lia.
  apply elem_of_app. right.
  destruct (n - length a)%nat as [|m] eqn:E; [lia|]. left.
Qed.

Lemma outcome_found file fd pre a b post rp l c em cl :
  LF ∉ a -> len (pre ++ (a ++ LF :: b) ++ post) = BUF_SIZE -> 0 <= rp ->
  pull_outcome file ((a ++ LF :: b) ++ drop (Z.to_nat rp) file)
    (World (reader_at fd pre (a ++ LF :: b) post rp false true) l c em [] [] cl)
    (World (reader_at fd (pre ++ a ++ [LF]) b post rp false false) l c em
           ([] ++ [TickEmit (line_event_of (strip_cr a))]) [] cl).
Proof.
  intros Ha Hbuf Hrp. unfold pull_outcome.
  rewrite <- app_assoc. cbn [app].
  pose proof (len_nonneg pre). pose proof (len_nonneg a).
  pose proof (len_nonneg b). pose proof (len_nonneg post).
  assert (Hla : len a < BUF_SIZE).
  { rewrite !len_app, len_cons in Hbuf. lia. }
  split; [|split; [|split]].
  - intros l' rest Heq Hl' _.
    destruct (first_occurrence_unique LF a l' _ _ Ha Hl' Heq) as [<- <-].
    split; [|unfold same_outside; wproj; auto].
    exists fd, (pre ++ a ++ [LF]), b, post, rp. cbn [self fs_reads nextTicks].
    repeat split; auto.
    rewrite <- Hbuf. f_equal. rewrite <- !app_assoc. reflexivity.
  - intros Habs. exfalso. apply Habs. apply elem_of_app. right. left.
  - intros Heq. destruct a; discriminate Heq.
  - intros Habs. exfalso. apply Habs. apply elem_of_take_past.
    unfold len in Hla. lia.
Qed.

Lemma outcome_full file fd win rp l c em cl :
  LF ∉ win -> len win = BUF_SIZE ->
  pull_outcome file (win ++ drop (Z.to_nat rp) file)
    (World (reader_at fd [] win [] rp false true) l c em [] [] cl)
    (close (emit too_large_event
              (World (reader_at fd [] win [] rp false true) l c em [] [] cl))).
Proof.
  intros Hwin Hlen. unfold pull_outcome.
  split; [|split; [|split]].
  - intros l' rest Heq _ Hl'. exfalso.
    pose proof (absent_prefix_short LF win _ l' rest Hwin Heq). lia.
  - intros _ _ Hs. exfalso. rewrite len_app in Hs.
    pose proof (len_nonneg (drop (Z.to_nat rp) file)). lia.
  - intros Heq. exfalso. apply app_eq_nil in Heq as [-> _].
    discriminate Hlen.
  - intros _ _. unfold ended, close. wproj. cbn [app]. auto 10.
Qed.

(** An outcome mentions the state it starts from only through the
    reader's surroundings. *)
Lemma pull_outcome_outside file s w1 w2 w' :
  same_outside w1 w2 -> pull_outcome file s w1 w' -> pull_outcome file s w2 w'.
Proof.
  unfold pull_outcome, same_outside, ended.
  intros (Hl & Hc & He & Hcl & Hfd) (HA & HB & HC & HD).
  rewrite Hl, Hc, He, Hcl, Hfd.
  split; [|split; [|split]]; auto.
Qed.

(** [loop], run again by every read the file answers, ends in one of
    the four outcomes; [fuel] reads are enough when [fuel] exceeds the
    room left in the buffer. *)
Lemma settle_loop file short :
  forall fuel w s,
    in_file file true [] s w ->
    BUF_SIZE - (_end (self w) - _pos (self w)) < Z.of_nat fuel ->
    pull_outcome file s w (settle fuel file short (loop w)).
Proof.
  induction fuel as [|fuel IH]; intros w s Hin Hfuel;
    destruct Hin as (fd & pre & win & post & rp & Hself & Hbuf & Hrp & Hrds & Hq & Hs);
    destruct w as [r l c em q rds cl]; cbn [self fs_reads nextTicks] in *;
    subst r rds q s;
    pose proof (len_nonneg pre) as Hlpre; pose proof (len_nonneg win) as Hlwin;
    pose proof (len_nonneg post) as Hlpost;
    pose proof Hbuf as Hsum; rewrite !len_app in Hsum;
    cbn [reader_at _end _pos] in Hfuel.
  { exfalso. lia. }
  destruct (first_occurrence LF win) as [Habs | (a & b & -> & Ha)].
  2:{ rewrite loop_found by assumption.
      rewrite settle_idle by reflexivity.
      now apply outcome_found. }
  destruct (Z.eq_dec (len win) BUF_SIZE) as [Hfull | Hroom].
  { assert (pre = []) as -> by (apply len_zero_nil; lia).
    assert (post = []) as -> by (apply len_zero_nil; lia).
    rewrite loop_full by assumption.
    rewrite settle_idle by (unfold close; wproj; reflexivity).
    now apply outcome_full. }
  destruct (loop_refill fd pre win post rp l c em [] cl Habs Hbuf ltac:(lia))
    as (post' & Hbuf' & ->).
  cbn [settle fs_reads]. unfold drain. cbn [nextTicks length run_ticks].
  unfold file_read. cbn [rq_position rq_length].
  set (n := Z.to_nat (Z.min (Z.max 1 (short rp)) (BUF_SIZE - len win))).
  assert (Hn : (0 < n)%nat) by (unfold n; lia).
  assert (Hpost' : len post' = BUF_SIZE - len win) by (rewrite len_app in Hbuf'; lia).
  remember (take n (drop (Z.to_nat rp) file)) as data eqn:Hdata.
  pose proof (take_whole_prefix _ _ _ Hdata) as Hsplit.
  assert (Hfit : (length data <= length post')%nat).
  { rewrite Hdata, length_take. unfold n, len in *. lia. }
  destruct data as [|d data].
  - (* end of file *)
    assert (Hrest : drop (Z.to_nat rp) file = []).
    { destruct (drop (Z.to_nat rp) file); [reflexivity|].
      destruct n; [lia | discriminate Hdata]. }
    rewrite Hrest, app_nil_r.
    destruct win as [|x win].
    + rewrite read_eof_empty.
      rewrite settle_idle by (unfold close; wproj; reflexivity).
      unfold pull_outcome. split; [|split; [|split]].
      * intros l' rest Heq. destruct l'; discriminate Heq.
      * intros _ Hne. congruence.
      * intros _. unfold ended, close. wproj. cbn [app]. auto 10.
      * intros _ Hlen. exfalso. change (len (@nil Z)) with 0 in Hlen.
        unfold BUF_SIZE in Hlen. lia.
    + rewrite read_eof_last by discriminate.
      rewrite settle_idle by reflexivity.
      unfold pull_outcome. split; [|split; [|split]].
      * intros l' rest Heq Hl' _. exfalso. apply Habs. rewrite Heq.
        apply elem_of_app. right. left.
      * intros _ _ _. split.
        -- unfold last_line_queued. wproj. cbn [app]. repeat split; congruence.
        -- unfold same_outside. wproj. auto.
      * discriminate.
      * intros _ Hlen. exfalso. lia.
  - (* more bytes *)
    rewrite read_data by (assumption || discriminate).
    eapply pull_outcome_outside; [|apply IH].
    + unfold same_outside. wproj. auto.
    + exists fd, [], (win ++ d :: data), (drop (length (d :: data)) post'),
        (rp + len (d :: data)).
      cbn [self fs_reads nextTicks]. repeat split; auto.
      * cbn [app]. rewrite !len_app. unfold len at 3. rewrite length_drop.
        unfold len in *. lia.
      * pose proof (len_nonneg (d :: data)). lia.
      * rewrite <- app_assoc. f_equal.
        replace (Z.to_nat (rp + len (d :: data)))
          with (Z.to_nat rp + length (d :: data))%nat by (unfold len; lia).
        rewrite <- drop_drop. exact Hsplit.
    + cbn [self reader_at _end _pos]. change (len (@nil Z)) with 0.
      rewrite len_app, len_cons. pose proof (len_nonneg data). lia.
Qed.

Lemma drain_one w t :
  nextTicks w = [t] ->
  drain w =
    match t with
    | TickEmit e => emit e (with_nextTicks [] w)
    | TickRemoveAllListeners => with_listening false (with_nextTicks [] w)
    end.
Proof.
  intros Hq. unfold drain. rewrite Hq. cbn [length run_ticks].
  unfold run_tick. rewrite Hq. reflexivity.
Qed.

Lemma drain_ended e w w' :
  ended e w w' -> finished e w (drain w').
Proof.
  unfold ended, finished. intros (Hl & Hc & He & Hcl & Hb & Hr & Hrds & Hq).
  rewrite (drain_one _ _ Hq). wproj. auto 10.
Qed.

(** The state in which [next] starts [loop]. *)
Lemma in_file_reading file s w :
  in_file file false [] s w ->
  next w = loop (with_self (set_reading true) w) /\
  in_file file true [] s (with_self (set_reading true) w) /\
  same_outside w (with_self (set_reading true) w) /\
  BUF_SIZE - (_end (self w) - _pos (self w)) < Z.of_nat (Z.to_nat (BUF_SIZE + 1)).
Proof.
  intros (fd & pre & win & post & rp & Hself & Hbuf & Hrp & Hrds & Hq & Hs).
  destruct w as [r l c em q rds cl]. cbn [self fs_reads nextTicks] in *. subst.
  split; [reflexivity|]. split; [|split].
  - exists fd, pre, win, post, rp. wproj. auto 10.
  - unfold same_outside. wproj. auto.
  - wproj. pose proof (len_nonneg win). unfold BUF_SIZE. lia.
Qed.

(** One pull on a reader in the middle of a file. *)
Lemma pull_in_file file short w s :
  in_file file false [] s w ->
  (forall l rest, s = l ++ LF :: rest -> LF ∉ l -> len l < BUF_SIZE ->
     in_file file false [] rest (pull file short w) /\
     delivered (line_event_of (strip_cr l)) w (pull file short w)) /\
  (LF ∉ s -> s <> [] -> len s < BUF_SIZE ->
     at_eof (pull file short w) /\
     delivered (line_event_of (strip_cr s)) w (pull file short w)) /\
  (s = [] -> finished eof_event w (pull file short w)) /\
  (LF ∉ take (Z.to_nat BUF_SIZE) s -> BUF_SIZE <= len s ->
     finished too_large_event w (pull file short w)).
Proof.
  intros Hin.
  destruct (in_file_reading _ _ _ Hin) as (Hnext & Hrd & Hout & Hfuel).
  pose proof (settle_loop file short _ _ _ Hrd Hfuel) as Hsettle.
  apply (pull_outcome_outside _ _ _ w) in Hsettle.
  2:{ unfold same_outside in *. wproj. auto. }
  unfold pull. rewrite Hnext.
  set (w1 := settle _ file short _) in *. clearbody w1.
  destruct Hsettle as (HA & HB & HC & HD).
  split; [|split; [|split]].
  - intros l rest H1 H2 H3. destruct (HA l rest H1 H2 H3) as (Hin1 & Hsame).
    destruct Hin1 as (fd & pre & win & post & rp & Hself & Hbuf & Hrp & Hrds & Hq & Hs).
    rewrite (drain_one _ _ Hq).
    destruct Hsame as (Hl & Hc & He & Hcl & Hfd).
    split.
    + exists fd, pre, win, post, rp. wproj. auto 10.
    + unfold delivered. wproj. rewrite Hl, Hc, He, Hcl, Hfd. auto 10.
  - intros H1 H2 H3. destruct (HB H1 H2 H3) as (Hlast & Hsame).
    destruct Hlast as (Heo & Hr & Hb & Hrds & Hq).
    rewrite (drain_one _ _ Hq).
    destruct Hsame as (Hl & Hc & He & Hcl & Hfd).
    split.
    + unfold at_eof. wproj. auto.
    + unfold delivered. wproj. rewrite Hl, Hc, He, Hcl, Hfd. auto 10.
  - intros H1. apply drain_ended. auto.
  - intros H1 H2. apply drain_ended. auto.
Qed.

(** One pull on a reader that has delivered the last line. *)
Lemma pull_at_eof file short w :
  at_eof w -> fs_reads w = [] -> nextTicks w = [] ->
  finished eof_event w (pull file short w).
Proof.
  intros (Heo & Hr & Hb) Hrds Hq. unfold pull, next. rewrite Hr, Heo.
  assert (Hended : ended eof_event w (close (emit eof_event w))).
  { unfold ended, close.
    destruct w as [[f b eN p eo rd rp] l c em tk rds cl]. wproj.
    destruct b; [|congruence]. subst. wproj. auto 10. }
  rewrite settle_idle by apply Hended.
  now apply drain_ended.
Qed.

(** ** The reader: a whole file *)

Lemma cut_lines_first (s : list Z) :
  forall l ls tl, cut_lines s = (l :: ls, tl) ->
    exists rest, s = l ++ LF :: rest /\ (LF ∉ l) /\ cut_lines rest = (ls, tl).
Proof.
  induction s as [|b r IH]; intros l ls tl Hcut; [discriminate Hcut|].
  cbn [cut_lines] in Hcut.
  destruct (cut_lines r) as [ls' tl'] eqn:E.
  destruct (Z.eqb_spec b LF) as [->|Hb].
  - injection Hcut as <- <- <-. exists r.
    split; [reflexivity|]. split; [apply not_elem_of_nil | assumption].
  - destruct ls' as [|l0 ls'']; [discriminate Hcut|].
    injection Hcut as <- <- <-.
    destruct (IH l0 ls'' tl' eq_refl) as (rest & -> & Hl0 & Hrest).
    exists rest. split; [reflexivity|]. split; [|assumption].
    apply not_elem_of_cons. split; [congruence | assumption].
Qed.

Lemma cut_lines_none (s : list Z) :
  forall tl, cut_lines s = ([], tl) -> s = tl /\ LF ∉ tl.
Proof.
  induction s as [|b r IH]; intros tl Hcut.
  - injection Hcut as <-. split; [reflexivity | apply not_elem_of_nil].
  - cbn [cut_lines] in Hcut.
    destruct (cut_lines r) as [ls' tl'] eqn:E.
    destruct (Z.eqb_spec b LF) as [->|Hb]; [discriminate Hcut|].
    destruct ls' as [|l0 ls'']; [|discriminate Hcut].
    injection Hcut as <-.
    destruct (IH tl' eq_refl) as [-> Htl].
    split; [reflexivity|].
    apply not_elem_of_cons. split; [congruence | assumption].
Qed.

(** As many lines end in a line feed as the file has line feeds. *)
Lemma cut_lines_count (file : list Z) :
  length (fst (cut_lines file)) = count_occ Z.eq_dec file LF.
Proof.
  induction file as [|b r IH]; [reflexivity|].
  cbn [cut_lines count_occ].
  destruct (cut_lines r) as [ls tl]. cbn [fst] in IH.
  destruct (Z.eqb_spec b LF) as [->|Hb].
  - destruct (Z.eq_dec LF LF); [|congruence]. cbn [fst length]. now rewrite IH.
  - destruct (Z.eq_dec b LF); [congruence|].
    destruct ls; cbn [fst length] in *; exact IH.
Qed.

Lemma pulls_S n file short w :
  pulls (S n) file short w = pulls n file short (pull file short w).
Proof. reflexivity. Qed.

Lemma pulls_in_file file short :
  forall ls w s tl,
    in_file file false [] s w -> listening w = true ->
    cut_lines s = (ls, tl) ->
    Forall (fun l => len l < BUF_SIZE) ls -> len tl < BUF_SIZE ->
    let w' := pulls (length (events_of ls tl)) file short w in
    emitted w' = emitted w ++ events_of ls tl /\
    consumer w' = deliver_all (events_of ls tl) (consumer w) /\
    _buffer (self w') = None /\
    fs_closes w' = fs_closes w ++ [_fd (self w)].
Proof.
  induction ls as [|l ls IH]; intros w s tl Hin Hlisten Hcut Hls Htl.
  - destruct (cut_lines_none _ _ Hcut) as [-> Habs].
    destruct (pull_in_file file short _ _ Hin) as (_ & HB & HC & _).
    destruct tl as [|b tl].
    + destruct (HC eq_refl) as (Hl & Hc & He & Hcl & Hb & _).
      cbn. rewrite Hlisten in Hc. auto.
    + destruct (HB Habs ltac:(discriminate) Htl) as (Heof & Hdel).
      destruct Hdel as (Hl & Hc & He & Hcl & Hfd & Hrds & Hq).
      destruct (pull_at_eof file short _ Heof Hrds Hq)
        as (Hl2 & Hc2 & He2 & Hcl2 & Hb2 & _).
      unfold events_of. cbn [app map length pulls deliver_all fold_left].
      rewrite Hl, Hlisten in Hc2. rewrite Hlisten in Hc.
      rewrite He2, He, Hc2, Hc, Hcl2, Hcl, Hfd, <- app_assoc. auto.
  - destruct (cut_lines_first _ _ _ _ Hcut) as (rest & -> & Hl & Hrest).
    apply Forall_cons in Hls as [Hlen Hls].
    destruct (pull_in_file file short _ _ Hin) as (HA & _).
    destruct (HA l rest eq_refl Hl Hlen) as (Hin1 & Hdel).
    destruct Hdel as (Hl1 & Hc1 & He1 & Hcl1 & Hfd1 & _).
    rewrite Hlisten in Hl1, Hc1.
    specialize (IH _ _ _ Hin1 Hl1 Hrest Hls Htl).
    destruct IH as (He & Hc & Hb & Hcl).
    unfold events_of in *. cbn [app map length deliver_all fold_left] in *.
    rewrite pulls_S. rewrite He, Hc, Hcl, He1, Hc1, Hcl1, Hfd1, <- app_assoc.
    auto.
Qed.

(** A new reader is at the start of the file. *)
Lemma init_in_file fd mem c file :
  len mem = BUF_SIZE -> in_file file false [] file (on_line (init fd mem c)).
Proof.
  intros Hmem. exists fd, [], [], mem, 0.
  repeat split; try reflexivity; try assumption; try lia.
Qed.

Lemma file_events_cut file :
  file_events file = events_of (fst (cut_lines file)) (snd (cut_lines file)).
Proof.
  unfold file_events, file_lines, events_of.
  destruct (cut_lines file) as [ls tl]. reflexivity.
Qed.

(** C1, as the code has it. Take a file each of whose lines, the line
    feed apart and a carriage return before it counted, is shorter than
    [BUF_SIZE], as is the chunk after the last line feed.  Then [next()]
    called once per delivery emits, and delivers to the listener, one
    stripped line for each of the N line feeds of the file, in the order
    of the bytes, then one line for the trailing chunk if it is not
    empty, then the end of file, once; the reader has closed itself.  A
    file that ends on a line feed gives no empty last line and an empty
    file gives the end of file alone.  The reads may return any number
    of bytes. *)
Theorem orderly_read_delivers_every_line fd mem c file short :
  len mem = BUF_SIZE ->
  Forall (fun l => len l < BUF_SIZE) (file_lines file) ->
  let w := pulls (length (file_events file)) file short (on_line (init fd mem c)) in
  emitted w = file_events file /\
  consumer w = deliver_all (file_events file) c /\
  length (file_events file) =
    (count_occ Z.eq_dec file LF +
     (if snd (cut_lines file) is [] then 0 else 1) + 1)%nat /\
  _buffer (self w) = None /\ fs_closes w = [fd].
Proof.
  intros Hmem Hshort.
  assert (Hcount : length (file_events file) =
    (count_occ Z.eq_dec file LF +
     (if snd (cut_lines file) is [] then 0 else 1) + 1)%nat).
  { rewrite file_events_cut, <- cut_lines_count. unfold events_of.
    rewrite length_app, length_map, length_app.
    destruct (snd (cut_lines file)); reflexivity. }
  rewrite file_events_cut in *. unfold file_lines in Hshort.
  destruct (cut_lines file) as [ls tl] eqn:Hcut. cbn [fst snd] in *.
  apply Forall_app in Hshort as [Hls Htl].
  assert (Htl' : len tl < BUF_SIZE).
  { destruct tl; [reflexivity|]. now apply Forall_inv in Htl. }
  pose proof (pulls_in_file file short ls _ file tl
                (init_in_file fd mem c file Hmem) eq_refl Hcut Hls Htl') as H.
  cbn zeta in H. destruct H as (He & Hc & Hb & Hcl).
  cbn zeta. repeat split; assumption.
Qed.

Lemma strip_cr_keeps (l : list Z) (x : Z) : x <> CR -> strip_cr (l ++ [x]) = l ++ [x].
Proof.
  intros Hx. rewrite strip_cr_snoc.
  destruct (Z.eqb_spec x CR); [congruence | reflexivity].
Qed.

Lemma strip_cr_drops (l : list Z) : strip_cr (l ++ [CR]) = l.
Proof. rewrite strip_cr_snoc. now rewrite Z.eqb_refl. Qed.

(** C4, as the code has it. A carriage return is stripped from a line
    when it is the last byte before the place where the line ends: the
    line feed found, or the end of the file for a last line that no line
    feed ends.  So a line gives the same text whether CR LF or LF alone
    ends it, a file that ends in a carriage return gives its last line
    without it, and every other carriage return is part of the text. *)
Theorem carriage_return_stripped_at_line_end file short w s l :
  in_file file false [] s w -> LF ∉ l -> len l + 1 < BUF_SIZE ->
  (forall rest, s = l ++ CR :: LF :: rest ->
     delivered (line_event_of l) w (pull file short w)) /\
  (forall rest, s = l ++ LF :: rest ->
     delivered (line_event_of (strip_cr l)) w (pull file short w)) /\
  (s = l ++ [CR] -> delivered (line_event_of l) w (pull file short w)) /\
  (s = l -> l <> [] ->
     delivered (line_event_of (strip_cr l)) w (pull file short w)) /\
  (forall x, x <> CR -> strip_cr (l ++ [x]) = l ++ [x]) /\
  strip_cr (l ++ [CR]) = l.
Proof.
  intros Hin Hl Hlen.
  destruct (pull_in_file file short _ _ Hin) as (HA & HB & _ & _).
  assert (Hcr : LF ∉ l ++ [CR]).
  { intros [H|H]%elem_of_app; [contradiction|].
    apply list_elem_of_singleton in H. discriminate H. }
  assert (Hlcr : len (l ++ [CR]) < BUF_SIZE) by (rewrite len_snoc; lia).
  split; [|split; [|split; [|split; [|split]]]].
  - intros rest ->.
    rewrite <- (strip_cr_drops l).
    apply (HA (l ++ [CR]) rest); [now rewrite <- app_assoc | assumption | assumption].
  - intros rest ->. apply (HA l rest); [reflexivity | assumption | lia].
  - intros ->. rewrite <- (strip_cr_drops l) at 1.
    apply HB; [assumption | | assumption]. destruct l; discriminate.
  - intros -> Hne. apply HB; [assumption | assumption | lia].
  - apply strip_cr_keeps.
  - apply strip_cr_drops.
Qed.

(** C8, as the code has it. What counts is the number of bytes before
    the line feed, a carriage return included.  With [BUF_SIZE - 1] of
    them the line is delivered, whether a line feed follows or the file
    ends there.  When the first [BUF_SIZE] undelivered bytes hold no line
    feed, [next()] emits the error of a line larger than the buffer and
    closes the reader. *)
Theorem line_length_limit file short w s :
  in_file file false [] s w ->
  (forall l rest, s = l ++ LF :: rest -> LF ∉ l -> len l = BUF_SIZE - 1 ->
     delivered (line_event_of (strip_cr l)) w (pull file short w)) /\
  (LF ∉ s -> len s = BUF_SIZE - 1 ->
     delivered (line_event_of (strip_cr s)) w (pull file short w)) /\
  (LF ∉ take (Z.to_nat BUF_SIZE) s -> BUF_SIZE <= len s ->
     finished too_large_event w (pull file short w)).
Proof.
  intros Hin.
  destruct (pull_in_file file short _ _ Hin) as (HA & HB & _ & HD).
  split; [|split].
  - intros l rest Hs Hl Hlen. apply (HA l rest); [assumption | assumption | lia].
  - intros Hs Hlen. apply HB; [assumption | | lia].
    intros ->. discriminate Hlen.
  - exact HD.
Qed.

(** ** The reader: more on its methods *)

Lemma find_eol_from_first_lf (n : nat) (buf : list Z) :
  forall i,
    (find_eol_from n buf i < i + Z.of_nat n ->
     byte_at buf (find_eol_from n buf i) = Some 10) /\
    (forall j, i <= j < find_eol_from n buf i -> byte_at buf j <> Some 10).
Proof.
  induction n as [|n IH]; intros i; cbn [find_eol_from].
  - split; [lia | intros j Hj; lia].
  - destruct (IH (i + 1)) as (IH1 & IH2).
    destruct (byte_at buf i) as [b|] eqn:Hb.
    + destruct (Z.eqb_spec b 10) as [->|Hne].
      * split; [intros _; exact Hb | intros j Hj; lia].
      * split; [intros H; apply IH1; lia|].
        intros j Hj. destruct (Z.eq_dec j i) as [->|Hji].
        -- rewrite Hb. congruence.
        -- apply IH2. lia.
    + split; [intros H; apply IH1; lia|].
      intros j Hj. destruct (Z.eq_dec j i) as [->|Hji].
      * rewrite Hb. discriminate.
      * apply IH2. lia.
Qed.

(** X5. [_find_eol] returns the index of the first line feed of the
    window [_pos .. _end), and [_end] when the window has none. *)
Theorem _find_eol_first_line_feed (r : ReadFileAsync) :
  _pos r <= _end r ->
  _pos r <= _find_eol r <= _end r /\
  (_find_eol r < _end r -> byte_at (buffer_bytes r) (_find_eol r) = Some 10) /\
  (forall j, _pos r <= j < _find_eol r -> byte_at (buffer_bytes r) j <> Some 10).
Proof.
  intros Hle. split; [now apply _find_eol_range|].
  unfold _find_eol.
  destruct (find_eol_from_first_lf (Z.to_nat (_end r - _pos r)) (buffer_bytes r) (_pos r))
    as (H1 & H2).
  split; [|exact H2].
  intros H. apply H1. lia.
Qed.

Lemma buffer_three_parts (buf : list Z) (p e : Z) :
  0 <= p -> p <= e -> e <= len buf ->
  buf = take (Z.to_nat p) buf ++ byte_range buf p e ++ drop (Z.to_nat e) buf /\
  len (take (Z.to_nat p) buf) = p /\ len (byte_range buf p e) = e - p.
Proof.
  intros Hp Hpe He. unfold byte_range.
  rewrite Z.max_r, Z.min_l by lia.
  assert (Hlen1 : len (take (Z.to_nat p) buf) = p).
  { unfold len in *. rewrite length_take. lia. }
  assert (Hlen2 : len (take (Z.to_nat (e - p)) (drop (Z.to_nat p) buf)) = e - p).
  { unfold len in *. rewrite length_take, length_drop. lia. }
  split; [|auto].
  rewrite <- (take_drop (Z.to_nat p) buf) at 1. f_equal.
  rewrite <- (take_drop (Z.to_nat (e - p)) (drop (Z.to_nat p) buf)) at 1. f_equal.
  rewrite drop_drop. f_equal. lia.
Qed.

(** X6. [_refill] moves the window to the front of the buffer without
    changing its bytes or the length of the buffer, and asks for one read
    that continues the file at [_readPointer] and fills the room behind
    the window; it emits nothing. *)
Theorem _refill_keeps_window (w : world) (buf : list Z) :
  _buffer (self w) = Some buf ->
  0 <= _pos (self w) -> _pos (self w) <= _end (self w) ->
  _end (self w) <= len buf ->
  exists buf',
    _buffer (self (_refill w)) = Some buf' /\
    length buf' = length buf /\
    _pos (self (_refill w)) = 0 /\
    _end (self (_refill w)) = _end (self w) - _pos (self w) /\
    byte_range buf' 0 (_end (self w) - _pos (self w))
      = byte_range buf (_pos (self w)) (_end (self w)) /\
    _readPointer (self (_refill w)) = _readPointer (self w) /\
    fs_reads (_refill w)
      = fs_reads w ++ [ReadRequest (_end (self w) - _pos (self w))
                                   (BUF_SIZE - (_end (self w) - _pos (self w)))
                                   (_readPointer (self w))] /\
    emitted (_refill w) = emitted w /\ nextTicks (_refill w) = nextTicks w.
Proof.
  intros Hbuf Hp Hpe He.
  destruct w as [[f b eN p eo rd rp] l c em tk rds cl].
  cbn [self _buffer _pos _end] in *. subst b.
  destruct (buffer_three_parts buf p eN Hp Hpe He) as (Hsplit & Hlpre & Hlwin).
  set (gap := take (Z.to_nat p) buf) in *.
  set (win := byte_range buf p eN) in *.
  set (post := drop (Z.to_nat eN) buf) in *.
  destruct (compact_from_window win [] gap post) as (post' & Hc & Hlen).
  change (len (@nil Z)) with 0 in Hc. cbn [app] in Hc.
  rewrite Hlpre, <- Hsplit in Hc.
  unfold _refill. wproj.
  replace (Z.to_nat (eN - p)) with (length win) by (unfold len in Hlwin; lia).
  rewrite Hc. wproj. rewrite Z.add_0_l, Hlwin.
  exists (win ++ post'). repeat split.
  - rewrite Hsplit, !length_app. lia.
  - pose proof (byte_range_window [] win post') as Hr.
    change (len (@nil Z)) with 0 in Hr. cbn [app] in Hr.
    rewrite Z.add_0_l, Hlwin in Hr. exact Hr.
Qed.

(** *** What the methods leave alone *)

(** An event without a line: an error or the end of file. *)
Definition terminal (e : line_event) : Prop :=
  ev_line e = [] /\ (ev_err e <> None \/ ev_eof e = true).

(** A well-formed read request: it asks for at least one byte and for
    exactly the room from its offset to the end of the buffer. *)
Definition room_request (rq : read_request) : Prop :=
  0 <= rq_offset rq /\ 0 < rq_length rq /\
  rq_offset rq + rq_length rq = BUF_SIZE.

Ltac split_ifs :=
  repeat (match goal with
          | |- context [if ?x then _ else _] => destruct x
          end; wproj).

Ltac next_cases w :=
  unfold next, loop, _emit_line, _refill, close;
  destruct w as [[f b eN p eo rd rp] l c em tk rds cl]; wproj;
  destruct rd, eo, b as [b|]; wproj;
  try (destruct (compact_from _ _ _ _) as [buf i]); split_ifs.

Ltac callback_cases w res :=
  unfold fs_read_complete, refill_callback, loop, _emit_line, _refill, close;
  destruct w as [[f b eN p eo rd rp] l c em tk [|rq rest] cl]; wproj;
  [|destruct res as [code|data]; wproj;
    destruct rd, b as [b|]; wproj;
    try (destruct (compact_from _ _ _ _) as [buf i]); split_ifs].

Lemma next_readPointer w : _readPointer (self (next w)) = _readPointer (self w).
Proof. next_cases w; reflexivity. Qed.

Lemma next_idle_reads w :
  _reading (self (next w)) = false -> fs_reads (next w) = fs_reads w.
Proof. next_cases w; intros H; try reflexivity; discriminate H. Qed.

Lemma next_emitted w :
  emitted (next w) = emitted w \/
  exists e, terminal e /\ emitted (next w) = emitted w ++ [e].
Proof.
  next_cases w; auto;
    right; eexists; (split; [|reflexivity]); split; cbn; auto; left; discriminate.
Qed.

Lemma callback_readPointer w res :
  _readPointer (self (fs_read_complete res w)) = _readPointer (self w) \/
  exists data, res = ReadDone data /\
    _readPointer (self (fs_read_complete res w)) = _readPointer (self w) + len data.
Proof. callback_cases w res; eauto. Qed.

Lemma callback_idle_reads w res :
  _reading (self (fs_read_complete res w)) = false ->
  fs_reads (fs_read_complete res w) = tail (fs_reads w).
Proof. callback_cases w res; intros H; try reflexivity; discriminate H. Qed.

Lemma callback_emitted w res :
  emitted (fs_read_complete res w) = emitted w \/
  exists e, terminal e /\ emitted (fs_read_complete res w) = emitted w ++ [e].
Proof.
  callback_cases w res; auto;
    right; eexists; (split; [|reflexivity]); split; cbn; auto; left; discriminate.
Qed.

Lemma step_readPointer w w' :
  step w w' -> _readPointer (self w) <= _readPointer (self w').
Proof.
  intros Hs. destruct Hs as [w | w | w | w Hq | w rq rest res Hq Ht Hfit].
  - rewrite next_readPointer. lia.
  - unfold close. destruct (_buffer (self w)); wproj; lia.
  - reflexivity.
  - unfold run_tick. destruct (nextTicks w) as [|[e|] q]; wproj; lia.
  - destruct (callback_readPointer w res) as [-> | (data & _ & ->)]; [lia|].
    pose proof (len_nonneg data). lia.
Qed.

(** X7. [_readPointer] starts at 0 and never decreases, whatever the
    consumer and the file system do. *)
Theorem readPointer_never_decreases fd mem c w w' :
  reachable fd mem c w -> rtc step w w' ->
  0 <= _readPointer (self w) <= _readPointer (self w').
Proof.
  intros Hw Hs. split.
  - clear Hs. induction Hw as [|w0 w1 _ IH Hstep]; [reflexivity|].
    apply step_readPointer in Hstep. lia.
  - clear Hw. induction Hs as [|w0 w1 w2 Hstep _ IH]; [lia|].
    apply step_readPointer in Hstep. lia.
Qed.

Lemma close_reads w : fs_reads (close w) = fs_reads w.
Proof. unfold close. destruct (_buffer (self w)); reflexivity. Qed.

Lemma run_tick_reads w : fs_reads (run_tick w) = fs_reads w.
Proof. unfold run_tick. destruct (nextTicks w) as [|[e|] q]; reflexivity. Qed.

Lemma step_idle_reads w w' :
  step w w' -> _reading (self w') = false ->
  fs_reads w' = fs_reads w \/ fs_reads w' = tail (fs_reads w).
Proof.
  intros Hs Hrd. destruct Hs as [w | w | w | w Hq | w rq rest res Hq Ht Hfit].
  - left. now apply next_idle_reads.
  - left. apply close_reads.
  - left. reflexivity.
  - left. apply run_tick_reads.
  - right. now apply callback_idle_reads.
Qed.

(** X8. At most one read is in flight at any time, and every read the
    reader asks for wants at least one byte and exactly the room left in
    the buffer behind its offset: a read that brings no byte can only
    mean the end of the file, and no read can pass the end of the
    buffer. *)
Theorem one_read_in_flight fd mem c w :
  reachable fd mem c w ->
  (length (fs_reads w) <= 1)%nat /\ Forall room_request (fs_reads w).
Proof.
  intros Hw. induction Hw as [|w w' Hw IH Hs].
  - split; [cbn; lia | constructor].
  - pose proof (inv_reachable _ _ _ _ (reach_step _ _ _ _ _ Hw Hs)) as Hi.
    unfold inv in Hi. destruct Hi as (_ & He & _ & _ & _ & Hlive & _).
    destruct (_reading (self w')) eqn:Hrd.
    + destruct (Hlive eq_refl) as (_ & _ & _ & Hlt & ->).
      split; [cbn; lia|]. constructor; [|constructor].
      unfold room_request. cbn. lia.
    + destruct IH as (Hlen & Hall).
      destruct (step_idle_reads _ _ Hs Hrd) as [-> | ->]; [auto|].
      destruct (fs_reads w) as [|rq rest]; [auto|].
      cbn [tail]. cbn [length] in Hlen.
      split; [lia|]. now apply Forall_inv_tail in Hall.
Qed.

(** X9. [next()] on a closed reader changes nothing and emits one event:
    the end of file again if the reader had seen the end of the file, the
    error [file is closed] otherwise. *)
Theorem next_on_closed_reader fd mem c w :
  reachable fd mem c w -> _buffer (self w) = None ->
  next w = emit (if _eof (self w) then eof_event
                 else LineEvent (Some FileIsClosed) false []) w.
Proof.
  intros Hw Hb.
  pose proof (inv_reachable _ _ _ _ Hw) as Hi. unfold inv in Hi.
  destruct Hi as (_ & _ & _ & _ & _ & Hlive & _).
  assert (Hrd : _reading (self w) = false).
  { destruct (_reading (self w)); [|reflexivity].
    destruct (Hlive eq_refl) as (Hne & _). congruence. }
  unfold next. rewrite Hrd.
  destruct (_eof (self w)).
  - unfold close. cbn [self emit]. rewrite Hb. reflexivity.
  - rewrite Hb. reflexivity.
Qed.

(** X10. Neither [next()] nor the callback of a read hands a line to the
    listener before it returns: what they emit on the spot is at most one
    event, an error or the end of file, with an empty line.  Lines go
    through the [nextTick] queue. *)
Theorem lines_are_never_emitted_on_the_spot w res :
  (emitted (next w) = emitted w \/
   exists e, terminal e /\ emitted (next w) = emitted w ++ [e]) /\
  (emitted (fs_read_complete res w) = emitted w \/
   exists e, terminal e /\ emitted (fs_read_complete res w) = emitted w ++ [e]).
Proof. split; [apply next_emitted | apply callback_emitted]. Qed.

(** *** One event for each pull *)

(** The bytes not delivered yet fall under one of the four outcomes. *)
Lemma stream_cases (s : list Z) :
  (exists l rest, s = l ++ LF :: rest /\ (LF ∉ l) /\ len l < BUF_SIZE) \/
  ((LF ∉ s) /\ s <> [] /\ len s < BUF_SIZE) \/
  s = [] \/
  ((LF ∉ take (Z.to_nat BUF_SIZE) s) /\ BUF_SIZE <= len s).
Proof.
  destruct (first_occurrence LF s) as [Habs | (l & rest & -> & Hl)].
  - destruct (Z.lt_ge_cases (len s) BUF_SIZE) as [Hlt | Hge].
    + destruct s; [right; right; left; reflexivity|].
      right. left. repeat split; [assumption | discriminate | assumption].
    + right. right. right. split; [|assumption].
      intros Hin. apply Habs. now apply (subseteq_take (Z.to_nat BUF_SIZE)).
  - destruct (Z.lt_ge_cases (len l) BUF_SIZE) as [Hlt | Hge].
    + left. exists l, rest. auto.
    + right. right. right. split.
      * rewrite take_app_le by (unfold len in Hge; lia).
        intros Hin. apply Hl. now apply (subseteq_take (Z.to_nat BUF_SIZE)).
      * rewrite len_app. pose proof (len_nonneg (LF :: rest)). lia.
Qed.

(** X11. Whatever the file holds, one [next()] on an idle open reader,
    with the reads answered from the file and the ticks run, emits
    exactly one event, delivers it if a listener is registered, and
    leaves no read in flight and no tick queued. *)
Theorem pull_emits_exactly_once file short w s :
  in_file file false [] s w ->
  exists e,
    emitted (pull file short w) = emitted w ++ [e] /\
    consumer (pull file short w)
      = (if listening w then listener e (consumer w) else consumer w) /\
    fs_reads (pull file short w) = [] /\ nextTicks (pull file short w) = [].
Proof.
  intros Hin.
  destruct (pull_in_file file short _ _ Hin) as (HA & HB & HC & HD).
  destruct (stream_cases s) as [(l & rest & Hs & Hl & Hlen) | [(Hs & Hne & Hlen) | [Hs | (Hs & Hlen)]]].
  - destruct (HA l rest Hs Hl Hlen) as (_ & _ & Hc & He & _ & _ & Hr & Hq). eauto.
  - destruct (HB Hs Hne Hlen) as (_ & _ & Hc & He & _ & _ & Hr & Hq). eauto.
  - destruct (HC Hs) as (_ & Hc & He & _ & _ & _ & Hr & Hq). eauto.
  - destruct (HD Hs Hlen) as (_ & Hc & He & _ & _ & _ & Hr & Hq). eauto.
Qed.

(** The bytes of the lines [ls], each followed by its line feed. *)
Definition with_line_feeds (ls : list (list Z)) : list Z :=
  concat (map (fun l => l ++ [LF]) ls).

Lemma pulls_until_too_large file short :
  forall ls w bad,
    in_file file false [] (with_line_feeds ls ++ bad) w -> listening w = true ->
    Forall (fun l => (LF ∉ l) /\ len l < BUF_SIZE) ls ->
    LF ∉ take (Z.to_nat BUF_SIZE) bad -> BUF_SIZE <= len bad ->
    let w' := pulls (S (length ls)) file short w in
    emitted w' = emitted w ++ map (fun l => line_event_of (strip_cr l)) ls
                           ++ [too_large_event] /\
    consumer w' = deliver_all (map (fun l => line_event_of (strip_cr l)) ls
                               ++ [too_large_event]) (consumer w) /\
    _buffer (self w') = None /\ listening w' = false.
Proof.
  induction ls as [|l ls IH]; intros w bad Hin Hlisten Hls Hbad Hlen.
  - cbn [with_line_feeds map concat app] in Hin.
    destruct (pull_in_file file short _ _ Hin) as (_ & _ & _ & HD).
    destruct (HD Hbad Hlen) as (Hl & Hc & He & _ & Hb & _).
    rewrite Hlisten in Hc. cbn. auto.
  - apply Forall_cons in Hls as [[Hl Hshort] Hls].
    unfold with_line_feeds in Hin. cbn [map concat] in Hin.
    rewrite <- !app_assoc in Hin. cbn [app] in Hin.
    destruct (pull_in_file file short _ _ Hin) as (HA & _).
    destruct (HA l _ eq_refl Hl Hshort) as (Hin1 & Hdel).
    destruct Hdel as (Hl1 & Hc1 & He1 & _).
    rewrite Hlisten in Hl1, Hc1.
    specialize (IH _ _ Hin1 Hl1 Hls Hbad Hlen).
    cbn zeta in IH. destruct IH as (He & Hc & Hb & Hlst).
    cbn zeta. cbn [length]. rewrite pulls_S.
    cbn [map app deliver_all fold_left] in *.
    rewrite He, Hc, He1, Hc1, <- app_assoc. auto.
Qed.

(** X12. When a file starts with lines that fit the buffer and goes on
    with [BUF_SIZE] bytes that hold no line feed, the lines that fit are
    delivered in order, then the error of a line larger than the buffer
    is emitted to the listener and the reader closes itself and drops its
    listeners. *)
Theorem lines_before_an_oversized_line fd mem c file short ls bad :
  len mem = BUF_SIZE ->
  file = with_line_feeds ls ++ bad ->
  Forall (fun l => (LF ∉ l) /\ len l < BUF_SIZE) ls ->
  LF ∉ take (Z.to_nat BUF_SIZE) bad -> BUF_SIZE <= len bad ->
  let w := pulls (S (length ls)) file short (on_line (init fd mem c)) in
  emitted w = map (fun l => line_event_of (strip_cr l)) ls ++ [too_large_event] /\
  consumer w = deliver_all (map (fun l => line_event_of (strip_cr l)) ls
                            ++ [too_large_event]) c /\
  _buffer (self w) = None /\ listening w = false.
Proof.
  intros Hmem Hfile Hls Hbad Hlen.
  pose proof (init_in_file fd mem c file Hmem) as Hin. rewrite Hfile in Hin at 2.
  pose proof (pulls_until_too_large file short ls _ bad Hin eq_refl Hls Hbad Hlen) as H.
  cbn zeta in H. destruct H as (He & Hc & Hb & Hlst).
  cbn zeta. repeat split; assumption.
Qed.

Lemma next_idle fd pre win post rp l c em q rds cl :
  next (World (reader_at fd pre win post rp false false) l c em q rds cl)
  = loop (World (reader_at fd pre win post rp false true) l c em q rds cl).
Proof. reflexivity. Qed.

(** X13. The guard [_reading] is released as soon as a line found in the
    buffer is queued.  So when the window holds two whole lines, two
    calls of [next()] in a row, the second before the first line is
    delivered, are both accepted: both lines are queued, in order, and no
    error is emitted. *)
Theorem buffered_lines_need_no_wait fd pre a b rest post rp l c em q cl :
  LF ∉ a -> LF ∉ b ->
  next (next (World (reader_at fd pre (a ++ LF :: b ++ LF :: rest) post rp false false)
                    l c em q [] cl))
  = World (reader_at fd ((pre ++ a ++ [LF]) ++ b ++ [LF]) rest post rp false false)
          l c em
          (q ++ [TickEmit (line_event_of (strip_cr a));
                 TickEmit (line_event_of (strip_cr b))]) [] cl.
Proof.
  intros Ha Hb.
  rewrite next_idle, loop_found by assumption.
  rewrite next_idle, loop_found by assumption.
  f_equal. now rewrite <- app_assoc.
Qed.

Lemma next_consumer_terminal w :
  consumer (next w) = consumer w \/
  exists e, terminal e /\ consumer (next w) = listener e (consumer w).
Proof.
  next_cases w; auto;
    right; eexists; (split; [|reflexivity]); split; cbn; auto; left; discriminate.
Qed.

Lemma callback_consumer_terminal w res :
  consumer (fs_read_complete res w) = consumer w \/
  exists e, terminal e /\ consumer (fs_read_complete res w) = listener e (consumer w).
Proof.
  callback_cases w res; auto;
    right; eexists; (split; [|reflexivity]); split; cbn; auto; left; discriminate.
Qed.

Lemma run_tick_consumer w :
  consumer (run_tick w) = consumer w \/
  exists e, consumer (run_tick w) = listener e (consumer w).
Proof.
  unfold run_tick. destruct (nextTicks w) as [|[e|] q]; auto.
  unfold emit, with_nextTicks. cbn [consumer listening].
  destruct (listening w); eauto.
Qed.

(** *** Errors of the file system and [close()] with lines queued *)

(** X17. A read that fails while the reader waits for it is fatal: the
    error is emitted, with no line and no end of file, the reader is
    closed, the file is released, once, and no read is left in flight. *)
Theorem read_error_is_fatal fd mem c w code :
  reachable fd mem c w -> _reading (self w) = true ->
  let w' := fs_read_complete (ReadFailed code) w in
  emitted w' = emitted w ++ [LineEvent (Some (FsError code)) false []] /\
  _buffer (self w') = None /\ _reading (self w') = false /\
  fs_reads w' = [] /\ fs_closes w' = [fd].
Proof.
  intros Hw Hrd.
  pose proof (inv_reachable _ _ _ _ Hw) as Hi. unfold inv in Hi.
  destruct Hi as (Hfd & _ & _ & _ & _ & Hlive & _ & Hcl).
  destruct (Hlive Hrd) as (Hb & _ & _ & _ & Hq).
  cbn zeta. unfold fs_read_complete, refill_callback, close. rewrite Hq.
  destruct w as [[f b eN p eo rd rp] l c0 em tk rds cl]. wproj.
  destruct b as [b|]; [|congruence]. subst. wproj. auto.
Qed.

Lemma run_ticks_emits (es : list line_event) :
  forall r l c em q rds cl,
    run_ticks (length es) (World r l c em (map TickEmit es ++ q) rds cl)
    = World r l (if l then deliver_all es c else c) (em ++ es) q rds cl.
Proof.
  induction es as [|e es IH]; intros r l c em q rds cl.
  - cbn. rewrite app_nil_r. destruct l; reflexivity.
  - cbn [length map app run_ticks]. unfold run_tick. wproj.
    rewrite IH. rewrite <- app_assoc. destruct l; reflexivity.
Qed.

(** X18. [close()] does not lose the lines that are queued for
    delivery: the tick that drops the listeners is queued behind them.
    When the queue is run, the lines are delivered, in order, and only
    then are the listeners gone. *)
Theorem close_keeps_queued_lines (w : world) (es : list line_event) :
  _buffer (self w) <> None -> listening w = true ->
  nextTicks w = map TickEmit es ->
  emitted (drain (close w)) = emitted w ++ es /\
  consumer (drain (close w)) = deliver_all es (consumer w) /\
  listening (drain (close w)) = false /\
  nextTicks (drain (close w)) = [] /\
  _buffer (self (drain (close w))) = None.
Proof.
  intros Hb Hl Hq. unfold close.
  destruct w as [[f b eN p eo rd rp] l c em tk rds cl]. wproj.
  destruct b as [b|]; [|congruence]. subst l tk. wproj.
  unfold drain. cbn [nextTicks].
  rewrite length_app, length_map. cbn [length].
  replace (length es + 1)%nat with (S (length es)) by lia.
  assert (Hrun : forall n w0, run_ticks (S n) w0 = run_tick (run_ticks n w0)).
  { induction n as [|n IHn]; intros w0; [reflexivity|].
    cbn [run_ticks] in *. now rewrite <- IHn. }
  rewrite Hrun, run_ticks_emits. unfold run_tick. wproj. auto.
Qed.

(** *** Reads see the file from the reader's position on *)

(** The reader's position in the file and every read in flight are at
    or beyond [p0]. *)
Definition reads_beyond (p0 : Z) (w : world) : Prop :=
  p0 <= _readPointer (self w) /\
  Forall (fun rq => p0 <= rq_position rq) (fs_reads w).

Lemma file_read_agree file file' short rq (p0 : nat) :
  drop p0 file = drop p0 file' -> Z.of_nat p0 <= rq_position rq ->
  file_read file short rq = file_read file' short rq.
Proof.
  intros Hd Hp. unfold file_read. f_equal. f_equal.
  replace (Z.to_nat (rq_position rq))
    with (p0 + (Z.to_nat (rq_position rq) - p0))%nat by lia.
  rewrite <- !drop_drop. now rewrite Hd.
Qed.

Lemma next_reads_beyond p0 w : reads_beyond p0 w -> reads_beyond p0 (next w).
Proof.
  unfold reads_beyond. next_cases w; intros [H1 H2]; (split; [exact H1|]);
    first [ exact H2
          | apply Forall_app; split;
            [exact H2 | apply Forall_cons_2; [exact H1 | apply Forall_nil_2]] ].
Qed.

Lemma callback_reads_beyond p0 w res :
  reads_beyond p0 w -> reads_beyond p0 (fs_read_complete res w).
Proof.
  unfold reads_beyond. callback_cases w res; intros [H1 H2];
    try (apply Forall_cons in H2 as [_ H2]);
    try (pose proof (len_nonneg data));
    (split; [lia|]);
    first [ exact H2
          | apply Forall_nil_2
          | apply Forall_app; split;
            [exact H2 | apply Forall_cons_2; [cbn; lia | apply Forall_nil_2]] ].
Qed.

Lemma run_ticks_reads_beyond p0 n :
  forall w, reads_beyond p0 w -> reads_beyond p0 (run_ticks n w).
Proof.
  induction n as [|n IH]; intros w H; [exact H|].
  cbn [run_ticks]. apply IH. unfold reads_beyond in *.
  rewrite run_tick_reads.
  replace (self (run_tick w)) with (self w); [exact H|].
  unfold run_tick. destruct (nextTicks w) as [|[e|] q]; reflexivity.
Qed.

Lemma settle_agree file file' short (p0 : nat) :
  drop p0 file = drop p0 file' ->
  forall fuel w, reads_beyond (Z.of_nat p0) w ->
    settle fuel file short w = settle fuel file' short w.
Proof.
  intros Hd. induction fuel as [|fuel IH]; intros w Hw; [reflexivity|].
  cbn [settle]. destruct (fs_reads w) as [|rq rest] eqn:Hq; [reflexivity|].
  assert (Hrq : Z.of_nat p0 <= rq_position rq).
  { destruct Hw as [_ Hall]. rewrite Hq in Hall. now apply Forall_cons in Hall as [? _]. }
  rewrite (file_read_agree file file' short rq p0 Hd Hrq).
  apply IH. apply callback_reads_beyond. now apply run_ticks_reads_beyond.
Qed.

(** A pull does not see the bytes of the file that lie before the
    reader's position. *)
Lemma pull_agree file file' short (p0 : nat) w :
  drop p0 file = drop p0 file' -> reads_beyond (Z.of_nat p0) w ->
  pull file short w = pull file' short w.
Proof.
  intros Hd Hw. unfold pull.
  now rewrite (settle_agree file file' short p0 Hd _ (next w)
                 (next_reads_beyond _ _ Hw)).
Qed.

(** The reader will not read again: it has seen the end of the file or
    is closed, and nothing is in flight or queued. *)
Definition done_reading (w : world) : Prop :=
  (_eof (self w) = true \/ _buffer (self w) = None) /\
  _reading (self w) = false /\ fs_reads w = [] /\ nextTicks w = [].

Lemma done_reading_pull file file' short w :
  done_reading w ->
  pull file short w = pull file' short w /\ done_reading (pull file short w).
Proof.
  destruct w as [[f b eN p eo rd rp] l c em tk rds cl].
  unfold done_reading. wproj. intros (Hor & -> & -> & ->).
  unfold pull, next. wproj. destruct eo.
  - unfold close. wproj. destruct b as [b|]; wproj.
    + rewrite !settle_idle by reflexivity. split; [reflexivity|].
      rewrite (drain_one _ TickRemoveAllListeners) by reflexivity. wproj. auto.
    + rewrite !settle_idle by reflexivity. split; [reflexivity|].
      unfold drain. cbn [nextTicks length run_ticks]. wproj. auto.
  - destruct Hor as [Hor | ->]; [discriminate Hor|].
    rewrite !settle_idle by reflexivity. split; [reflexivity|].
    unfold drain. cbn [nextTicks length run_ticks]. wproj. auto.
Qed.

End Reader.

Arguments World {C}.
Arguments self {C}.
Arguments listening {C}.
Arguments consumer {C}.
Arguments emitted {C}.
Arguments nextTicks {C}.
Arguments fs_reads {C}.
Arguments fs_closes {C}.
Arguments init {C}.
Arguments on_line {C}.
Arguments close {C}.
Arguments run_tick {C}.
Arguments drain {C}.
Arguments with_self {C}.
Arguments with_fs_reads {C}.
Arguments with_nextTicks {C}.
Arguments with_listening {C}.

(** ** The driver [rewriteFiles] *)

(** What the driver prints. *)
Inductive console_msg :=
| LogError (e : jserror)        (* console.log(err) and console.log(err.toString()) *)
| LogEndOfFile.                 (* console.log(End of file reached) *)

(** An [fs.write(fd, string, position, utf8, callback)] that has not
    called back yet. *)
Record write_request := WriteRequest {
  wr_fd : Z;
  wr_string : list Z;
  wr_position : Z
}.

(** The arguments [(err, written)] of the callback of [fs.write]. *)
Inductive write_result :=
| WriteFailed (code : Z)
| WriteDone (written : Z).

(** What one call of [rewriteFile] owns besides its reader: the variable
    [writePointer], the writes in flight, and the console.  The bytes on
    the disk are not part of it: the environment answers the reads
    ([fs_read_complete]) and the writes ([fs_write_complete]). *)
Record driver := Driver {
  writePointer : Z;
  fs_writes : list write_request;
  console : list console_msg
}.

Definition console_log (m : console_msg) (d : driver) : driver :=
  Driver (writePointer d) (fs_writes d) (console d ++ [m]).

(** The listener [function (err, eof, line)] that [rewriteFile]
    registers.  [processLine] always returns (see [processLine_spec]). *)
Definition line_listener (fd : Z) (e : line_event) (d : driver) : driver :=
  match ev_err e with
  | Some err => console_log (LogError err) d
  | None =>
      if ev_eof e then console_log LogEndOfFile d
      else
        match processLine (ev_line e) with
        | Some str =>
            Driver (writePointer d)
                   (fs_writes d ++ [WriteRequest fd str (writePointer d)])
                   (console d)
        | None => d
        end
  end.

Section Driver.

Variable toString : list Z -> list Z.

(** [rewriteFile(err, fd)], the callback of [fs.open]: [None] when the
    file could not be opened and no reader exists. *)
Definition rewriteFile (err : option Z) (fd : Z) (mem : list Z)
  : list console_msg * option (world driver) :=
  match err with
  | Some code => ([LogError (FsError code)], None)
  | None =>
      let writePointer := 0 in
      let fileReader := init fd mem (Driver writePointer [] []) in
      let fileReader := on_line fileReader in
      ([], Some (next toString driver (line_listener fd) fileReader))
  end.

(** [rewriteFiles(files)]: every file is opened and rewritten on its own,
    nothing is shared between files.  [opened] gives, file by file, what
    [fs.open] passes to the callback and the memory of the new buffer. *)
Definition rewriteFiles (opened : list (option Z * Z * list Z))
  : list (list console_msg * option (world driver)) :=
  map (fun '(err, fd, mem) => rewriteFile err fd mem) opened.

Definition with_consumer (d : driver) (w : world driver) : world driver :=
  World (self w) (listening w) d (emitted w) (nextTicks w) (fs_reads w) (fs_closes w).

(** The oldest write in flight completes and its callback runs:
    [if(!err) writePointer += written; fileReader.next();] *)
Definition fs_write_complete (fd : Z) (res : write_result) (w : world driver)
  : world driver :=
  match fs_writes (consumer w) with
  | [] => w
  | _ :: rest =>
      let d := Driver (writePointer (consumer w)) rest (console (consumer w)) in
      let d :=
        match res with
        | WriteFailed _ => d
        | WriteDone written =>
            Driver (writePointer d + written) (fs_writes d) (console d)
        end in
      next toString driver (line_listener fd) (with_consumer d w)
  end.


Ltac dproj :=
  cbv beta iota zeta delta
      [emit nextTick fs_read fs_close with_self with_listening
       with_nextTicks with_fs_reads set_buffer set_end set_pos set_eof
       set_reading set_readPointer buffer_bytes with_consumer
       self listening consumer emitted nextTicks fs_reads fs_closes
       _fd _buffer _end _pos _eof _reading _readPointer
       default from_option id option_map rq_offset rq_length rq_position] in *.

Lemma line_listener_writePointer fd e d :
  writePointer (line_listener fd e d) = writePointer d.
Proof.
  unfold line_listener.
  destruct (ev_err e); [reflexivity|].
  destruct (ev_eof e); [reflexivity|].
  destruct (processLine (ev_line e)); reflexivity.
Qed.

(** [next] reads and changes the listener's state only by what it emits
    on the spot. *)
Lemma next_consumer fd w :
  consumer (next toString driver (line_listener fd) w) = consumer w \/
  exists e, consumer (next toString driver (line_listener fd) w)
            = line_listener fd e (consumer w).
Proof.
  unfold next, loop, _emit_line, _refill, close.
  destruct w as [[f b eN p eo rd rp] l c em tk rds cl]. dproj.
  destruct rd.
  { destruct b, l; dproj; eauto. }
  destruct eo.
  { destruct b, l; dproj; eauto. }
  destruct b as [b|]; dproj.
  2:{ destruct l; eauto. }
  destruct (compact_from _ _ _ _) as [buf i].
  repeat (match goal with
          | |- context [if ?x then _ else _] => destruct x
          end; dproj; eauto).
Qed.

Lemma next_writePointer fd w :
  writePointer (consumer (next toString driver (line_listener fd) w))
  = writePointer (consumer w).
Proof.
  destruct (next_consumer fd w) as [-> | (e & ->)]; [reflexivity|].
  apply line_listener_writePointer.
Qed.



(** *** The cursor and the writes *)

Lemma line_listener_terminal fd e d :
  terminal e ->
  fs_writes (line_listener fd e d) = fs_writes d /\
  writePointer (line_listener fd e d) = writePointer d.
Proof.
  intros (Hline & Hkind). unfold line_listener.
  destruct (ev_err e); [split; reflexivity|].
  destruct (ev_eof e); [split; reflexivity|].
  destruct Hkind as [H | H]; [congruence | discriminate H].
Qed.

(** X14. Only a write that succeeds moves [writePointer], and by the
    number of bytes it reports; what the reader emits and delivers, on
    the spot or from the tick queue, never moves it.  The [next()] that
    the write callback calls starts no write before it returns. *)
Theorem cursor_moves_only_on_written fd w rq rest written rres :
  fs_writes (consumer w) = rq :: rest ->
  writePointer (consumer (fs_write_complete fd (WriteDone written) w))
    = writePointer (consumer w) + written /\
  fs_writes (consumer (fs_write_complete fd (WriteDone written) w)) = rest /\
  writePointer
    (consumer (fs_read_complete toString driver (line_listener fd) rres w))
    = writePointer (consumer w) /\
  writePointer (consumer (run_tick (line_listener fd) w))
    = writePointer (consumer w).
Proof.
  intros Hq. split; [|split; [|split]].
  - unfold fs_write_complete. rewrite Hq. rewrite next_writePointer. reflexivity.
  - unfold fs_write_complete. rewrite Hq. cbn [writePointer fs_writes console].
    match goal with
    | |- context [next _ _ _ ?W] =>
        destruct (next_consumer_terminal toString driver (line_listener fd) W)
          as [-> | (e & He & ->)]
    end; [reflexivity|].
    unfold with_consumer. cbn [consumer].
    now destruct (line_listener_terminal fd e
                    (Driver (writePointer (consumer w) + written) rest
                            (console (consumer w))) He) as (-> & _).
  - destruct (callback_consumer_terminal toString driver (line_listener fd) w rres)
      as [-> | (e & _ & ->)]; [reflexivity|].
    apply line_listener_writePointer.
  - destruct (run_tick_consumer driver (line_listener fd) w) as [-> | (e & ->)];
      [reflexivity|].
    apply line_listener_writePointer.
Qed.

(** *** The driver on a whole file *)

(** The driver from the opening of the file to the first delivery:
    [rewriteFile] has called [next()], the reads are answered from the
    file and the queued ticks run. *)
Definition drive_start (fd : Z) (mem file : list Z) (short : Z -> Z)
  : world driver :=
  pull toString driver (line_listener fd) file short
       (on_line (init fd mem (Driver 0 [] []))).

(** One round of the driver: the write in flight completes as [answer]
    says, its callback calls [next()], the reads are answered from the
    file and the queued ticks run.  The reads see the bytes the file had
    when it was opened.  This is the run of the code where every write
    lies behind the bytes still to be read, as it does for ASCII text:
    the theorems on [drive] take a decoding that gives at most one
    character for a byte and writes that report at most one byte for a
    character, and under these the write of a line ends at or before the
    end of that line in the file, which the reader has passed.  The run
    on the file as the writes leave it is [disk_round] below, and under
    these hypotheses it goes through the same states. *)
Definition drive_round (fd : Z) (file : list Z) (short : Z -> Z)
    (answer : write_request -> write_result) (w : world driver) : world driver :=
  match fs_writes (consumer w) with
  | [] => w
  | rq :: _ =>
      drain (line_listener fd)
        (settle toString driver (line_listener fd) (Z.to_nat (BUF_SIZE + 1))
                file short (fs_write_complete fd (answer rq) w))
  end.

Fixpoint drive (n : nat) (fd : Z) (file : list Z) (short : Z -> Z)
    (answer : write_request -> write_result) (w : world driver) : world driver :=
  match n with
  | O => w
  | S n' => drive n' fd file short answer (drive_round fd file short answer w)
  end.

(** The state of the driver's variables after the callback of a write. *)
Definition after_write (res : write_result) (rest : list write_request)
    (d : driver) : driver :=
  match res with
  | WriteFailed _ => Driver (writePointer d) rest (console d)
  | WriteDone written => Driver (writePointer d + written) rest (console d)
  end.

(** A write reports at most as many bytes as its string has characters,
    as it does for ASCII text. *)
Definition modest (answer : write_request -> write_result) : Prop :=
  forall rq, match answer rq with
             | WriteFailed _ => True
             | WriteDone written => 0 <= written <= len (wr_string rq)
             end.

Lemma drive_start_is_rewriteFile fd mem file short :
  exists w, rewriteFile None fd mem = ([], Some w) /\
    drive_start fd mem file short
    = drain (line_listener fd)
        (settle toString driver (line_listener fd) (Z.to_nat (BUF_SIZE + 1))
                file short w).
Proof. eexists. split; reflexivity. Qed.

Lemma drive_round_pull fd file short answer w rq rest :
  fs_writes (consumer w) = rq :: rest ->
  drive_round fd file short answer w
  = pull toString driver (line_listener fd) file short
         (with_consumer (after_write (answer rq) rest (consumer w)) w).
Proof.
  intros Hq. unfold drive_round, pull, fs_write_complete, after_write.
  rewrite Hq. destruct (answer rq); reflexivity.
Qed.

Lemma in_file_with_consumer file rd q s d w :
  in_file driver file rd q s w -> in_file driver file rd q s (with_consumer d w).
Proof.
  intros (fd & pre & win & post & rp & H). exists fd, pre, win, post, rp. exact H.
Qed.

Lemma line_listener_line fd bytes d :
  line_listener fd (line_event_of toString bytes) d
  = Driver (writePointer d)
           (fs_writes d ++ [WriteRequest fd (spec_transform (toString bytes) ++ [LF])
                                          (writePointer d)])
           (console d).
Proof.
  unfold line_listener, line_event_of. cbn [ev_err ev_eof ev_line].
  rewrite processLine_spec. reflexivity.
Qed.

Lemma strip_cr_len (l : list Z) : len (strip_cr l) <= len l.
Proof.
  destruct l as [|y l0] using rev_ind.
  - reflexivity.
  - rewrite strip_cr_snoc, len_snoc.
    destruct (y =? CR); [lia | rewrite len_snoc; lia].
Qed.

Lemma with_line_feeds_cons (l : list Z) (ls : list (list Z)) :
  len (with_line_feeds (l :: ls)) = len l + 1 + len (with_line_feeds ls).
Proof.
  unfold with_line_feeds. cbn [map concat]. rewrite !len_app.
  change (len [LF]) with 1. lia.
Qed.

Lemma written_line_len (bytes : list Z) :
  (forall b, len (toString b) <= len b) ->
  len (spec_transform (toString (strip_cr bytes)) ++ [LF]) <= len bytes + 1.
Proof.
  intros Hts. rewrite len_snoc. unfold spec_transform, len at 1.
  rewrite unquoted_length. fold (len (toString (strip_cr bytes))).
  pose proof (Hts (strip_cr bytes)). pose proof (strip_cr_len bytes). lia.
Qed.

Lemma drive_writes fd file short answer :
  (forall b, len (toString b) <= len b) -> modest answer ->
  forall ls w s tl B,
    in_file driver file false [] s w -> listening w = true ->
    fs_writes (consumer w) = [] -> 0 <= writePointer (consumer w) <= B ->
    cut_lines s = (ls, tl) -> Forall (fun l => len l < BUF_SIZE) ls ->
    forall k l, ls !! k = Some l ->
      let wk := drive k fd file short answer
                  (pull toString driver (line_listener fd) file short w) in
      fs_writes (consumer wk)
        = [WriteRequest fd (spec_transform (toString (strip_cr l)) ++ [LF])
                        (writePointer (consumer wk))] /\
      0 <= writePointer (consumer wk) /\
      writePointer (consumer wk)
        + len (spec_transform (toString (strip_cr l)) ++ [LF])
        <= B + len (with_line_feeds (take (S k) ls)).
Proof.
  intros Hts Hans.
  induction ls as [|l0 ls IH]; intros w s tl B Hin Hlisten Hq Hwp Hcut Hshort k l Hk.
  { discriminate Hk. }
  destruct (cut_lines_first _ _ _ _ Hcut) as (rest & -> & Hl0 & Hrest).
  apply Forall_cons in Hshort as [Hlen Hshort].
  destruct (pull_in_file toString driver (line_listener fd) file short _ _ Hin)
    as (HA & _).
  destruct (HA l0 rest eq_refl Hl0 Hlen) as (Hin1 & Hdel).
  destruct Hdel as (Hl1 & Hc1 & _).
  rewrite Hlisten in Hl1, Hc1. rewrite line_listener_line, Hq in Hc1.
  cbn [app] in Hc1.
  pose proof (written_line_len l0 Hts) as Hstr.
  pose proof (len_nonneg l0) as Hl0pos.
  destruct k as [|k].
  - injection Hk as <-. cbn zeta. cbn [drive].
    rewrite Hc1. cbn [fs_writes writePointer].
    change (take 1 (l0 :: ls)) with [l0].
    rewrite with_line_feeds_cons. change (len (with_line_feeds [])) with 0.
    repeat split; try reflexivity; lia.
  - cbn [lookup list_lookup] in Hk. cbn zeta. cbn [drive].
    rewrite (drive_round_pull _ _ _ _ _ _ [] ltac:(rewrite Hc1; reflexivity)).
    set (d' := after_write _ _ _).
    assert (Hd' : fs_writes d' = [] /\
                  0 <= writePointer d' <= B + (len l0 + 1)).
    { unfold d', after_write. rewrite Hc1. cbn [writePointer console fs_writes].
      specialize (Hans (WriteRequest fd (spec_transform (toString (strip_cr l0)) ++ [LF])
                                     (writePointer (consumer w)))).
      destruct (answer _); cbn [fs_writes writePointer wr_string] in *;
        (split; [reflexivity|]); lia. }
    destruct Hd' as (Hq' & Hwp').
    specialize (IH (with_consumer d' (pull toString driver (line_listener fd) file short w))
                   rest tl (B + (len l0 + 1))
                   (in_file_with_consumer _ _ _ _ _ _ Hin1) Hl1 Hq' Hwp' Hrest Hshort
                   k l Hk).
    cbn zeta in IH. destruct IH as (H1 & H2 & H3).
    split; [exact H1|]. split; [exact H2|].
    change (take (S (S k)) (l0 :: ls)) with (l0 :: take (S k) ls).
    rewrite with_line_feeds_cons. lia.
Qed.

(** X15. Rewriting in place is safe for ASCII text.  Take a decoding
    that gives at most one character for a byte, writes that report at
    most one byte for a character, and a file whose lines fit the
    buffer.  After the first delivery and [k] rounds the write in flight
    is that of line [k]: the transformed line with its line feed, at
    [writePointer], and it ends at or before the place where line [k]
    ends in the file, so it only covers bytes of lines already read. *)
Theorem writes_stay_inside_their_lines fd mem file short answer k l :
  len mem = BUF_SIZE ->
  (forall b, len (toString b) <= len b) -> modest answer ->
  Forall (fun l => len l < BUF_SIZE) (fst (cut_lines file)) ->
  fst (cut_lines file) !! k = Some l ->
  let w := drive k fd file short answer (drive_start fd mem file short) in
  fs_writes (consumer w)
    = [WriteRequest fd (spec_transform (toString (strip_cr l)) ++ [LF])
                    (writePointer (consumer w))] /\
  0 <= writePointer (consumer w) /\
  writePointer (consumer w) + len (spec_transform (toString (strip_cr l)) ++ [LF])
    <= len (with_line_feeds (take (S k) (fst (cut_lines file)))).
Proof.
  intros Hmem Hts Hans Hshort Hk.
  destruct (cut_lines file) as [ls tl] eqn:Hcut. cbn [fst] in *.
  pose proof (drive_writes fd file short answer Hts Hans ls
                (on_line (init fd mem (Driver 0 [] []))) file tl 0
                (init_in_file driver fd mem _ file Hmem) eq_refl eq_refl
                ltac:(cbn; lia) Hcut Hshort k l Hk) as H.
  cbn zeta in H. rewrite Z.add_0_l in H. exact H.
Qed.

Lemma drive_S n fd file short answer w :
  drive (S n) fd file short answer w
  = drive n fd file short answer (drive_round fd file short answer w).
Proof. reflexivity. Qed.

Lemma after_write_cursor fd answer l0 d B :
  (forall b, len (toString b) <= len b) -> modest answer ->
  0 <= writePointer d <= B ->
  let rq := WriteRequest fd (spec_transform (toString (strip_cr l0)) ++ [LF])
                         (writePointer d) in
  let d' := after_write (answer rq) []
              (Driver (writePointer d) [rq] (console d)) in
  fs_writes d' = [] /\ console d' = console d /\
  0 <= writePointer d' <= B + (len l0 + 1).
Proof.
  intros Hts Hans Hwp. cbn zeta.
  pose proof (written_line_len l0 Hts) as Hstr.
  pose proof (len_nonneg l0) as Hl0.
  specialize (Hans (WriteRequest fd (spec_transform (toString (strip_cr l0)) ++ [LF])
                                 (writePointer d))).
  unfold after_write.
  destruct (answer _); cbn [fs_writes writePointer console wr_string] in *;
    (split; [reflexivity|]); (split; [reflexivity|]); lia.
Qed.

Lemma drive_to_the_end fd file short answer :
  (forall b, len (toString b) <= len b) -> modest answer ->
  forall ls w s tl B,
    in_file driver file false [] s w -> listening w = true ->
    fs_writes (consumer w) = [] -> 0 <= writePointer (consumer w) <= B ->
    cut_lines s = (ls, tl) ->
    Forall (fun l => len l < BUF_SIZE) ls -> len tl < BUF_SIZE ->
    let w' := drive (length (ls ++ (if tl is [] then [] else [tl])))
                    fd file short answer
                    (pull toString driver (line_listener fd) file short w) in
    console (consumer w') = console (consumer w) ++ [LogEndOfFile] /\
    fs_writes (consumer w') = [] /\
    _buffer (self w') = None /\
    fs_closes w' = fs_closes w ++ [_fd (self w)] /\
    0 <= writePointer (consumer w')
      <= B + len (with_line_feeds (ls ++ (if tl is [] then [] else [tl]))).
Proof.
  intros Hts Hans.
  induction ls as [|l0 ls IH]; intros w s tl B Hin Hlisten Hq Hwp Hcut Hshort Htl.
  - destruct (cut_lines_none _ _ Hcut) as [-> Habs].
    destruct (pull_in_file toString driver (line_listener fd) file short _ _ Hin)
      as (_ & HB & HC & _).
    destruct tl as [|b tl].
    + destruct (HC eq_refl) as (_ & Hc & _ & Hcl & Hb & _).
      rewrite Hlisten in Hc. cbn zeta. cbn [app length drive].
      rewrite Hc.
      cbn [line_listener eof_event ev_err ev_eof console_log console fs_writes
           writePointer].
      change (len (with_line_feeds [])) with 0.
      repeat split; try assumption; try reflexivity; lia.
    + destruct (HB Habs ltac:(discriminate) Htl) as (Heof & Hdel).
      destruct Hdel as (Hl1 & Hc1 & _ & Hcl1 & Hfd1 & Hr1 & Ht1).
      rewrite Hlisten in Hl1, Hc1. rewrite line_listener_line, Hq in Hc1.
      cbn [app] in Hc1.
      cbn zeta. cbn [app length drive].
      rewrite (drive_round_pull _ _ _ _ _ _ [] ltac:(rewrite Hc1; reflexivity)).
      rewrite Hc1.
      destruct (after_write_cursor fd answer (b :: tl) (consumer w) B Hts Hans Hwp)
        as (Hq' & Hk' & Hwp').
      set (d' := after_write _ _ _) in *.
      destruct (pull_at_eof toString driver (line_listener fd) file short
                  (with_consumer d' (pull toString driver (line_listener fd) file short w))
                  Heof Hr1 Ht1)
        as (_ & Hc2 & _ & Hcl2 & Hb2 & _).
      cbn [with_consumer listening consumer fs_closes self] in Hc2, Hcl2.
      rewrite Hl1 in Hc2. rewrite Hc2, Hcl2, Hcl1, Hfd1.
      cbn [line_listener eof_event ev_err ev_eof console_log console fs_writes
           writePointer].
      rewrite Hq', Hk'.
      rewrite with_line_feeds_cons. change (len (with_line_feeds [])) with 0.
      repeat split; try assumption; try reflexivity; lia.
  - destruct (cut_lines_first _ _ _ _ Hcut) as (rest & -> & Hl0 & Hrest).
    apply Forall_cons in Hshort as [Hlen Hshort].
    destruct (pull_in_file toString driver (line_listener fd) file short _ _ Hin)
      as (HA & _).
    destruct (HA l0 rest eq_refl Hl0 Hlen) as (Hin1 & Hdel).
    destruct Hdel as (Hl1 & Hc1 & _ & Hcl1 & Hfd1 & _).
    rewrite Hlisten in Hl1, Hc1. rewrite line_listener_line, Hq in Hc1.
    cbn [app] in Hc1.
    cbn zeta. cbn [app length]. rewrite drive_S.
    rewrite (drive_round_pull _ _ _ _ _ _ [] ltac:(rewrite Hc1; reflexivity)).
    rewrite Hc1.
    destruct (after_write_cursor fd answer l0 (consumer w) B Hts Hans Hwp)
      as (Hq' & Hk' & Hwp').
    set (d' := after_write _ _ _) in *.
    specialize (IH (with_consumer d' (pull toString driver (line_listener fd) file short w))
                   rest tl (B + (len l0 + 1))
                   (in_file_with_consumer _ _ _ _ _ _ Hin1) Hl1 Hq' Hwp'
                   Hrest Hshort Htl).
    cbn zeta in IH. destruct IH as (H1 & H2 & H3 & H4 & H5).
    cbn [with_consumer consumer fs_closes self] in H1, H4.
    rewrite H1, H4, Hk', Hcl1, Hfd1.
    rewrite with_line_feeds_cons.
    repeat split; try assumption; try reflexivity; lia.
Qed.

(** X16. On ASCII text whose lines fit the buffer the driver comes to
    an end whatever the writes answer, failures included.  Take a
    decoding that gives at most one character for a byte and writes that
    report at most one byte for a character, so that every write lies
    behind the bytes still to be read.  After one round for each line
    the driver has printed [End of file reached], once and nothing else,
    no write is in flight, the reader has closed the file, once, and
    [writePointer] has not passed the end of the file, a line feed
    counted for a last line that has none. *)
Theorem drive_reaches_the_end fd mem file short answer :
  len mem = BUF_SIZE ->
  (forall b, len (toString b) <= len b) -> modest answer ->
  Forall (fun l => len l < BUF_SIZE) (file_lines file) ->
  let w := drive (length (file_lines file)) fd file short answer
                 (drive_start fd mem file short) in
  console (consumer w) = [LogEndOfFile] /\
  fs_writes (consumer w) = [] /\
  _buffer (self w) = None /\
  fs_closes w = [fd] /\
  0 <= writePointer (consumer w) <= len (with_line_feeds (file_lines file)).
Proof.
  intros Hmem Hts Hans Hshort. unfold file_lines in *.
  destruct (cut_lines file) as [ls tl] eqn:Hcut.
  apply Forall_app in Hshort as [Hls Htl].
  assert (Htl' : len tl < BUF_SIZE).
  { destruct tl; [reflexivity|]. now apply Forall_inv in Htl. }
  pose proof (drive_to_the_end fd file short answer Hts Hans ls
                (on_line (init fd mem (Driver 0 [] []))) file tl 0
                (init_in_file driver fd mem _ file Hmem) eq_refl eq_refl
                ltac:(cbn; lia) Hcut Hls Htl') as H.
  cbn zeta in H. rewrite Z.add_0_l in H. exact H.
Qed.

Lemma drive_until_too_large fd file short answer :
  (forall b, len (toString b) <= len b) -> modest answer ->
  forall ls w bad B,
    in_file driver file false [] (with_line_feeds ls ++ bad) w ->
    listening w = true -> fs_writes (consumer w) = [] ->
    0 <= writePointer (consumer w) <= B ->
    Forall (fun l => (LF ∉ l) /\ len l < BUF_SIZE) ls ->
    LF ∉ take (Z.to_nat BUF_SIZE) bad -> BUF_SIZE <= len bad ->
    let w' := drive (length ls) fd file short answer
                    (pull toString driver (line_listener fd) file short w) in
    console (consumer w') = console (consumer w) ++ [LogError LineTooLarge] /\
    fs_writes (consumer w') = [] /\
    _buffer (self w') = None /\
    0 <= writePointer (consumer w') <= B + len (with_line_feeds ls).
Proof.
  intros Hts Hans.
  induction ls as [|l0 ls IH]; intros w bad B Hin Hlisten Hq Hwp Hls Hbad Hlen.
  - cbn [with_line_feeds map concat app] in Hin.
    destruct (pull_in_file toString driver (line_listener fd) file short _ _ Hin)
      as (_ & _ & _ & HD).
    destruct (HD Hbad Hlen) as (_ & Hc & _ & _ & Hb & _).
    rewrite Hlisten in Hc. cbn zeta. cbn [length drive]. rewrite Hc.
    cbn [line_listener too_large_event ev_err console_log console fs_writes
         writePointer].
    change (len (with_line_feeds [])) with 0.
    repeat split; try assumption; try reflexivity; lia.
  - apply Forall_cons in Hls as [[Hl0 Hshort] Hls].
    unfold with_line_feeds in Hin. cbn [map concat] in Hin.
    rewrite <- !app_assoc in Hin. cbn [app] in Hin.
    destruct (pull_in_file toString driver (line_listener fd) file short _ _ Hin)
      as (HA & _).
    destruct (HA l0 _ eq_refl Hl0 Hshort) as (Hin1 & Hdel).
    destruct Hdel as (Hl1 & Hc1 & _).
    rewrite Hlisten in Hl1, Hc1. rewrite line_listener_line, Hq in Hc1.
    cbn [app] in Hc1.
    cbn zeta. cbn [length]. rewrite drive_S.
    rewrite (drive_round_pull _ _ _ _ _ _ [] ltac:(rewrite Hc1; reflexivity)).
    rewrite Hc1.
    destruct (after_write_cursor fd answer l0 (consumer w) B Hts Hans Hwp)
      as (Hq' & Hk' & Hwp').
    set (d' := after_write _ _ _) in *.
    specialize (IH (with_consumer d' (pull toString driver (line_listener fd) file short w))
                   bad (B + (len l0 + 1))
                   (in_file_with_consumer _ _ _ _ _ _ Hin1) Hl1 Hq' Hwp'
                   Hls Hbad Hlen).
    cbn zeta in IH. destruct IH as (H1 & H2 & H3 & H4).
    cbn [with_consumer consumer] in H1.
    rewrite H1, Hk'. rewrite with_line_feeds_cons.
    repeat split; try assumption; try reflexivity; lia.
Qed.

(** X19. Take ASCII text as above: a decoding that gives at most one
    character for a byte and writes that report at most one byte for a
    character.  When the file goes on, after lines that fit the buffer,
    with [BUF_SIZE] bytes that hold no line feed, the driver handles the
    lines that fit, one round each, then prints the error of a line
    larger than the buffer and stops: nothing else is printed, no write
    is in flight, the reader is closed, and [writePointer] has not
    passed the place where the oversized chunk starts. *)
Theorem drive_stops_at_an_oversized_line fd mem file short answer ls bad :
  len mem = BUF_SIZE ->
  (forall b, len (toString b) <= len b) -> modest answer ->
  file = with_line_feeds ls ++ bad ->
  Forall (fun l => (LF ∉ l) /\ len l < BUF_SIZE) ls ->
  LF ∉ take (Z.to_nat BUF_SIZE) bad -> BUF_SIZE <= len bad ->
  let w := drive (length ls) fd file short answer (drive_start fd mem file short) in
  console (consumer w) = [LogError LineTooLarge] /\
  fs_writes (consumer w) = [] /\
  _buffer (self w) = None /\
  0 <= writePointer (consumer w) <= len (with_line_feeds ls).
Proof.
  intros Hmem Hts Hans Hfile Hls Hbad Hlen.
  pose proof (init_in_file driver fd mem (Driver 0 [] []) file Hmem) as Hin.
  rewrite Hfile in Hin at 2.
  pose proof (drive_until_too_large fd file short answer Hts Hans ls _ bad 0 Hin
                eq_refl eq_refl ltac:(cbn; lia) Hls Hbad Hlen) as H.
  cbn zeta in H. rewrite Z.add_0_l in H. exact H.
Qed.

(** *** The driver on the file as its own writes leave it *)

(** The utf8 encoding of a string. *)
Variable encode : list Z -> list Z.

(** [fs.write(fd, string, position, utf8, callback)] on the bytes of the
    file: the first [written] bytes of the encoded string replace the
    bytes at [position], and a file that ends before [position] is
    filled up with zeros first.  A write that fails leaves the file as
    it is. *)
Definition disk_write (rq : write_request) (res : write_result) (disk : list Z)
  : list Z :=
  match res with
  | WriteFailed _ => disk
  | WriteDone written =>
      let bytes := take (Z.to_nat written) (encode (wr_string rq)) in
      let position := Z.to_nat (wr_position rq) in
      take position disk ++ replicate (position - length disk) 0
        ++ bytes ++ drop (position + length bytes) disk
  end.

(** One round of the driver on the file as it is: the write in flight
    completes as [answer] says and its bytes are in the file, its
    callback calls [next()], the reads are answered from the file as it
    is now and the queued ticks run. *)
Definition disk_round (fd : Z) (short : Z -> Z)
    (answer : write_request -> write_result) (st : list Z * world driver)
  : list Z * world driver :=
  match fs_writes (consumer (snd st)) with
  | [] => st
  | rq :: _ =>
      let disk := disk_write rq (answer rq) (fst st) in
      (disk,
       drain (line_listener fd)
         (settle toString driver (line_listener fd) (Z.to_nat (BUF_SIZE + 1))
                 disk short (fs_write_complete fd (answer rq) (snd st))))
  end.

Fixpoint disk_drive (n : nat) (fd : Z) (short : Z -> Z)
    (answer : write_request -> write_result) (st : list Z * world driver)
  : list Z * world driver :=
  match n with
  | O => st
  | S n' => disk_drive n' fd short answer (disk_round fd short answer st)
  end.

(** The reader is in the middle of the file with the bytes [s] to
    deliver, one write is in flight, and it ends at or before the place
    where [s] starts in the file; from that place on the file is as it
    was when it was opened. *)
Definition behind (fd : Z) (file disk : list Z) (w : world driver) : Prop :=
  exists s str,
    in_file driver file false [] s w /\ listening w = true /\
    fs_writes (consumer w) = [WriteRequest fd str (writePointer (consumer w))] /\
    0 <= writePointer (consumer w) /\
    writePointer (consumer w) + len str <= len file - len s /\
    length disk = length file /\
    drop (Z.to_nat (len file - len s)) disk
    = drop (Z.to_nat (len file - len s)) file.

Lemma disk_write_behind rq res disk (P : Z) :
  0 <= wr_position rq ->
  match res with
  | WriteFailed _ => True
  | WriteDone written => 0 <= written <= len (wr_string rq)
  end ->
  wr_position rq + len (wr_string rq) <= P -> P <= len disk ->
  length (disk_write rq res disk) = length disk /\
  drop (Z.to_nat P) (disk_write rq res disk) = drop (Z.to_nat P) disk.
Proof.
  intros Hpos Hres Hend HP. destruct res as [code|written]; [auto|].
  unfold disk_write. cbv zeta.
  set (bytes := take (Z.to_nat written) (encode (wr_string rq))).
  assert (Hb : (length bytes <= Z.to_nat written)%nat)
    by (unfold bytes; rewrite length_take; lia).
  unfold len in *.
  replace (Z.to_nat (wr_position rq) - length disk)%nat with 0%nat by lia.
  cbn [replicate app].
  assert (Htake : length (take (Z.to_nat (wr_position rq)) disk)
                  = Z.to_nat (wr_position rq))
    by (rewrite length_take; lia).
  split.
  - rewrite !length_app, Htake, length_drop. lia.
  - rewrite drop_app_ge by lia. rewrite Htake.
    rewrite drop_app_ge by lia. rewrite drop_drop. f_equal. lia.
Qed.

Lemma in_file_position file s w :
  in_file driver file false [] s w ->
  len file - len s <= _readPointer (self w) /\ fs_reads w = [].
Proof.
  intros (fd & pre & win & post & rp & Hself & _ & Hrp & Hrds & _ & ->).
  rewrite Hself. cbn [reader_at _readPointer]. split; [|exact Hrds].
  rewrite len_app. unfold len. rewrite length_drop.
  pose proof (len_nonneg win). unfold len in *. lia.
Qed.

Lemma pull_behind fd file disk short s w :
  (forall b, len (toString b) <= len b) ->
  in_file driver file false [] s w -> listening w = true ->
  fs_writes (consumer w) = [] ->
  0 <= writePointer (consumer w) <= len file - len s ->
  length disk = length file ->
  drop (Z.to_nat (len file - len s)) disk = drop (Z.to_nat (len file - len s)) file ->
  behind fd file disk (pull toString driver (line_listener fd) file short w) \/
  done_reading driver (pull toString driver (line_listener fd) file short w).
Proof.
  intros Hts Hin Hlisten Hq Hwp Hlen Hdrop.
  destruct (pull_in_file toString driver (line_listener fd) file short _ _ Hin)
    as (HA & HB & HC & HD).
  destruct (stream_cases s)
    as [(l & rest & -> & Hl & Hfit) | [(Hs & Hne & Hfit) | [-> | (Hs & Hbig)]]].
  - left. destruct (HA l rest eq_refl Hl Hfit) as (Hin1 & Hdel).
    destruct Hdel as (Hl1 & Hc1 & _).
    rewrite Hlisten in Hl1, Hc1. rewrite line_listener_line, Hq in Hc1.
    cbn [app] in Hc1.
    rewrite len_app, len_cons in *.
    pose proof (written_line_len l Hts) as Hstr.
    pose proof (len_nonneg l). pose proof (len_nonneg rest).
    exists rest, (spec_transform (toString (strip_cr l)) ++ [LF]).
    rewrite Hc1. cbn [fs_writes writePointer].
    repeat split; try assumption; try lia.
    replace (Z.to_nat (len file - len rest))
      with (Z.to_nat (len file - (len l + (1 + len rest)))
            + Z.to_nat (len l + 1))%nat by lia.
    rewrite <- !drop_drop. now rewrite Hdrop.
  - right. destruct (HB Hs Hne Hfit) as ((He & Hr & _) & Hdel).
    destruct Hdel as (_ & _ & _ & _ & _ & Hrds & Ht).
    unfold done_reading. auto.
  - right. destruct (HC eq_refl) as (_ & _ & _ & _ & Hb & Hr & Hrds & Ht).
    unfold done_reading. auto.
  - right. destruct (HD Hs Hbig) as (_ & _ & _ & _ & Hb & Hr & Hrds & Ht).
    unfold done_reading. auto.
Qed.

Lemma disk_round_pull fd short answer disk w rq rest :
  fs_writes (consumer w) = rq :: rest ->
  disk_round fd short answer (disk, w)
  = (disk_write rq (answer rq) disk,
     pull toString driver (line_listener fd) (disk_write rq (answer rq) disk) short
          (with_consumer (after_write (answer rq) rest (consumer w)) w)).
Proof.
  intros Hq. unfold disk_round, pull, fs_write_complete, after_write.
  cbn [fst snd]. rewrite Hq. destruct (answer rq); reflexivity.
Qed.

(** A round on the file as it is and a round on the file as it was
    opened give the same state, and the writes stay behind. *)
Lemma disk_round_behind fd file short answer disk w :
  (forall b, len (toString b) <= len b) -> modest answer ->
  behind fd file disk w \/ done_reading driver w ->
  exists disk',
    disk_round fd short answer (disk, w)
    = (disk', drive_round fd file short answer w) /\
    (behind fd file disk' (drive_round fd file short answer w) \/
     done_reading driver (drive_round fd file short answer w)).
Proof.
  intros Hts Hans [Hw | Hw].
  - destruct Hw as (s & str & Hin & Hlisten & Hq & Hwp0 & Hwp & Hlen & Hdrop).
    set (rq := WriteRequest fd str (writePointer (consumer w))) in *.
    exists (disk_write rq (answer rq) disk).
    rewrite (disk_round_pull _ _ _ _ _ _ _ Hq), (drive_round_pull _ _ _ _ _ _ _ Hq).
    set (w1 := with_consumer (after_write (answer rq) [] (consumer w)) w).
    assert (Hin1 : in_file driver file false [] s w1)
      by (apply in_file_with_consumer; exact Hin).
    destruct (in_file_position file s w1 Hin1) as (Hrp & Hrds).
    pose proof (len_nonneg s) as Hs. pose proof (len_nonneg str) as Hstr.
    pose proof (Hans rq) as Hrq.
    destruct (disk_write_behind rq (answer rq) disk (len file - len s))
      as (Hlen' & Hdrop');
      [exact Hwp0 | exact Hrq | exact Hwp | unfold len in *; lia |].
    assert (Hagree : pull toString driver (line_listener fd)
                          (disk_write rq (answer rq) disk) short w1
                     = pull toString driver (line_listener fd) file short w1).
    { apply (pull_agree toString driver (line_listener fd) _ _ short
               (Z.to_nat (len file - len s))).
      - now rewrite Hdrop'.
      - split; [lia | rewrite Hrds; constructor]. }
    rewrite Hagree. split; [reflexivity|].
    apply (pull_behind fd file _ short s w1 Hts Hin1).
    + exact Hlisten.
    + unfold w1, after_write. destruct (answer rq); reflexivity.
    + unfold w1, after_write. cbn [with_consumer consumer].
      destruct (answer rq); cbn [writePointer wr_string rq] in *; lia.
    + congruence.
    + congruence.
  - destruct (fs_writes (consumer w)) as [|rq rest] eqn:Hq.
    + exists disk. unfold disk_round, drive_round. cbn [fst snd]. rewrite Hq. auto.
    + exists (disk_write rq (answer rq) disk).
      rewrite (disk_round_pull _ _ _ _ _ _ _ Hq), (drive_round_pull _ _ _ _ _ _ _ Hq).
      set (w1 := with_consumer (after_write (answer rq) rest (consumer w)) w).
      assert (Hw1 : done_reading driver w1) by exact Hw.
      destruct (done_reading_pull toString driver (line_listener fd)
                  file (disk_write rq (answer rq) disk) short w1 Hw1) as (Heq & Hdone).
      rewrite <- Heq. auto.
Qed.

Lemma disk_drive_behind fd file short answer :
  (forall b, len (toString b) <= len b) -> modest answer ->
  forall k disk w,
    behind fd file disk w \/ done_reading driver w ->
    snd (disk_drive k fd short answer (disk, w)) = drive k fd file short answer w.
Proof.
  intros Hts Hans. induction k as [|k IH]; intros disk w Hw; [reflexivity|].
  cbn [disk_drive drive].
  destruct (disk_round_behind fd file short answer disk w Hts Hans Hw)
    as (disk' & -> & Hw').
  now apply IH.
Qed.

Lemma drive_start_behind fd mem file short :
  len mem = BUF_SIZE -> (forall b, len (toString b) <= len b) ->
  behind fd file file (drive_start fd mem file short) \/
  done_reading driver (drive_start fd mem file short).
Proof.
  intros Hmem Hts.
  apply (pull_behind fd file file short file _ Hts
           (init_in_file driver fd mem (Driver 0 [] []) file Hmem));
    try reflexivity.
  cbn [on_line init with_listening consumer writePointer]. lia.
Qed.

Lemma disk_drive_add fd short answer k m :
  forall st,
    disk_drive (k + m) fd short answer st
    = disk_drive m fd short answer (disk_drive k fd short answer st).
Proof. induction k as [|k IH]; intros st; [reflexivity|]. cbn [Nat.add disk_drive]. apply IH. Qed.

Lemma disk_drive_idle fd short answer m st :
  fs_writes (consumer (snd st)) = [] -> disk_drive m fd short answer st = st.
Proof.
  intros Hq. induction m as [|m IH]; [reflexivity|].
  cbn [disk_drive]. unfold disk_round. rewrite Hq. exact IH.
Qed.

(** X20. Rewriting in place does not disturb the reading of ASCII text.
    Take a decoding that gives at most one character for a byte and
    writes that report at most one byte for a character.  Then the run
    in which every write changes the file and every read sees the file
    as the writes before it have left it goes, round after round,
    through the same states of the reader and of the driver as the run
    in which the reads see the file as it was when it was opened. *)
Theorem disk_run_is_drive fd mem file short answer k :
  len mem = BUF_SIZE ->
  (forall b, len (toString b) <= len b) -> modest answer ->
  snd (disk_drive k fd short answer (file, drive_start fd mem file short))
  = drive k fd file short answer (drive_start fd mem file short).
Proof.
  intros Hmem Hts Hans.
  apply (disk_drive_behind fd file short answer Hts Hans).
  now apply drive_start_behind.
Qed.

(** *** The file after the run *)

(** The bytes the driver writes for the line [l] of the file. *)
Definition written_line (l : list Z) : list Z :=
  encode (spec_transform (toString (strip_cr l)) ++ [LF]).

(** Every write puts all the bytes of its string into the file. *)
Definition complete (answer : write_request -> write_result) : Prop :=
  forall rq, answer rq = WriteDone (len (encode (wr_string rq))).

Lemma disk_write_complete fd str out file :
  disk_write (WriteRequest fd str (len out)) (WriteDone (len (encode str)))
             (out ++ drop (length out) file)
  = (out ++ encode str) ++ drop (length (out ++ encode str)) file.
Proof.
  unfold disk_write. cbn [wr_string wr_position]. cbv zeta.
  unfold len. rewrite !Nat2Z.id.
  rewrite (take_ge (encode str)) by lia.
  rewrite take_app_length.
  replace (length out - length (out ++ drop (length out) file))%nat with 0%nat
    by (rewrite length_app; lia).
  cbn [replicate app].
  rewrite drop_app_ge by lia.
  replace (length out + length (encode str) - length out)%nat
    with (length (encode str)) by lia.
  rewrite drop_drop, length_app, <- app_assoc. reflexivity.
Qed.

Lemma disk_contents fd file short answer :
  (forall b, len (toString b) <= len b) ->
  (forall s, len (encode s) <= len s) ->
  complete answer ->
  forall ls w s tl out,
    in_file driver file false [] s w -> listening w = true ->
    fs_writes (consumer w) = [] ->
    writePointer (consumer w) = len out -> len out <= len file - len s ->
    cut_lines s = (ls, tl) ->
    Forall (fun l => len l < BUF_SIZE) ls -> len tl < BUF_SIZE ->
    fst (disk_drive (length (ls ++ (if tl is [] then [] else [tl]))) fd short answer
           (out ++ drop (length out) file,
            pull toString driver (line_listener fd) file short w))
    = (out ++ concat (map written_line (ls ++ (if tl is [] then [] else [tl]))))
      ++ drop (length (out ++ concat (map written_line
                                        (ls ++ (if tl is [] then [] else [tl])))))
              file.
Proof.
  intros Hts Henc Hans.
  induction ls as [|l0 ls IH]; intros w s tl out Hin Hlisten Hq Hwp Hout Hcut Hshort Htl.
  - destruct (cut_lines_none _ _ Hcut) as [-> Habs].
    destruct tl as [|b tl].
    + cbn [app length disk_drive fst map concat]. now rewrite app_nil_r.
    + destruct (pull_in_file toString driver (line_listener fd) file short _ _ Hin)
        as (_ & HB & _).
      destruct (HB Habs ltac:(discriminate) Htl) as (_ & Hdel).
      destruct Hdel as (_ & Hc1 & _).
      rewrite Hlisten in Hc1. rewrite line_listener_line, Hq, Hwp in Hc1.
      cbn [app] in Hc1.
      cbn [app length disk_drive map concat]. rewrite app_nil_r.
      rewrite (disk_round_pull _ _ _ _ _ _ [] ltac:(rewrite Hc1; reflexivity)).
      cbn [fst]. rewrite Hans. cbn [wr_string].
      apply disk_write_complete.
  - destruct (cut_lines_first _ _ _ _ Hcut) as (rest & -> & Hl0 & Hrest).
    apply Forall_cons in Hshort as [Hfit Hshort].
    destruct (pull_in_file toString driver (line_listener fd) file short _ _ Hin)
      as (HA & _).
    destruct (HA l0 rest eq_refl Hl0 Hfit) as (Hin1 & Hdel).
    destruct Hdel as (Hl1 & Hc1 & _).
    rewrite Hlisten in Hl1, Hc1. rewrite line_listener_line, Hq, Hwp in Hc1.
    cbn [app] in Hc1.
    cbn [app length disk_drive map concat].
    rewrite (disk_round_pull _ _ _ _ _ _ [] ltac:(rewrite Hc1; reflexivity)).
    rewrite Hans. cbn [wr_string]. rewrite disk_write_complete.
    fold (written_line l0).
    set (out1 := out ++ written_line l0).
    set (w1 := with_consumer _ _).
    assert (Hin2 : in_file driver file false [] rest w1)
      by (apply in_file_with_consumer; exact Hin1).
    destruct (in_file_position file rest w1 Hin2) as (Hrp & Hrds).
    pose proof (written_line_len l0 Hts) as Hstr.
    pose proof (Henc (spec_transform (toString (strip_cr l0)) ++ [LF])) as Hl0enc.
    fold (written_line l0) in Hl0enc.
    rewrite len_app, len_cons in Hout.
    pose proof (len_nonneg l0). pose proof (len_nonneg rest).
    pose proof (len_nonneg out). pose proof (len_nonneg (written_line l0)).
    assert (Hout1 : len out1 <= len file - len rest)
      by (unfold out1; rewrite len_app; lia).
    assert (Hagree : pull toString driver (line_listener fd)
                          (out1 ++ drop (length out1) file) short w1
                     = pull toString driver (line_listener fd) file short w1).
    { apply (pull_agree toString driver (line_listener fd) _ _ short
               (Z.to_nat (len file - len rest))).
      - rewrite drop_app_ge by (unfold len in *; lia).
        rewrite drop_drop. f_equal. unfold len in *. lia.
      - split; [lia | rewrite Hrds; constructor]. }
    rewrite Hagree.
    rewrite (IH w1 rest tl out1 Hin2 Hl1); try assumption.
    + unfold out1. now rewrite <- !app_assoc.
    + unfold w1, after_write. reflexivity.
    + unfold w1, after_write. cbn [with_consumer consumer writePointer].
      rewrite Hc1. cbn [writePointer]. unfold out1. rewrite len_app. reflexivity.
Qed.

Lemma complete_modest answer :
  (forall s, len (encode s) <= len s) -> complete answer -> modest answer.
Proof.
  intros Henc Hans rq. rewrite Hans. split; [apply len_nonneg | apply Henc].
Qed.

(** X21. What the file holds after the run, for ASCII text.  Take a
    decoding and an encoding that give at most one character for a byte
    and one byte for a character, writes that put all their bytes into
    the file, and a file whose lines fit the buffer.  After one round for
    each line, and after any number of rounds more, nothing is in
    flight, the reader is closed, and the file holds the transformed
    lines one after the other, each without the carriage return that
    ended it and with a line feed, also the last line when it had none,
    followed by the bytes of the file as it was that lie beyond them:
    the file is never cut, so when carriage returns were dropped as many
    bytes of its old end are left over. *)
Theorem rewritten_file fd mem file short answer n :
  len mem = BUF_SIZE ->
  (forall b, len (toString b) <= len b) ->
  (forall s, len (encode s) <= len s) ->
  complete answer ->
  Forall (fun l => len l < BUF_SIZE) (file_lines file) ->
  (length (file_lines file) <= n)%nat ->
  let st := disk_drive n fd short answer (file, drive_start fd mem file short) in
  fst st = concat (map written_line (file_lines file))
           ++ drop (length (concat (map written_line (file_lines file)))) file /\
  fs_writes (consumer (snd st)) = [] /\
  _buffer (self (snd st)) = None.
Proof.
  intros Hmem Hts Henc Hans Hshort Hn.
  pose proof (complete_modest answer Henc Hans) as Hmod.
  replace n with (length (file_lines file) + (n - length (file_lines file)))%nat
    by lia.
  cbv zeta. rewrite disk_drive_add.
  set (st := disk_drive (length (file_lines file)) fd short answer
               (file, drive_start fd mem file short)).
  assert (Hsnd : snd st = drive (length (file_lines file)) fd file short answer
                                (drive_start fd mem file short)).
  { apply (disk_drive_behind fd file short answer Hts Hmod).
    now apply drive_start_behind. }
  assert (Hfst : fst st
                 = concat (map written_line (file_lines file))
                   ++ drop (length (concat (map written_line (file_lines file)))) file).
  { unfold st. clear st Hsnd Hn. unfold file_lines in *.
    destruct (cut_lines file) as [ls tl] eqn:Hcut.
    apply Forall_app in Hshort as [Hls Htl].
    assert (Htl' : len tl < BUF_SIZE).
    { destruct tl; [reflexivity|]. now apply Forall_inv in Htl. }
    pose proof (len_nonneg file).
    exact (disk_contents fd file short answer Hts Henc Hans ls
             (on_line (init fd mem (Driver 0 [] []))) file tl []
             (init_in_file driver fd mem _ file Hmem) eq_refl eq_refl eq_refl
             ltac:(change (len (@nil Z)) with 0; lia) Hcut Hls Htl'). }
  assert (Hend : fs_writes (consumer (snd st)) = [] /\ _buffer (self (snd st)) = None).
  { rewrite Hsnd. clear st Hsnd Hfst Hn. unfold file_lines in *.
    destruct (cut_lines file) as [ls tl] eqn:Hcut.
    apply Forall_app in Hshort as [Hls Htl].
    assert (Htl' : len tl < BUF_SIZE).
    { destruct tl; [reflexivity|]. now apply Forall_inv in Htl. }
    pose proof (drive_to_the_end fd file short answer Hts Hmod ls
                  (on_line (init fd mem (Driver 0 [] []))) file tl 0
                  (init_in_file driver fd mem _ file Hmem) eq_refl eq_refl
                  ltac:(cbn; lia) Hcut Hls Htl') as H.
    cbn zeta in H. destruct H as (_ & Hq & Hb & _). split; assumption. }
  destruct Hend as (Hq & Hb).
  rewrite (disk_drive_idle fd short answer _ st Hq).
  repeat split; assumption.
Qed.

End Driver.

(** ** Concrete runs *)

(** Buffer memory that happens to hold zeros. *)
Definition zeroed : list Z := replicate (Z.to_nat BUF_SIZE) 0.

(** On bytes below 0x80 the utf8 decoding gives the code unit of the
    same value; the runs below hold ASCII only, where this is
    [Buffer.toString]. *)
Definition ascii_toString (bytes : list Z) : list Z := bytes.

(** A listener that records what it is given. *)
Definition record (e : line_event) (log : list line_event) : list line_event :=
  log ++ [e].

(** A reader on descriptor 3 with the recording listener registered. *)
Definition fresh : world (list line_event) := on_line (init 3 zeroed []).

(** The file system that returns all it is asked for. *)
Definition greedy (position : Z) : Z := BUF_SIZE.

Abbreviation next_r := (next ascii_toString (list line_event) record).
Abbreviation pull_r := (pull ascii_toString (list line_event) record).
Abbreviation pulls_r := (pulls ascii_toString (list line_event) record).
Abbreviation read_r := (fs_read_complete ascii_toString (list line_event) record).
Abbreviation tick_r := (run_tick record).
Abbreviation reachable_r :=
  (reachable ascii_toString (list line_event) record 3 zeroed []).
Abbreviation in_file_r := (in_file (list line_event)).

(** A reader closed by its consumer while its first read is in flight,
    after the tick that drops the listeners. *)
Definition abandoned : world (list line_event) :=
  tick_r (close (next_r fresh)).

(** The reader after it has read the four bytes [abc CR] and met the end
    of the file. *)
Definition after_abc_cr : world (list line_event) :=
  tick_r (read_r (ReadDone []) (read_r (ReadDone [97; 98; 99; 13]) (next_r fresh))).

Lemma len_zeroed : len zeroed = BUF_SIZE.
Proof. unfold zeroed, len. rewrite length_replicate. reflexivity. Qed.

Lemma fresh_in_file file : in_file_r file false [] file fresh.
Proof. apply init_in_file. apply len_zeroed. Qed.

Lemma reachable_fresh : reachable_r fresh.
Proof. eapply reach_step; [apply reach_init | apply step_on]. Qed.

Lemma reachable_first_read : reachable_r (next_r fresh).
Proof. eapply reach_step; [apply reachable_fresh | apply step_next]. Qed.

Lemma reachable_abandoned : reachable_r abandoned.
Proof.
  unfold abandoned.
  eapply reach_step; [|apply step_tick; vm_compute; discriminate].
  eapply reach_step; [|apply step_close].
  apply reachable_first_read.
Qed.

Lemma reachable_after_abc_cr : reachable_r after_abc_cr.
Proof.
  unfold after_abc_cr.
  eapply reach_step; [|apply step_tick; vm_compute; discriminate].
  eapply reach_step;
    [|apply (step_read _ _ _ _ (ReadRequest 4 (BUF_SIZE - 4) 4) []);
      vm_compute; reflexivity].
  eapply reach_step;
    [|apply (step_read _ _ _ _ (ReadRequest 0 BUF_SIZE 0) []);
      vm_compute; reflexivity].
  apply reachable_first_read.
Qed.

Ltac no_line_feed :=
  repeat (apply not_elem_of_cons; split; [discriminate|]); apply not_elem_of_nil.

Lemma cut_lines_plain (l : list Z) : LF ∉ l -> cut_lines l = ([], l).
Proof.
  induction l as [|b l IH]; intros Hl; [reflexivity|].
  apply not_elem_of_cons in Hl as [Hb Hl].
  cbn [cut_lines]. rewrite IH by assumption.
  destruct (Z.eqb_spec b LF); [congruence | reflexivity].
Qed.

Lemma cut_lines_line (l rest : list Z) :
  LF ∉ l ->
  cut_lines (l ++ LF :: rest) = (l :: fst (cut_lines rest), snd (cut_lines rest)).
Proof.
  induction l as [|b l IH]; intros Hl.
  - cbn [app cut_lines]. destruct (cut_lines rest). rewrite Z.eqb_refl. reflexivity.
  - apply not_elem_of_cons in Hl as [Hb Hl].
    cbn [app cut_lines]. rewrite IH by assumption.
    destruct (Z.eqb_spec b LF); [congruence | reflexivity].
Qed.

Lemma no_lf_replicate (n : nat) (b : Z) : b <> LF -> LF ∉ replicate n b.
Proof. intros Hb [H _]%elem_of_replicate. congruence. Qed.

(** *** Where the code departs from a claim *)

(** C1 fails on a chunk of [BUF_SIZE] bytes without a line feed: the
    file has no line feed and a trailing chunk that is not empty, and the
    first [next()] gives the error of a line larger than the buffer, not
    the chunk. *)
Lemma oversized_chunk_is_refused :
  let file := replicate (Z.to_nat BUF_SIZE) 97 in
  let w := pull_r file greedy fresh in
  file_lines file = [file] /\
  emitted w = [too_large_event] /\ consumer w = [too_large_event] /\
  _buffer (self w) = None.
Proof.
  cbv zeta.
  assert (Hlf : LF ∉ replicate (Z.to_nat BUF_SIZE) 97) by (apply no_lf_replicate; discriminate).
  assert (Hlen : len (replicate (Z.to_nat BUF_SIZE) 97) = BUF_SIZE).
  { unfold len. rewrite length_replicate. reflexivity. }
  split.
  { unfold file_lines. rewrite cut_lines_plain by assumption.
    destruct (replicate (Z.to_nat BUF_SIZE) 97) eqn:E; [discriminate Hlen | reflexivity]. }
  destruct (pull_in_file ascii_toString _ record _ greedy _ _
              (fresh_in_file (replicate (Z.to_nat BUF_SIZE) 97)))
    as (_ & _ & _ & HD).
  destruct HD as (_ & Hc & He & _ & Hb & _).
  { rewrite take_ge; [assumption | unfold len in Hlen; lia]. }
  { lia. }
  rewrite Hc, He, Hb. repeat split; reflexivity.
Qed.

(** C4 fails on a file that ends in a carriage return: of the four bytes
    [abc CR] the reader delivers [abc]. *)
Lemma final_carriage_return_is_stripped :
  let w := pull_r [97; 98; 99; 13] greedy fresh in
  emitted w = [LineEvent None false [97; 98; 99]] /\
  consumer w = [LineEvent None false [97; 98; 99]].
Proof.
  cbv zeta.
  destruct (pull_in_file ascii_toString _ record _ greedy _ _
              (fresh_in_file [97; 98; 99; 13]))
    as (_ & HB & _ & _).
  destruct HB as (_ & Hdel).
  { no_line_feed. }
  { discriminate. }
  { reflexivity. }
  destruct Hdel as (_ & Hc & He & _).
  rewrite Hc, He. split; reflexivity.
Qed.

(** C5 fails after the same file: the state is reachable and [_pos] is
    one more than [_end]. *)
Lemma window_start_passes_window_end :
  reachable_r after_abc_cr /\
  _pos (self after_abc_cr) = 5 /\ _end (self after_abc_cr) = 4.
Proof.
  split; [apply reachable_after_abc_cr|]. split; vm_compute; reflexivity.
Qed.

(** C6 fails when the read of an abandoned reader fails: the reader is
    closed, its listeners are gone, and the error is passed to [emit]. *)
Lemma stale_read_error_is_emitted :
  reachable_r abandoned /\
  _buffer (self abandoned) = None /\
  fs_reads abandoned = [ReadRequest 0 BUF_SIZE 0] /\
  nextTicks abandoned = [] /\
  emitted abandoned = [] /\
  emitted (read_r (ReadFailed 5) abandoned) = [LineEvent (Some (FsError 5)) false []] /\
  consumer (read_r (ReadFailed 5) abandoned) = [].
Proof.
  split; [apply reachable_abandoned|]. repeat split; vm_compute; reflexivity.
Qed.

(** C8 fails on a line of [BUF_SIZE - 1] characters that CR LF ends: the
    carriage return is the byte that fills the buffer. *)
Lemma crlf_line_of_full_length_is_refused :
  let text := replicate (Z.to_nat (BUF_SIZE - 1)) 97 in
  let w := pull_r (text ++ [CR; LF]) greedy fresh in
  len text = BUF_SIZE - 1 /\
  file_lines (text ++ [CR; LF]) = [text ++ [CR]] /\
  strip_cr (text ++ [CR]) = text /\
  emitted w = [too_large_event] /\ _buffer (self w) = None.
Proof.
  cbv zeta.
  set (text := replicate (Z.to_nat (BUF_SIZE - 1)) 97).
  assert (Hlen : len text = BUF_SIZE - 1).
  { unfold text, len. rewrite length_replicate. reflexivity. }
  assert (Hlf : LF ∉ text ++ [CR]).
  { intros [H|H]%elem_of_app.
    - revert H. apply no_lf_replicate. discriminate.
    - apply list_elem_of_singleton in H. discriminate H. }
  split; [exact Hlen|]. split; [|split; [apply strip_cr_drops|]].
  { unfold file_lines.
    replace (text ++ [CR; LF]) with ((text ++ [CR]) ++ LF :: [])
      by (rewrite <- app_assoc; reflexivity).
    rewrite cut_lines_line by assumption. reflexivity. }
  destruct (pull_in_file ascii_toString _ record _ greedy _ _
              (fresh_in_file (text ++ [CR; LF])))
    as (_ & _ & _ & HD).
  destruct HD as (_ & _ & He & _ & Hb & _).
  { replace (text ++ [CR; LF]) with ((text ++ [CR]) ++ [LF])
      by (rewrite <- app_assoc; reflexivity).
    rewrite take_app_le, take_ge; [assumption | |];
      rewrite length_app; unfold len in Hlen; cbn [length]; lia. }
  { rewrite len_app. change (len [CR; LF]) with 2. lia. }
  rewrite He, Hb. split; reflexivity.
Qed.

Abbreviation next_d := (next ascii_toString driver (line_listener 3)).
Abbreviation read_d := (fs_read_complete ascii_toString driver (line_listener 3)).
Abbreviation tick_d := (run_tick (line_listener 3)).
Abbreviation write_d := (fs_write_complete ascii_toString 3).

(** The driver on the file [ab LF cd LF], read at once: the first line
    has been delivered and its write is in flight. *)
Definition first_write_in_flight : world driver :=
  tick_d (read_d (ReadDone (units "ab" ++ [LF] ++ units "cd" ++ [LF]))
                 (next_d (on_line (init 3 zeroed (Driver 0 [] []))))).


(** *** The theorems at concrete inputs *)

Lemma orderly_read_witness :
  let file := units "ab" ++ [CR; LF] ++ units "cd" in
  len zeroed = BUF_SIZE /\
  Forall (fun l => len l < BUF_SIZE) (file_lines file) /\
  let w := pulls_r (length (file_events ascii_toString file)) file greedy fresh in
  emitted w = file_events ascii_toString file /\
  consumer w = deliver_all (list line_event) record (file_events ascii_toString file) [] /\
  length (file_events ascii_toString file) =
    (count_occ Z.eq_dec file LF +
     (if snd (cut_lines file) is [] then 0 else 1) + 1)%nat /\
  _buffer (self w) = None /\ fs_closes w = [3].
Proof.
  cbv zeta. split; [apply len_zeroed|].
  assert (H : Forall (fun l => len l < BUF_SIZE)
                (file_lines (units "ab" ++ [CR; LF] ++ units "cd"))).
  { repeat constructor. }
  split; [exact H|].
  apply (orderly_read_delivers_every_line ascii_toString (list line_event) record
           3 zeroed [] _ greedy len_zeroed H).
Defined.

Lemma carriage_return_witness :
  let file := units "ab" ++ [CR; LF] in
  in_file_r file false [] file fresh /\ (LF ∉ units "ab") /\ len (units "ab") + 1 < BUF_SIZE /\
  delivered (list line_event) record (line_event_of ascii_toString (units "ab")) fresh
            (pull_r file greedy fresh).
Proof.
  cbv zeta.
  assert (Hlf : LF ∉ units "ab") by no_line_feed.
  assert (Hlen : len (units "ab") + 1 < BUF_SIZE) by reflexivity.
  split; [apply fresh_in_file|]. split; [exact Hlf|]. split; [exact Hlen|].
  destruct (carriage_return_stripped_at_line_end ascii_toString (list line_event)
              record _ greedy _ _ _ (fresh_in_file (units "ab" ++ [CR; LF])) Hlf Hlen)
    as (H & _).
  apply (H []). reflexivity.
Defined.

Lemma window_indices_witness :
  reachable_r after_abc_cr /\
  0 <= _pos (self after_abc_cr) <= BUF_SIZE /\
  0 <= _end (self after_abc_cr) <= BUF_SIZE /\
  (_pos (self after_abc_cr) <= _end (self after_abc_cr) \/
   _eof (self after_abc_cr) = true /\
   _pos (self after_abc_cr) = _end (self after_abc_cr) + 1).
Proof.
  split; [apply reachable_after_abc_cr|].
  apply (window_indices ascii_toString (list line_event) record 3 zeroed []
           after_abc_cr reachable_after_abc_cr).
Defined.

Lemma stale_read_witness :
  reachable_r abandoned /\ _reading (self abandoned) = false /\
  fs_reads abandoned = [ReadRequest 0 BUF_SIZE 0] /\
  read_r (ReadDone [97; 10]) abandoned = with_fs_reads [] abandoned.
Proof.
  assert (Hrd : _reading (self abandoned) = false) by (vm_compute; reflexivity).
  assert (Hq : fs_reads abandoned = [ReadRequest 0 BUF_SIZE 0]) by (vm_compute; reflexivity).
  split; [apply reachable_abandoned|]. split; [exact Hrd|]. split; [exact Hq|].
  apply (stale_read_dropped ascii_toString (list line_event) record 3 zeroed []
           abandoned _ _ (ReadDone [97; 10]) reachable_abandoned Hrd Hq).
Defined.

Lemma next_while_reading_witness :
  reachable_r (next_r fresh) /\
  _buffer (self (next_r fresh)) <> None /\ fs_reads (next_r fresh) <> [] /\
  emitted (next_r (next_r fresh))
    = emitted (next_r fresh) ++ [LineEvent (Some AlreadyInCourse) false []] /\
  consumer (next_r (next_r fresh))
    = (if listening (next_r fresh)
       then record (LineEvent (Some AlreadyInCourse) false []) (consumer (next_r fresh))
       else consumer (next_r fresh)) /\
  _buffer (self (next_r (next_r fresh))) = None /\
  fs_closes (next_r (next_r fresh)) = [3].
Proof.
  assert (Hb : _buffer (self (next_r fresh)) <> None) by (vm_compute; discriminate).
  assert (Hq : fs_reads (next_r fresh) <> []) by (vm_compute; discriminate).
  split; [apply reachable_first_read|]. split; [exact Hb|]. split; [exact Hq|].
  destruct (next_while_reading ascii_toString (list line_event) record 3 zeroed []
              _ reachable_first_read Hb Hq)
    as ((H1 & H2 & _ & _ & H5 & _ & _ & _ & H9) & _).
  repeat split; assumption.
Defined.

Lemma line_length_limit_witness :
  let text := replicate (Z.to_nat (BUF_SIZE - 1)) 97 in
  in_file_r (text ++ [LF]) false [] (text ++ [LF]) fresh /\
  delivered (list line_event) record (line_event_of ascii_toString (strip_cr text))
    fresh (pull_r (text ++ [LF]) greedy fresh) /\
  finished (list line_event) record too_large_event fresh
    (pull_r (replicate (Z.to_nat BUF_SIZE) 97) greedy fresh).
Proof.
  cbv zeta. split; [apply fresh_in_file|]. split.
  - destruct (line_length_limit ascii_toString (list line_event) record _ greedy _ _
                (fresh_in_file (replicate (Z.to_nat (BUF_SIZE - 1)) 97 ++ [LF])))
      as (H & _ & _).
    apply (H _ []).
    + reflexivity.
    + apply no_lf_replicate. discriminate.
    + unfold len. rewrite length_replicate. unfold BUF_SIZE. lia.
  - destruct (line_length_limit ascii_toString (list line_event) record _ greedy _ _
                (fresh_in_file (replicate (Z.to_nat BUF_SIZE) 97)))
      as (_ & _ & H).
    apply H.
    + rewrite take_ge.
      * apply no_lf_replicate. discriminate.
      * rewrite length_replicate. unfold BUF_SIZE. lia.
    + unfold len. rewrite length_replicate. unfold BUF_SIZE. lia.
Defined.

Lemma close_idempotent_witness :
  reachable_r fresh /\
  close (close fresh) = close fresh /\ fs_closes (close (close fresh)) = [3].
Proof.
  split; [apply reachable_fresh|].
  apply (close_idempotent ascii_toString (list line_event) record 3 zeroed []
           fresh reachable_fresh).
Defined.


(** *** More theorems at concrete inputs *)

Abbreviation step_r := (step ascii_toString (list line_event) record).

(** The file system that writes all it is given. *)
Definition thorough (rq : write_request) : write_result :=
  WriteDone (len (wr_string rq)).

Lemma ascii_toString_len (b : list Z) : len (ascii_toString b) <= len b.
Proof. unfold ascii_toString. lia. Qed.

Lemma thorough_modest : modest thorough.
Proof. intros rq. unfold thorough. pose proof (len_nonneg (wr_string rq)). lia. Qed.

Lemma len_replicate_buffer (b : Z) : len (replicate (Z.to_nat BUF_SIZE) b) = BUF_SIZE.
Proof. unfold len. rewrite length_replicate. unfold BUF_SIZE. lia. Qed.

Lemma no_lf_in_full_buffer :
  LF ∉ take (Z.to_nat BUF_SIZE) (replicate (Z.to_nat BUF_SIZE) 98).
Proof.
  rewrite take_ge by (rewrite length_replicate; lia).
  apply no_lf_replicate. discriminate.
Qed.

Lemma transform_needs_a_pair_witness :
  (count_occ Z.eq_dec (units "say " ++ [DQUOTE] ++ units "abc") DQUOTE < 2)%nat /\
  transform (units "say " ++ [DQUOTE] ++ units "abc")
  = Some (units "say " ++ [DQUOTE] ++ units "abc").
Proof.
  assert (H : (count_occ Z.eq_dec (units "say " ++ [DQUOTE] ++ units "abc") DQUOTE < 2)%nat)
    by (vm_compute; lia).
  split; [exact H|]. apply (transform_needs_a_pair _ H).
Defined.

Lemma _find_eol_witness :
  let r := Reader 3 (Some [97; 10; 98; 10]) 4 0 false false 4 in
  _pos r <= _end r /\
  _pos r <= _find_eol r <= _end r /\
  (_find_eol r < _end r -> byte_at (buffer_bytes r) (_find_eol r) = Some 10) /\
  (forall j, _pos r <= j < _find_eol r -> byte_at (buffer_bytes r) j <> Some 10).
Proof.
  cbv zeta.
  assert (H : _pos (Reader 3 (Some [97; 10; 98; 10]) 4 0 false false 4)
              <= _end (Reader 3 (Some [97; 10; 98; 10]) 4 0 false false 4))
    by (cbn; lia).
  split; [exact H|]. apply (_find_eol_first_line_feed _ H).
Defined.

Lemma _refill_witness :
  let w := World (Reader 3 (Some [120; 10; 97; 98]) 4 2 false true 4)
                 true (@nil line_event) [] [] [] [] in
  exists buf',
    _buffer (self (_refill _ w)) = Some buf' /\
    length buf' = length [120; 10; 97; 98] /\
    _pos (self (_refill _ w)) = 0 /\
    _end (self (_refill _ w)) = _end (self w) - _pos (self w) /\
    byte_range buf' 0 (_end (self w) - _pos (self w))
      = byte_range [120; 10; 97; 98] (_pos (self w)) (_end (self w)) /\
    _readPointer (self (_refill _ w)) = _readPointer (self w) /\
    fs_reads (_refill _ w)
      = fs_reads w ++ [ReadRequest (_end (self w) - _pos (self w))
                                   (BUF_SIZE - (_end (self w) - _pos (self w)))
                                   (_readPointer (self w))] /\
    emitted (_refill _ w) = emitted w /\ nextTicks (_refill _ w) = nextTicks w.
Proof.
  cbv zeta.
  apply (_refill_keeps_window (list line_event)
           (World (Reader 3 (Some [120; 10; 97; 98]) 4 2 false true 4)
                  true (@nil line_event) [] [] [] [])
           [120; 10; 97; 98]); cbn; (reflexivity || lia).
Defined.

Lemma readPointer_witness :
  reachable_r (next_r fresh) /\
  rtc step_r (next_r fresh) (read_r (ReadDone [97; 10]) (next_r fresh)) /\
  0 <= _readPointer (self (next_r fresh))
    <= _readPointer (self (read_r (ReadDone [97; 10]) (next_r fresh))).
Proof.
  assert (Hs : rtc step_r (next_r fresh) (read_r (ReadDone [97; 10]) (next_r fresh))).
  { apply rtc_once.
    apply (step_read _ _ _ _ (ReadRequest 0 BUF_SIZE 0) []); vm_compute; reflexivity. }
  split; [apply reachable_first_read|]. split; [exact Hs|].
  apply (readPointer_never_decreases ascii_toString (list line_event) record
           3 zeroed [] _ _ reachable_first_read Hs).
Defined.

Lemma one_read_in_flight_witness :
  reachable_r (next_r fresh) /\
  (length (fs_reads (next_r fresh)) <= 1)%nat /\
  Forall room_request (fs_reads (next_r fresh)).
Proof.
  split; [apply reachable_first_read|].
  apply (one_read_in_flight ascii_toString (list line_event) record
           3 zeroed [] _ reachable_first_read).
Defined.

Lemma next_on_closed_reader_witness :
  reachable_r abandoned /\ _buffer (self abandoned) = None /\
  next_r abandoned
  = emit (list line_event) record
         (if _eof (self abandoned) then eof_event
          else LineEvent (Some FileIsClosed) false []) abandoned.
Proof.
  assert (Hb : _buffer (self abandoned) = None) by (vm_compute; reflexivity).
  split; [apply reachable_abandoned|]. split; [exact Hb|].
  apply (next_on_closed_reader ascii_toString (list line_event) record
           3 zeroed [] _ reachable_abandoned Hb).
Defined.

Lemma pull_emits_exactly_once_witness :
  in_file_r [97; 10] false [] [97; 10] fresh /\
  exists e,
    emitted (pull_r [97; 10] greedy fresh) = emitted fresh ++ [e] /\
    consumer (pull_r [97; 10] greedy fresh)
      = (if listening fresh then record e (consumer fresh) else consumer fresh) /\
    fs_reads (pull_r [97; 10] greedy fresh) = [] /\
    nextTicks (pull_r [97; 10] greedy fresh) = [].
Proof.
  split; [apply fresh_in_file|].
  apply (pull_emits_exactly_once ascii_toString (list line_event) record
           _ greedy _ _ (fresh_in_file [97; 10])).
Defined.

Lemma lines_before_an_oversized_line_witness :
  let file := with_line_feeds [[97]] ++ replicate (Z.to_nat BUF_SIZE) 98 in
  let w := pulls_r 2 file greedy (on_line (init 3 zeroed [])) in
  len zeroed = BUF_SIZE /\
  emitted w = [line_event_of ascii_toString (strip_cr [97]); too_large_event] /\
  _buffer (self w) = None.
Proof.
  cbv zeta. split; [apply len_zeroed|].
  assert (Hls : Forall (fun l => (LF ∉ l) /\ len l < BUF_SIZE) [[97]]).
  { constructor; [|constructor]. split; [no_line_feed | reflexivity]. }
  destruct (lines_before_an_oversized_line ascii_toString (list line_event) record
              3 zeroed [] _ greedy [[97]] (replicate (Z.to_nat BUF_SIZE) 98)
              len_zeroed eq_refl Hls no_lf_in_full_buffer
              ltac:(rewrite len_replicate_buffer; lia))
    as (He & _ & Hb & _).
  split; [exact He | exact Hb].
Defined.

Lemma buffered_lines_witness :
  (LF ∉ [97]) /\ (LF ∉ [98]) /\
  next_r (next_r (World (reader_at 3 [] ([97] ++ LF :: [98] ++ LF :: []) [0] 4 false false)
                        true [] [] [] [] []))
  = World (reader_at 3 (([] ++ [97] ++ [LF]) ++ [98] ++ [LF]) [] [0] 4 false false)
          true [] []
          ([] ++ [TickEmit (line_event_of ascii_toString (strip_cr [97]));
                  TickEmit (line_event_of ascii_toString (strip_cr [98]))]) [] [].
Proof.
  assert (Ha : LF ∉ [97]) by no_line_feed.
  assert (Hb : LF ∉ [98]) by no_line_feed.
  split; [exact Ha|]. split; [exact Hb|].
  apply (buffered_lines_need_no_wait ascii_toString (list line_event) record
           3 [] [97] [98] [] [0] 4 true [] [] [] [] Ha Hb).
Defined.

Lemma cursor_witness :
  fs_writes (consumer first_write_in_flight)
    = [WriteRequest 3 (units "ab" ++ [LF]) 0] /\
  writePointer (consumer (write_d (WriteDone 3) first_write_in_flight))
    = writePointer (consumer first_write_in_flight) + 3 /\
  fs_writes (consumer (write_d (WriteDone 3) first_write_in_flight)) = [].
Proof.
  assert (Hq : fs_writes (consumer first_write_in_flight)
               = [WriteRequest 3 (units "ab" ++ [LF]) 0]) by (vm_compute; reflexivity).
  split; [exact Hq|].
  destruct (cursor_moves_only_on_written ascii_toString 3 first_write_in_flight
              _ _ 3 (ReadDone []) Hq) as (H1 & H2 & _).
  split; assumption.
Defined.

Lemma writes_stay_inside_witness :
  let file := units "ab" ++ [LF] ++ units "cd" ++ [LF] in
  let w := drive ascii_toString 1 3 file greedy thorough
                 (drive_start ascii_toString 3 zeroed file greedy) in
  fst (cut_lines file) !! 1%nat = Some (units "cd") /\
  fs_writes (consumer w)
    = [WriteRequest 3 (spec_transform (ascii_toString (strip_cr (units "cd"))) ++ [LF])
                    (writePointer (consumer w))] /\
  0 <= writePointer (consumer w) /\
  writePointer (consumer w)
    + len (spec_transform (ascii_toString (strip_cr (units "cd"))) ++ [LF])
    <= len (with_line_feeds (take 2 (fst (cut_lines file)))).
Proof.
  cbv zeta.
  assert (Hk : fst (cut_lines (units "ab" ++ [LF] ++ units "cd" ++ [LF])) !! 1%nat
               = Some (units "cd")) by reflexivity.
  assert (Hshort : Forall (fun l => len l < BUF_SIZE)
                     (fst (cut_lines (units "ab" ++ [LF] ++ units "cd" ++ [LF])))).
  { repeat constructor. }
  split; [exact Hk|].
  apply (writes_stay_inside_their_lines ascii_toString 3 zeroed _ greedy thorough
           1 (units "cd") len_zeroed ascii_toString_len thorough_modest Hshort Hk).
Defined.

Lemma drive_reaches_the_end_witness :
  let file := units "ab" ++ [LF] ++ units "cd" in
  let w := drive ascii_toString (length (file_lines file)) 3 file greedy thorough
                 (drive_start ascii_toString 3 zeroed file greedy) in
  (forall b, len (ascii_toString b) <= len b) /\ modest thorough /\
  Forall (fun l => len l < BUF_SIZE) (file_lines file) /\
  console (consumer w) = [LogEndOfFile] /\
  fs_writes (consumer w) = [] /\
  _buffer (self w) = None /\
  fs_closes w = [3] /\
  0 <= writePointer (consumer w) <= len (with_line_feeds (file_lines file)).
Proof.
  cbv zeta.
  assert (Hshort : Forall (fun l => len l < BUF_SIZE)
                     (file_lines (units "ab" ++ [LF] ++ units "cd"))).
  { repeat constructor. }
  split; [exact ascii_toString_len|]. split; [exact thorough_modest|].
  split; [exact Hshort|].
  apply (drive_reaches_the_end ascii_toString 3 zeroed _ greedy thorough
           len_zeroed ascii_toString_len thorough_modest Hshort).
Defined.

Lemma read_error_witness :
  reachable_r (next_r fresh) /\ _reading (self (next_r fresh)) = true /\
  emitted (read_r (ReadFailed 5) (next_r fresh))
    = emitted (next_r fresh) ++ [LineEvent (Some (FsError 5)) false []] /\
  _buffer (self (read_r (ReadFailed 5) (next_r fresh))) = None.
Proof.
  assert (Hrd : _reading (self (next_r fresh)) = true) by (vm_compute; reflexivity).
  split; [apply reachable_first_read|]. split; [exact Hrd|].
  destruct (read_error_is_fatal ascii_toString (list line_event) record
              3 zeroed [] _ 5 reachable_first_read Hrd) as (H1 & H2 & _).
  split; assumption.
Defined.

Lemma close_keeps_queued_lines_witness :
  let w := World (Reader 3 (Some [97; 10]) 2 2 false false 2) true (@nil line_event) []
                 (map TickEmit [LineEvent None false [97]]) [] [] in
  _buffer (self w) <> None /\ listening w = true /\
  emitted (drain record (close w)) = emitted w ++ [LineEvent None false [97]] /\
  consumer (drain record (close w))
    = deliver_all (list line_event) record [LineEvent None false [97]] (consumer w) /\
  listening (drain record (close w)) = false.
Proof.
  cbv zeta.
  assert (Hb : _buffer (self (World (Reader 3 (Some [97; 10]) 2 2 false false 2) true
                                    (@nil line_event) []
                                    (map TickEmit [LineEvent None false [97]]) [] []))
               <> None) by discriminate.
  split; [exact Hb|]. split; [reflexivity|].
  destruct (close_keeps_queued_lines (list line_event) record _
              [LineEvent None false [97]] Hb eq_refl eq_refl) as (H1 & H2 & H3 & _).
  repeat split; assumption.
Defined.

Lemma drive_stops_witness :
  let file := with_line_feeds [[97]] ++ replicate (Z.to_nat BUF_SIZE) 98 in
  let w := drive ascii_toString 1 3 file greedy thorough
                 (drive_start ascii_toString 3 zeroed file greedy) in
  (forall b, len (ascii_toString b) <= len b) /\ modest thorough /\
  BUF_SIZE <= len (replicate (Z.to_nat BUF_SIZE) 98) /\
  console (consumer w) = [LogError LineTooLarge] /\
  fs_writes (consumer w) = [] /\
  _buffer (self w) = None /\
  0 <= writePointer (consumer w) <= len (with_line_feeds [[97]]).
Proof.
  cbv zeta.
  assert (Hlen : BUF_SIZE <= len (replicate (Z.to_nat BUF_SIZE) 98))
    by (rewrite len_replicate_buffer; lia).
  assert (Hls : Forall (fun l => (LF ∉ l) /\ len l < BUF_SIZE) [[97]]).
  { constructor; [|constructor]. split; [no_line_feed | reflexivity]. }
  split; [exact ascii_toString_len|]. split; [exact thorough_modest|].
  split; [exact Hlen|].
  apply (drive_stops_at_an_oversized_line ascii_toString 3 zeroed _ greedy thorough
           [[97]] (replicate (Z.to_nat BUF_SIZE) 98)
           len_zeroed ascii_toString_len thorough_modest eq_refl Hls
           no_lf_in_full_buffer Hlen).
Defined.

(** On ASCII text the utf8 encoding of a character is the byte of the
    same value. *)
Definition ascii_encode (s : list Z) : list Z := s.

Lemma ascii_encode_len (s : list Z) : len (ascii_encode s) <= len s.
Proof. unfold ascii_encode. lia. Qed.

Lemma thorough_complete : complete ascii_encode thorough.
Proof. intros rq. reflexivity. Qed.

Lemma disk_run_is_drive_witness :
  let file := units "ab" ++ [LF] ++ units "cd" ++ [LF] in
  (forall b, len (ascii_toString b) <= len b) /\ modest thorough /\
  snd (disk_drive ascii_toString ascii_encode 2 3 greedy thorough
         (file, drive_start ascii_toString 3 zeroed file greedy))
  = drive ascii_toString 2 3 file greedy thorough
          (drive_start ascii_toString 3 zeroed file greedy).
Proof.
  cbv zeta. split; [exact ascii_toString_len|]. split; [exact thorough_modest|].
  apply (disk_run_is_drive ascii_toString ascii_encode 3 zeroed _ greedy thorough 2
           len_zeroed ascii_toString_len thorough_modest).
Defined.

Lemma rewritten_file_witness :
  let file := [DQUOTE] ++ units "ab" ++ [DQUOTE; CR; LF]
              ++ [DQUOTE] ++ units "cd" ++ [DQUOTE; CR; LF] in
  complete ascii_encode thorough /\
  Forall (fun l => len l < BUF_SIZE) (file_lines file) /\
  (length (file_lines file) <= 3)%nat /\
  fst (disk_drive ascii_toString ascii_encode 3 3 greedy
         thorough (file, drive_start ascii_toString 3 zeroed file greedy))
  = [DQUOTE] ++ units "ba" ++ [DQUOTE; LF]
    ++ [DQUOTE] ++ units "dc" ++ [DQUOTE; LF] ++ [CR; LF].
Proof.
  cbv zeta.
  assert (Hshort : Forall (fun l => len l < BUF_SIZE)
                     (file_lines ([DQUOTE] ++ units "ab" ++ [DQUOTE; CR; LF]
                                  ++ [DQUOTE] ++ units "cd" ++ [DQUOTE; CR; LF]))).
  { repeat constructor. }
  assert (Hn : (length (file_lines ([DQUOTE] ++ units "ab" ++ [DQUOTE; CR; LF]
                                    ++ [DQUOTE] ++ units "cd" ++ [DQUOTE; CR; LF]))
                <= 3)%nat) by (vm_compute; lia).
  split; [exact thorough_complete|]. split; [exact Hshort|]. split; [exact Hn|].
  destruct (rewritten_file ascii_toString ascii_encode 3 zeroed _ greedy thorough 3
              len_zeroed ascii_toString_len ascii_encode_len thorough_complete
              Hshort Hn) as (Hfst & _).
  rewrite Hfst. vm_compute. reflexivity.
Defined.
